(** * Fluor: reaction-driven embeds ([src/core/InteractiveEmbed.ts])

    A shallow embedding of the two classes of the module, [InteractiveEmbed]
    and [PaginatedEmbed], and the properties of their constructors, of
    [send] and of the two collector listeners that [send] installs. *)

From stdpp Require Import base strings list gmap fin_maps pretty.
From Stdlib Require Import ZArith Lia.

Set Default Proof Using "Type".
Open Scope Z_scope.

(** ** JavaScript data *)

(** [String.prototype.endsWith]. *)
Fixpoint endsWith (s t : string) : bool :=
  if String.eqb s t then true
  else match s with
       | EmptyString => false
       | String _ s' => endsWith s' t
       end.

(** The footer of an embed: [{ text?, iconURL? }]. *)
Record MessageEmbedFooter := mkFooter {
  text : option string;
  iconURL : option string
}.

(** The content of an embed as it is shown in a message: the footer, which the
    module reads and writes, and the remaining properties (title, fields,
    colour, ...), which it never looks into. *)
Record EmbedContent (B : Type) := mkContent {
  content_footer : option MessageEmbedFooter;
  content_body : B
}.
Arguments mkContent {B} _ _.
Arguments content_footer {B} _.
Arguments content_body {B} _.

(** What discord.js provides: the objects the module passes around without
    looking inside, the properties it reads from them, and the two operations
    of [MessageEmbed] it relies on. A plain object ([MessageEmbedOptions],
    the result of [toJSON]) is a finite map from property names to values. *)
Class DiscordJS := {
  Channel : Type;
  Message : Type;
  MessageReaction : Type;
  User : Type;
  JSValue : Type;
  EmbedBody : Type;
  (** [user.id] *)
  user_id : User → string;
  (** [reaction.emoji.name] *)
  emoji_name : MessageReaction → string;
  (** [embed.toJSON()] *)
  embed_toJSON : EmbedContent EmbedBody → gmap string JSValue;
  (** [new MessageEmbed(data)], for [data] an embed or a plain object: the
      content of the embed that is built. *)
  embed_setup : EmbedContent EmbedBody + gmap string JSValue → EmbedContent EmbedBody
}.

Section Model.
Context `{DiscordJS}.

(** The content of an embed, and a plain object such as [MessageEmbedOptions]. *)
Definition Embed : Type := EmbedContent EmbedBody.
Definition Options : Type := gmap string JSValue.

(** ** Objects and references

    Embeds and their footers are mutable objects: an array of embeds holds
    references, an embed holds a reference to its footer object, and the same
    object can be reached through several references. *)
Definition ref : Type := positive.

(** A [MessageEmbed] object: the reference of its footer object ([null] when
    it has none) and its other properties. *)
Record EmbedObject := mkEmbedObject {
  footer : option ref;
  body : EmbedBody
}.

(** The embed objects and the footer objects that exist. *)
Record Heap := mkHeap {
  embed_objects : gmap ref EmbedObject;
  footer_objects : gmap ref MessageEmbedFooter
}.

(** The content of the embed behind a reference, as a request to the platform
    serialises it at the time of the call. *)
Definition content_of (h : Heap) (r : ref) : option Embed :=
  match embed_objects h !! r with
  | None => None
  | Some o =>
      match footer o with
      | None => Some (mkContent None (body o))
      | Some f =>
          match footer_objects h !! f with
          | None => None
          | Some fo => Some (mkContent (Some fo) (body o))
          end
      end
  end.

(** The footer text of the embed behind a reference ([embed.footer.text]). *)
Definition footer_text (h : Heap) (r : ref) : option string :=
  match content_of h r with
  | Some c =>
      match content_footer c with
      | Some fo => text fo
      | None => None
      end
  | None => None
  end.

(** What is thrown: [new Error(message)], or the [TypeError] of reading a
    property of [undefined]. *)
Inductive JSError :=
| Error (message : string)
| TypeError.

(** Synchronous code: it runs on the heap and returns or throws. *)
Inductive Completion (A : Type) :=
| Normal (a : A) (h : Heap)
| Throw (e : JSError).
#[global] Arguments Normal {A} _ _.
#[global] Arguments Throw {A} _.

Definition JS (A : Type) : Type := Heap → Completion A.

(** [throw e], [return a] and sequencing, a [throw] ending the sequence. *)

Definition js_throw {A} (e : JSError) : JS A := λ _, Throw e.
#[export] Instance js_ret : MRet JS := λ A a h, Normal a h.
#[export] Instance js_bind : MBind JS := λ A B k m h,
  match m h with
  | Normal a h' => k a h'
  | Throw e => Throw e
  end.

(** Reading a property of what a reference points to; of [undefined] it is a
    [TypeError]. *)
Definition get_embed (r : ref) : JS EmbedObject :=
  λ h, match embed_objects h !! r with
       | Some o => Normal o h
       | None => Throw TypeError
       end.
Definition get_footer (f : ref) : JS MessageEmbedFooter :=
  λ h, match footer_objects h !! f with
       | Some fo => Normal fo h
       | None => Throw TypeError
       end.
(** Writing a property of the object behind a reference. *)
Definition set_embed (r : ref) (o : EmbedObject) : JS unit :=
  λ h, Normal tt (mkHeap (<[r := o]> (embed_objects h)) (footer_objects h)).
Definition set_footer (f : ref) (fo : MessageEmbedFooter) : JS unit :=
  λ h, Normal tt (mkHeap (embed_objects h) (<[f := fo]> (footer_objects h))).
(** A new footer object. *)
Definition new_footer (fo : MessageEmbedFooter) : JS ref :=
  λ h, let f := fresh (dom (footer_objects h)) in
       Normal f (mkHeap (embed_objects h) (<[f := fo]> (footer_objects h))).
(** A new embed object. *)
Definition new_embed_object (o : EmbedObject) : JS ref :=
  λ h, let r := fresh (dom (embed_objects h)) in
       Normal r (mkHeap (<[r := o]> (embed_objects h)) (footer_objects h)).

(** [new MessageEmbed(data)]: a new embed object, with a footer object of its
    own when the content has a footer. *)
Definition MessageEmbed_new (c : Embed) : JS ref :=
  match content_footer c with
  | None => new_embed_object (mkEmbedObject None (content_body c))
  | Some fo =>
      f ← new_footer fo;
      new_embed_object (mkEmbedObject (Some f) (content_body c))
  end.

(** [embed.setFooter(text)]: the footer becomes a new object holding the text
    and no icon. *)
Definition setFooter (r : ref) (t : string) : JS unit :=
  o ← get_embed r;
  f ← new_footer (mkFooter (Some t) None);
  set_embed r (mkEmbedObject (Some f) (body o)).

(** [x || ''] for an optional string: the string itself unless it is missing
    (or empty, which gives the empty string either way). *)
Definition or_empty (t : option string) : string :=
  match t with
  | Some s => if String.eqb s "" then "" else s
  | None => ""
  end.

(** ** PaginatedEmbed: the constructor *)

(** The collector that [message.createReactionCollector(filter, options)]
    returns: the message it listens on, the filter, and the two expirations
    of the options, in milliseconds. *)
Record ReactionCollector := mkCollector {
  collector_message : Message;
  collector_filter : MessageReaction → User → bool;
  collector_idle : Z;
  collector_time : Z
}.

(** The fields of a [PaginatedEmbed]; [embeds] holds references. *)
Record PaginatedEmbed := mkPaginatedEmbed {
  pe_collector : option ReactionCollector;
  pe_embeds : list ref;
  pe_killed : option Options
}.

(** [`Page ${i + 1}/${embeds.length}`] *)
Definition page_label (i n : nat) : string :=
  "Page " +:+ pretty (i + 1)%nat +:+ "/" +:+ pretty n.

(** The callback of [embeds.map], for the embed at index [i] of [n]. *)
Definition paginate (n : nat) (embed : ref) (i : nat) : JS ref :=
  o ← get_embed embed;
  match footer o with
  | Some f =>
      fo ← get_footer f;
      set_footer f (mkFooter (Some (or_empty (text fo) +:+ " • " +:+ page_label i n))
                             (iconURL fo));;
      mret embed
  | None =>
      setFooter embed (page_label i n);;
      mret embed
  end.

(** [Array.prototype.map], the callback taking the element and its index. *)
Fixpoint array_map {A B} (f : A → nat → JS B) (i : nat) (l : list A) : JS (list B) :=
  match l with
  | [] => mret []
  | x :: l' =>
      y ← f x i;
      ys ← array_map f (S i) l';
      mret (y :: ys)
  end.

(** [new PaginatedEmbed(embeds, killed)]. *)
Definition PaginatedEmbed_new (embeds : list ref) (killed : option Options)
  : JS PaginatedEmbed :=
  if decide (length embeds = 0%nat)
  then js_throw (Error "At least 1 MessageEmbed must be provided in a PaginatedEmbed.")
  else
    embeds' ← array_map (paginate (length embeds)) 0 embeds;
    mret (mkPaginatedEmbed None embeds' killed).

(** ** InteractiveEmbed: the constructor *)

(** The fields of an [InteractiveEmbed]; [embed] holds a reference. *)
Record InteractiveEmbed := mkInteractiveEmbed {
  ie_collector : option ReactionCollector;
  ie_embed : ref;
  ie_emojis : list string;
  ie_killed : option Options
}.

(** [new InteractiveEmbed(emojis, embed, killed)]; the argument [embed] is a
    [MessageEmbed] (a reference) or a plain object. *)
Definition InteractiveEmbed_new (emojis : list string) (embed : ref + Options)
    (killed : option Options) : JS InteractiveEmbed :=
  data ← match embed with
         | inl r => λ h, match content_of h r with
                         | Some c => Normal (inl c) h
                         | None => Throw TypeError
                         end
         | inr o => mret (inr o)
         end;
  e ← MessageEmbed_new (embed_setup data);
  mret (mkInteractiveEmbed None e emojis killed).

(** ** Asynchronous code

    The requests to the platform: each returns a promise, which settles
    later, resolved with a value or rejected. *)
Inductive Request : Type → Type :=
| ChannelSend (channel : Channel) (content : option Embed) : Request Message
| MessageReact (message : Message) (emoji : string) : Request MessageReaction
| UsersRemove (reaction : MessageReaction) (user : User) : Request MessageReaction
| MessageEdit (message : Message) (content : option Embed) : Request Message
| ReactionsRemoveAll (message : Message) : Request Message.

(** The body of an [async] function or of a listener, over the variables [S]
    it can reach ([this], the locals its closures share, the heap).
    - [Await q k] is [await q]: the request is made and the function is
      suspended until the promise settles; it goes on with the value when the
      promise resolves and ends there when it rejects;
    - [Call q k] makes the request and drops the promise;
    - [Spawn p k] calls the [async] function [p] and drops its promise: [p]
      runs up to its first [await], then [k] goes on;
    - [Emit] is [this.emit(name, reaction, user)];
    - [OnCollect] and [OnEnd] are [this.collector.on('collect', h)] and
      [this.collector.on('end', h)]. *)
Inductive Async (S A : Type) : Type :=
| Ret (a : A)
| Fail (e : JSError)
| Get (k : S → Async S A)
| Put (w : S) (k : Async S A)
| Await {R} (q : Request R) (k : R → Async S A)
| Call {R} (q : Request R) (k : Async S A)
| Spawn (p : Async S unit) (k : Async S A)
| Emit (name : string) (reaction : MessageReaction) (user : User) (k : Async S A)
| OnCollect (h : MessageReaction → User → Async S unit) (k : Async S A)
| OnEnd (h : Async S unit) (k : Async S A).
#[global] Arguments Ret {S A} _.
#[global] Arguments Fail {S A} _.
#[global] Arguments Get {S A} _.
#[global] Arguments Put {S A} _ _.
#[global] Arguments Await {S A R} _ _.
#[global] Arguments Call {S A R} _ _.
#[global] Arguments Spawn {S A} _ _.
#[global] Arguments Emit {S A} _ _ _ _.
#[global] Arguments OnCollect {S A} _ _.
#[global] Arguments OnEnd {S A} _ _.

(** Sequencing: [p], then [f] on what it returns. *)
Fixpoint async_bind {S A B : Type} (p : Async S A) (f : A → Async S B) : Async S B :=
  match p with
  | Ret a => f a
  | Fail e => Fail e
  | Get k => Get (λ w, async_bind (k w) f)
  | Put w k => Put w (async_bind k f)
  | Await q k => Await q (λ r, async_bind (k r) f)
  | Call q k => Call q (async_bind k f)
  | Spawn p k => Spawn p (async_bind k f)
  | Emit n r u k => Emit n r u (async_bind k f)
  | OnCollect h k => OnCollect h (async_bind k f)
  | OnEnd h k => OnEnd h (async_bind k f)
  end.

#[export] Instance async_ret {S} : MRet (Async S) := λ A a, Ret a.
#[export] Instance async_mbind {S} : MBind (Async S) := λ A B f p, async_bind p f.

(** The single statements. *)
Definition get {S} : Async S S := Get Ret.
Definition put {S} (w : S) : Async S unit := Put w (Ret tt).
Definition await {S R} (q : Request R) : Async S R := Await q Ret.
Definition call {S R} (q : Request R) : Async S unit := Call q (Ret tt).
Definition spawn {S} (p : Async S unit) : Async S unit := Spawn p (Ret tt).
Definition emit {S} (name : string) (reaction : MessageReaction) (user : User)
  : Async S unit := Emit name reaction user (Ret tt).
Definition on_collect {S} (h : MessageReaction → User → Async S unit)
  : Async S unit := OnCollect h (Ret tt).
Definition on_end {S} (h : Async S unit) : Async S unit := OnEnd h (Ret tt).
Definition throw {S A} (e : JSError) : Async S A := Fail e.

(** [Array.prototype.forEach]. *)
Fixpoint forEach {S A} (l : list A) (f : A → Async S unit) : Async S unit :=
  match l with
  | [] => mret tt
  | x :: l' => f x;; forEach l' f
  end.

(** [array[i]] for a number [i]: [undefined] outside the array. *)
Definition array_get {A} (l : list A) (i : Z) : option A :=
  if decide (0 ≤ i) then l !! Z.to_nat i else None.

(** ** Running asynchronous code

    JavaScript runs a function to its next [await] without interruption.
    [advance p w] is that run, for the code [p] started in [w]: what it did,
    in order, the state it leaves, the functions it called without awaiting
    that are now suspended, the listeners it registered, and how it stopped. *)
Inductive Entry :=
(* a request is made *)
| Requested {R} (q : Request R)
(* the promise of an awaited request resolves with [r], or rejects *)
| Resolved {R} (q : Request R) (r : R)
| Rejected {R} (q : Request R)
(* [this.emit(name, reaction, user)] *)
| Emitted (name : string) (reaction : MessageReaction) (user : User).

(** The entries that the platform adds when it settles a request. *)
Definition settles (e : Entry) : Prop :=
  match e with
  | Resolved _ _ | Rejected _ => True
  | _ => False
  end.

(** A function suspended at [await q]. *)
Record Task (S : Type) := mkTask {
  task_reply : Type;
  task_result : Type;
  task_request : Request task_reply;
  task_resume : task_reply → Async S task_result
}.
#[global] Arguments mkTask {S task_reply task_result} _ _.
#[global] Arguments task_reply {S} _.
#[global] Arguments task_result {S} _.
#[global] Arguments task_request {S} _.
#[global] Arguments task_resume {S} _ _.

(** How a run stops: the function returns, throws, or is suspended at
    [await q] with the rest [k] to run on the value. *)
Inductive Status (S A : Type) :=
| Returned (a : A)
| Threw (e : JSError)
| Suspended {R} (q : Request R) (k : R → Async S A).
#[global] Arguments Returned {S A} _.
#[global] Arguments Threw {S A} _.
#[global] Arguments Suspended {S A R} _ _.

(** A run: what it logged, the state it leaves, the functions it called and
    left suspended, the listeners it registered, and how it stopped. *)
Record Run (S A : Type) := mkRun {
  run_log : list Entry;
  run_world : S;
  run_tasks : list (Task S);
  run_collect : list (MessageReaction → User → Async S unit);
  run_end : list (Async S unit);
  run_status : Status S A
}.
#[global] Arguments mkRun {S A} _ _ _ _ _ _.
#[global] Arguments run_log {S A} _.
#[global] Arguments run_world {S A} _.
#[global] Arguments run_tasks {S A} _.
#[global] Arguments run_collect {S A} _.
#[global] Arguments run_end {S A} _.
#[global] Arguments run_status {S A} _.

(** The function itself as a suspended function, when the run suspends. *)
Definition suspended {S A : Type} (st : Status S A) : list (Task S) :=
  match st with
  | Suspended q k => [mkTask q k]
  | _ => []
  end.

(** What a run leaves suspended: the functions it called and its own rest. *)
Definition run_pending {S A : Type} (r : Run S A) : list (Task S) :=
  run_tasks r ++ suspended (run_status r).

(** The run, with [e] logged before it. *)
Definition logged {S A : Type} (e : Entry) (r : Run S A) : Run S A :=
  mkRun (e :: run_log r) (run_world r) (run_tasks r) (run_collect r) (run_end r)
        (run_status r).

(** The run of [p] from the state [w] to its next [await]. *)
Fixpoint advance {S A : Type} (p : Async S A) (w : S) : Run S A :=
  match p with
  | Ret a => mkRun [] w [] [] [] (Returned a)
  | Fail e => mkRun [] w [] [] [] (Threw e)
  | Get k => advance (k w) w
  | Put w' k => advance k w'
  | Await q k => mkRun [Requested q] w [] [] [] (Suspended q k)
  | Call q k => logged (Requested q) (advance k w)
  | Spawn p k =>
      let r1 := advance p w in
      let r2 := advance k (run_world r1) in
      mkRun (run_log r1 ++ run_log r2) (run_world r2)
            (run_pending r1 ++ run_tasks r2)
            (run_collect r1 ++ run_collect r2) (run_end r1 ++ run_end r2)
            (run_status r2)
  | Emit n r u k => logged (Emitted n r u) (advance k w)
  | OnCollect h k =>
      let r := advance k w in
      mkRun (run_log r) (run_world r) (run_tasks r) (h :: run_collect r) (run_end r)
            (run_status r)
  | OnEnd h k =>
      let r := advance k w in
      mkRun (run_log r) (run_world r) (run_tasks r) (run_collect r) (h :: run_end r)
            (run_status r)
  end.

(** The run is suspended at [await q]. *)
Definition awaits {S A R : Type} (r : Run S A) (q : Request R) : Prop :=
  ∃ k, run_status r = Suspended q k.

(** The run that follows a suspended one when the request it awaits resolves,
    with the value [reply] gives, the state being [w] by then. *)
Definition resume {S A : Type} (r : Run S A) (reply : ∀ R, Request R → R) (w : S)
  : Run S A :=
  match run_status r with
  | Suspended q k => advance (k (reply _ q)) w
  | _ => mkRun [] w [] [] [] (run_status r)
  end.

(** ** The event loop

    Between two runs the platform settles a pending request, which resumes the
    function awaiting it, or the collector emits an event, which calls the
    listeners: ['collect'] for a reaction that passes the filter, ['end']
    once, after which it emits nothing more. *)
Record Config (S : Type) := mkConfig {
  world : S;
  tasks : list (Task S);
  collect_listeners : list (MessageReaction → User → Async S unit);
  end_listeners : list (Async S unit);
  ended : bool;
  log : list Entry
}.
#[global] Arguments mkConfig {S} _ _ _ _ _ _.
#[global] Arguments world {S} _.
#[global] Arguments tasks {S} _.
#[global] Arguments collect_listeners {S} _.
#[global] Arguments end_listeners {S} _.
#[global] Arguments ended {S} _.
#[global] Arguments log {S} _.

(** The configuration after running [p] in it. *)
Definition run_in {S A : Type} (c : Config S) (p : Async S A) : Config S :=
  let r := advance p (world c) in
  mkConfig (run_world r) (tasks c ++ run_pending r)
           (collect_listeners c ++ run_collect r) (end_listeners c ++ run_end r)
           (ended c) (log c ++ run_log r).

(** Calling the listeners of an event, in the order of registration. *)
Definition deliver {S} (c : Config S) (hs : list (Async S unit)) : Config S :=
  foldl run_in c hs.

(** The request of the [i]-th suspended function settles: the function leaves
    the pending ones and [e] is logged. *)
Definition settled {S} (c : Config S) (i : nat) (e : Entry) : Config S :=
  mkConfig (world c) (delete i (tasks c)) (collect_listeners c) (end_listeners c)
           (ended c) (log c ++ [e]).

(** The collector has ended. *)
Definition close {S} (c : Config S) : Config S :=
  mkConfig (world c) (tasks c) (collect_listeners c) (end_listeners c) true (log c).

(** The collector emits ['collect'] for a reaction of a user. *)
Definition collect {S : Type} (reaction : MessageReaction) (user : User)
    (c : Config S) : Config S :=
  deliver c ((λ h, h reaction user) <$> collect_listeners c).

(** One turn of the event loop. A rejected promise ends the function that
    awaits it. The collector is the one the instance holds, [collector_of]. *)
Inductive step {S} (collector_of : S → option ReactionCollector)
  : Config S → Config S → Prop :=
| step_resolve c i t (r : task_reply t) :
    tasks c !! i = Some t →
    step collector_of c
      (run_in (settled c i (Resolved (task_request t) r)) (task_resume t r))
| step_reject c i t :
    tasks c !! i = Some t →
    step collector_of c (settled c i (Rejected (task_request t)))
| step_collect c coll reaction user :
    ended c = false →
    collector_of (world c) = Some coll →
    collector_filter coll reaction user = true →
    step collector_of c (collect reaction user c)
| step_end c coll :
    ended c = false →
    collector_of (world c) = Some coll →
    step collector_of c (deliver (close c) (end_listeners c)).

(** The platform resolves the request of the [i]-th suspended function, with
    the value [reply] gives. *)
Definition resolve {S : Type} (reply : ∀ R, Request R → R) (i : nat) (c : Config S)
  : Config S :=
  match tasks c !! i with
  | Some t =>
      run_in (settled c i (Resolved (task_request t) (reply _ (task_request t))))
             (task_resume t (reply _ (task_request t)))
  | None => c
  end.

(** Calling [p] in the state [w], nothing else being under way. *)
Definition started {S A : Type} (w : S) (p : Async S A) : Config S :=
  run_in (mkConfig w [] [] [] false []) p.

(** The configurations that calling [p] in [w] can lead to. *)
Definition reachable {S A : Type} (collector_of : S → option ReactionCollector)
    (w : S) (p : Async S A) (c : Config S) : Prop :=
  rtc (step collector_of) (started w p) c.

(** ** InteractiveEmbed.send *)

(** What [send] and its listeners reach: [this] and the heap. *)
Record IEWorld := mkIEWorld {
  ie_this : InteractiveEmbed;
  ie_heap : Heap
}.

(** [this.collector = c] and [this.embed = e] (with the heap [e] lives in). *)
Definition ie_set_collector (c : ReactionCollector) (w : IEWorld) : IEWorld :=
  mkIEWorld (mkInteractiveEmbed (Some c) (ie_embed (ie_this w))
               (ie_emojis (ie_this w)) (ie_killed (ie_this w)))
            (ie_heap w).
Definition ie_set_embed (e : ref) (h : Heap) (w : IEWorld) : IEWorld :=
  mkIEWorld (mkInteractiveEmbed (ie_collector (ie_this w)) e
               (ie_emojis (ie_this w)) (ie_killed (ie_this w)))
            h.

(** The listener of ['collect']. *)
Definition InteractiveEmbed_collect (reaction : MessageReaction) (user : User)
  : Async IEWorld unit :=
  await (UsersRemove reaction user);;
  w ← get;
  if bool_decide (emoji_name reaction ∈ ie_emojis (ie_this w))
  then emit (emoji_name reaction) reaction user
  else mret tt.

(** [{ ...json, ...killed }]: the properties of [killed] over those of [json]. *)
Definition spread (json killed : Options) : Options := killed ∪ json.

(** The listener of ['end']. *)
Definition InteractiveEmbed_end (message : Message) : Async IEWorld unit :=
  call (ReactionsRemoveAll message);;
  w ← get;
  match ie_killed (ie_this w) with
  | Some killed =>
      match content_of (ie_heap w) (ie_embed (ie_this w)) with
      | None => throw TypeError
      | Some c =>
          let data := spread (embed_toJSON c) killed in
          match MessageEmbed_new (embed_setup (inr data)) (ie_heap w) with
          | Throw e => throw e
          | Normal e h =>
              put (ie_set_embed e h w);;
              w ← get;
              call (MessageEdit message (content_of (ie_heap w) (ie_embed (ie_this w))))
          end
      end
  | None => mret tt
  end.

(** The callback of [forEach] in [send]: [async emoji => await message.react(emoji)]. *)
Definition InteractiveEmbed_react (message : Message) (emoji : string)
  : Async IEWorld unit :=
  await (MessageReact message emoji);; mret tt.

(** [InteractiveEmbed.send(channel, user)]. *)
Definition InteractiveEmbed_send (channel : Channel) (user : User)
  : Async IEWorld InteractiveEmbed :=
  w ← get;
  message ← await (ChannelSend channel (content_of (ie_heap w) (ie_embed (ie_this w))));
  w ← get;
  forEach (ie_emojis (ie_this w)) (λ emoji, spawn (InteractiveEmbed_react message emoji));;
  w ← get;
  put (ie_set_collector
         (mkCollector message (λ _reaction u, bool_decide (user_id u = user_id user))
                      60000 180000) w);;
  on_collect InteractiveEmbed_collect;;
  on_end (InteractiveEmbed_end message);;
  w ← get;
  mret (ie_this w).

(** ** PaginatedEmbed.send *)

(** What [send] and its listeners reach: [this], the local [index] of [send]
    that its two listeners share, and the heap. Before [let index = 0] the
    variable does not exist, and what the cell holds then is not read. *)
Record PEWorld := mkPEWorld {
  pe_this : PaginatedEmbed;
  pe_index : Z;
  pe_heap : Heap
}.

(** [this.collector = c] and [index = i]. *)
Definition pe_set_collector (c : ReactionCollector) (w : PEWorld) : PEWorld :=
  mkPEWorld (mkPaginatedEmbed (Some c) (pe_embeds (pe_this w)) (pe_killed (pe_this w)))
            (pe_index w) (pe_heap w).
Definition pe_set_index (i : Z) (w : PEWorld) : PEWorld :=
  mkPEWorld (pe_this w) i (pe_heap w).

(** [this.embeds[index]], as a request shows it. *)
Definition pe_page (w : PEWorld) (i : Z) : option Embed :=
  match array_get (pe_embeds (pe_this w)) i with
  | Some e => content_of (pe_heap w) e
  | None => None
  end.

(** The listener of ['collect']; [message], [user] and [max] are those of
    [send]. *)
Definition PaginatedEmbed_collect (message : Message) (user : User) (max : Z)
    (reaction : MessageReaction) (_ : User) : Async PEWorld unit :=
  await (UsersRemove reaction user);;
  w ← get;
  (if bool_decide (emoji_name reaction = "⬅")
   then put (pe_set_index (if bool_decide (pe_index w - 1 < 0) then max
                           else pe_index w - 1) w)
   else if bool_decide (emoji_name reaction = "➡")
   then put (pe_set_index (if bool_decide (pe_index w + 1 > max) then 0
                           else pe_index w + 1) w)
   else mret tt);;
  w ← get;
  await (MessageEdit message (pe_page w (pe_index w)));;
  mret tt.

(** The listener of ['end']. *)
Definition PaginatedEmbed_end (message : Message) : Async PEWorld unit :=
  call (ReactionsRemoveAll message);;
  w ← get;
  match pe_killed (pe_this w) with
  | Some killed =>
      match pe_page w (pe_index w) with
      | None => throw TypeError
      | Some c =>
          let data := spread (embed_toJSON c) killed in
          match MessageEmbed_new (embed_setup (inr data)) (pe_heap w) with
          | Throw e => throw e
          | Normal e h =>
              put (mkPEWorld (pe_this w) (pe_index w) h);;
              call (MessageEdit message (content_of h e))
          end
      end
  | None => mret tt
  end.

(** [PaginatedEmbed.send(channel, user)]. *)
Definition PaginatedEmbed_send (channel : Channel) (user : User)
  : Async PEWorld PaginatedEmbed :=
  w ← get;
  message ← await (ChannelSend channel (pe_page w 0));
  await (MessageReact message "⬅");;
  await (MessageReact message "➡");;
  w ← get;
  put (pe_set_index 0 w);;
  w ← get;
  let max := Z.of_nat (length (pe_embeds (pe_this w))) - 1 in
  put (pe_set_collector
         (mkCollector message (λ _reaction u, bool_decide (user_id u = user_id user))
                      60000 180000) w);;
  on_collect (PaginatedEmbed_collect message user max);;
  on_end (PaginatedEmbed_end message);;
  w ← get;
  mret (pe_this w).

(** The collector of the instance, which the event loop listens to. *)
Definition ie_collector_of (w : IEWorld) : option ReactionCollector :=
  ie_collector (ie_this w).
Definition pe_collector_of (w : PEWorld) : option ReactionCollector :=
  pe_collector (pe_this w).

End Model.

(** * What the properties are stated with *)

Section Vocabulary.
Context `{DiscordJS}.

(** ** The constructor of PaginatedEmbed *)

(** The reference of the footer object of an embed. *)
Definition footer_ref (h : Heap) (r : ref) : option ref :=
  match embed_objects h !! r with
  | Some o => footer o
  | None => None
  end.

(** Every embed of the array is an object, with a footer object when it
    refers to one. *)
Definition well_formed (h : Heap) (embeds : list ref) : Prop :=
  ∀ r, r ∈ embeds → is_Some (content_of h r).

(** No two different embeds of the array have the same footer object. *)
Definition footers_unshared (h : Heap) (embeds : list ref) : Prop :=
  ∀ r r' f, r ∈ embeds → r' ∈ embeds →
    footer_ref h r = Some f → footer_ref h r' = Some f → r = r'.

(** The content of an embed after the callback of [map] ran on it as the
    element of index [i] among [n]. *)
Definition paginated (i n : nat) (c : Embed) : Embed :=
  mkContent
    (Some match content_footer c with
          | Some fo => mkFooter (Some (or_empty (text fo) +:+ " • " +:+ page_label i n))
                                (iconURL fo)
          | None => mkFooter (Some (page_label i n)) None
          end)
    (content_body c).

(** The footer of every embed of the array ends with the label of its page. *)
Definition footers_end_with_pages (h : Heap) (embeds : list ref) : Prop :=
  ∀ i r, embeds !! i = Some r →
    ∃ t, footer_text h r = Some t
         ∧ endsWith t (page_label i (length embeds)) = true.

(** The heap [h'] differs from [h] in footers only: every reference holds an
    embed object in both or in neither, with the same properties beside the
    footer; the embed objects outside [embeds] are untouched; and every footer
    object of [h] is still there, with its icon. *)
Definition footers_only (embeds : list ref) (h h' : Heap) : Prop :=
  (∀ r, body <$> embed_objects h' !! r = body <$> embed_objects h !! r)
  ∧ (∀ r, r ∉ embeds → embed_objects h' !! r = embed_objects h !! r)
  ∧ (∀ f fo, footer_objects h !! f = Some fo →
       ∃ fo', footer_objects h' !! f = Some fo' ∧ iconURL fo' = iconURL fo).

(** ** The listeners of PaginatedEmbed *)

(** The index after an arrow, as the pages are turned: back from the first
    page to the last, forward from the last page to the first. *)
Definition turn_page (n : nat) (emoji : string) (i : Z) : Z :=
  if decide (emoji = "⬅") then
    if decide (i = 0) then Z.of_nat n - 1 else i - 1
  else
    if decide (i = Z.of_nat n - 1) then 0 else i + 1.

(** The index stays within the pages as long as the collector is there, and
    is 0 until a listener of ['collect'] gets past its removal. *)
Definition index_in_range (embeds : list ref) (w : PEWorld) (l : list Entry) : Prop :=
  pe_embeds (pe_this w) = embeds ∧
  (is_Some (pe_collector (pe_this w)) →
   0 ≤ pe_index w ≤ Z.of_nat (length embeds) - 1
   ∧ ((∀ r u v, Resolved (UsersRemove r u) v ∉ l) → pe_index w = 0)).

(** ** InteractiveEmbed *)

(** The function that the callback of [forEach] leaves suspended. *)
Definition react_task (message : Message) (emoji : string) : Task IEWorld :=
  mkTask (MessageReact message emoji) (λ _, Ret tt).

(** Every object of [h] is still there, unchanged, in [h']. *)
Definition heap_extends (h h' : Heap) : Prop :=
  embed_objects h ⊆ embed_objects h' ∧ footer_objects h ⊆ footer_objects h'.

(** The objects of [h0] are as they were. *)
Definition keeps_heap (h0 : Heap) (w : IEWorld) (_ : list Entry) : Prop :=
  heap_extends h0 (ie_heap w).

(** What the message shows after the listener of ['end'] ran, for the embed
    [c] shown until then: all reactions are removed, and with a kill-patch the
    message is edited to the embed built from [c.toJSON()] overridden by the
    patch; without one, nothing else is requested. *)
Definition ends_with_patch {S A : Type} (message : Message) (killed : option Options)
    (c : Embed) (run : Run S A) : Prop :=
  match killed with
  | Some patch =>
      ∃ merged : Options,
        (∀ k, merged !! k = match patch !! k with
                            | Some v => Some v
                            | None => embed_toJSON c !! k
                            end)
        ∧ run_log run = [Requested (ReactionsRemoveAll message);
                         Requested (MessageEdit message
                                      (Some (embed_setup (inr merged))))]
  | None => run_log run = [Requested (ReactionsRemoveAll message)]
  end.

(** ** The collector *)

(** The collector of [send] for [user]: 60 seconds idle, 180 seconds in all,
    and a filter that looks at the identifier of the reacting user only. *)
Definition configured_for (user : User) (coll : ReactionCollector) : Prop :=
  collector_idle coll = 60 * 1000
  ∧ collector_time coll = 180 * 1000
  ∧ ∀ reaction u, collector_filter coll reaction u = true ↔ user_id u = user_id user.

(** A property of the collector of the instance, once there is one. *)
Definition ie_collector_is (P : ReactionCollector → list Entry → Prop)
    (w : IEWorld) (l : list Entry) : Prop :=
  ∀ coll, ie_collector (ie_this w) = Some coll → P coll l.
Definition pe_collector_is (P : ReactionCollector → list Entry → Prop)
    (w : PEWorld) (l : list Entry) : Prop :=
  ∀ coll, pe_collector (pe_this w) = Some coll → P coll l.

(** ** What the message shows *)

(** The embed that an entry of the history puts on the message: [send] and
    [edit] do, nothing else does. *)
Definition shows (e : Entry) : option (option Embed) :=
  match e with
  | Requested q =>
      match q with
      | ChannelSend _ content => Some content
      | MessageEdit _ content => Some content
      | _ => None
      end
  | _ => None
  end.

(** What the message shows after a history: what was requested last. *)
Fixpoint shown (l : list Entry) : option (option Embed) :=
  match l with
  | [] => None
  | e :: l' =>
      match shown l' with
      | Some content => Some content
      | None => shows e
      end
  end.

(** The listener of ['end'] has run: it is the one to remove all reactions. *)
Definition closes (e : Entry) : bool :=
  match e with
  | Requested q =>
      match q with
      | ReactionsRemoveAll _ => true
      | _ => false
      end
  | _ => false
  end.
Definition closing (l : list Entry) : Prop := Exists (λ e, closes e = true) l.

(** Until the collector ends the message shows the page at the index. *)
Definition shows_page (w : PEWorld) (l : list Entry) : Prop :=
  ¬ closing l → shown l = Some (pe_page w (pe_index w)).

(** The message shows the embed of the instance. *)
Definition shows_embed (w : IEWorld) (l : list Entry) : Prop :=
  ∀ content, shown l = Some content →
    content = content_of (ie_heap w) (ie_embed (ie_this w)).

(** [PaginatedEmbed.send] suspended at its third, second and first [await]
    after the post: what the run does that follows the resolution. *)
Definition at_right_arrow (user : User) (message : Message) (t : Task PEWorld) : Prop :=
  ∀ r w,
    let run := advance (task_resume t r) w in
    run_log run = []
    ∧ run_world run =
        pe_set_collector
          (mkCollector message (λ _ u, bool_decide (user_id u = user_id user))
                       60000 180000)
          (pe_set_index 0 w)
    ∧ run_pending run = []
    ∧ run_collect run =
        [PaginatedEmbed_collect message user
           (Z.of_nat (length (pe_embeds (pe_this w))) - 1)]
    ∧ run_end run = [PaginatedEmbed_end message].
Definition at_left_arrow (user : User) (message : Message) (t : Task PEWorld) : Prop :=
  ∀ r w,
    let run := advance (task_resume t r) w in
    run_log run = [Requested (MessageReact message "➡")]
    ∧ run_world run = w
    ∧ run_collect run = [] ∧ run_end run = []
    ∧ ∃ t', run_pending run = [t'] ∧ at_right_arrow user message t'.
Definition at_post (user : User) (t : Task PEWorld) : Prop :=
  ∀ message w,
    let run := advance (task_resume t message) w in
    ∃ message', run_log run = [Requested (MessageReact message' "⬅")]
    ∧ run_world run = w
    ∧ run_collect run = [] ∧ run_end run = []
    ∧ ∃ t', run_pending run = [t'] ∧ at_left_arrow user message' t'.

(** [PaginatedEmbed.send] before it sets the collector up: the state is the
    one it was called in, no listener is registered, the message shows the
    first page, and [send] is suspended at one of its [await]s, or has ended
    on a rejected promise. *)
Definition setting_up (user : User) (w : PEWorld) (c : Config PEWorld) : Prop :=
  world c = w
  ∧ collect_listeners c = [] ∧ end_listeners c = []
  ∧ shown (log c) = Some (pe_page w 0) ∧ ¬ closing (log c)
  ∧ (tasks c = []
     ∨ ∃ t, tasks c = [t]
         ∧ (at_post user t
            ∨ ∃ message, at_left_arrow user message t ∨ at_right_arrow user message t)).

(** The collector of a paginator is there. *)
Definition collecting (w : PEWorld) (_ : list Entry) : Prop :=
  is_Some (pe_collector (pe_this w)).

(** ** What is requested, and on which message *)

(** The message that an entry of the history acts on: a reaction added, an
    edit, the removal of all reactions. *)
Definition entry_target (e : Entry) : option Message :=
  match e with
  | Requested q =>
      match q with
      | MessageReact message _ => Some message
      | MessageEdit message _ => Some message
      | ReactionsRemoveAll message => Some message
      | _ => None
      end
  | _ => None
  end.

(** [send] has posted the message: its post resolved with it. *)
Definition posted (l : list Entry) (message : Message) : Prop :=
  ∃ channel content, Resolved (ChannelSend channel content) message ∈ l.

(** Whatever acts on a message acts on one that [send] posted. *)
Definition on_posted_message (l : list Entry) : Prop :=
  ∀ e message, e ∈ l → entry_target e = Some message → posted l message.

(** The collector of an InteractiveEmbed is there, on a message that [send]
    posted. *)
Definition listening (w : IEWorld) (l : list Entry) : Prop :=
  ∃ coll, ie_collector (ie_this w) = Some coll ∧ posted l (collector_message coll).

(** No event is emitted. *)
Definition silent (l : list Entry) : Prop :=
  ∀ name reaction user, Emitted name reaction user ∉ l.

(** An entry asks for an edit of the message; an entry is an event. *)
Definition edits (e : Entry) : bool :=
  match e with
  | Requested q =>
      match q with
      | MessageEdit _ _ => true
      | _ => false
      end
  | _ => false
  end.
(** Every edit asked for in a history comes after the removal of all
    reactions was asked for, and there is a kill-patch. *)
Definition edits_follow_closing (killed : option Options) (l : list Entry) : Prop :=
  ∀ l1 e l2, l = l1 ++ e :: l2 → edits e = true → is_Some killed ∧ closing l1.
Definition emits (e : Entry) : bool :=
  match e with
  | Emitted _ _ _ => true
  | _ => false
  end.

(** Every event emitted is named after the emoji of its reaction, one of
    [emojis], and the removal of that reaction has resolved. *)
Definition events_configured (emojis : list string) (l : list Entry) : Prop :=
  ∀ name reaction user, Emitted name reaction user ∈ l →
    name = emoji_name reaction ∧ name ∈ emojis
    ∧ ∃ v, Resolved (UsersRemove reaction user) v ∈ l.
Definition emits_configured (emojis : list string) (w : IEWorld) (l : list Entry)
  : Prop :=
  ie_emojis (ie_this w) = emojis ∧ events_configured emojis l.

(** An InteractiveEmbed called in [w0] edits its message at the end only, and
    only with a kill-patch; until then its embed is the one it had. *)
Definition edits_at_end (w0 w : IEWorld) (l : list Entry) : Prop :=
  ie_killed (ie_this w) = ie_killed (ie_this w0)
  ∧ edits_follow_closing (ie_killed (ie_this w0)) l
  ∧ (ie_killed (ie_this w0) = None ∨ ¬ closing l →
     ie_embed (ie_this w) = ie_embed (ie_this w0) ∧ ie_heap w = ie_heap w0).

(** A paginator called in [w0] keeps its embeds and its kill-patch, and every
    object of the heap. *)
Definition keeps_embeds (w0 w : PEWorld) (_ : list Entry) : Prop :=
  pe_embeds (pe_this w) = pe_embeds (pe_this w0)
  ∧ pe_killed (pe_this w) = pe_killed (pe_this w0)
  ∧ heap_extends (pe_heap w0) (pe_heap w).

(** The state after the listener of ['collect'] of a paginator got past the
    removal of a reaction, in the state [w]. *)
Definition turned (message : Message) (user : User) (max : Z)
    (reply : ∀ R, Request R → R) (reaction : MessageReaction) (w : PEWorld)
  : PEWorld :=
  run_world (resume (advance (PaginatedEmbed_collect message user max reaction user) w)
                    reply w).

(** ** Who interacts *)

(** The listener of ['collect'] of an InteractiveEmbed, suspended at the
    removal of the reaction. *)
Definition collect_task (reaction : MessageReaction) (user : User) : Task IEWorld :=
  mkTask (UsersRemove reaction user)
    (λ _, w ← get;
          if bool_decide (emoji_name reaction ∈ ie_emojis (ie_this w))
          then emit (emoji_name reaction) reaction user
          else mret tt).

(** [u] has the identifier of the user that [send] was called for. *)
Definition authorized (user u : User) : Prop := user_id u = user_id user.

(** The events emitted and the reactions removed are those of authorized
    users. *)
Definition authorized_entry (user : User) (e : Entry) : Prop :=
  match e with
  | Emitted _ _ u => authorized user u
  | Requested q =>
      match q with
      | UsersRemove _ u => authorized user u
      | _ => True
      end
  | _ => True
  end.

(** The reactions removed are reactions of [user] itself. *)
Definition removes_reaction_of (user : User) (e : Entry) : Prop :=
  match e with
  | Requested q =>
      match q with
      | UsersRemove _ u => u = user
      | _ => True
      end
  | _ => True
  end.

(** An InteractiveEmbed whose collector is set up for [user]: the history is
    that of authorized users; what is suspended is a reaction being attached
    or the listener of ['collect'] for an authorized user; the two listeners
    of [send] are registered, once, the one of ['end'] for the message of the
    collector; and the filter of the collector accepts authorized users
    only. *)
Definition interacting (user : User) (c : Config IEWorld) : Prop :=
  Forall (authorized_entry user) (log c)
  ∧ Forall (λ t, (∃ message emoji, t = react_task message emoji)
                 ∨ ∃ reaction u, t = collect_task reaction u ∧ authorized user u)
           (tasks c)
  ∧ collect_listeners c = [InteractiveEmbed_collect]
  ∧ ∃ coll, ie_collector (ie_this (world c)) = Some coll
            ∧ end_listeners c = [InteractiveEmbed_end (collector_message coll)]
            ∧ ∀ reaction u, collector_filter coll reaction u = true → authorized user u.

(** The requests that the suspended functions of a list await. *)
Definition awaited {S : Type} (ts : list (Task S)) : list Entry :=
  (λ t, Requested (task_request t)) <$> ts.

(** The collector of a paginator is there only after both arrows resolved. *)
Definition arrows_attached (coll : ReactionCollector) (l : list Entry) : Prop :=
  ∃ v v', Resolved (MessageReact (collector_message coll) "⬅") v ∈ l
          ∧ Resolved (MessageReact (collector_message coll) "➡") v' ∈ l.

End Vocabulary.

(** ** Invariants of the event loop

    A proof rule for properties [I] of the state and of the history that hold
    whenever no function is running: every run must re-establish [I] when it
    suspends or ends, knowing only that [I] held with a longer history when
    it was resumed. *)
Section InvariantRule.
Context `{DiscordJS} {S : Type}.
Variable I : S → list Entry → Prop.

(** [safe p w l Q]: the run of [p] from the state [w], the history being [l],
    ends or suspends in a state and history that satisfy [Q]; every function
    it leaves suspended and every listener it registers, started later in any
    state that satisfies [I] (with a history that extends the present one, and
    holds the resolution awaited), is safe for [I] in turn. *)
Fixpoint safe {A : Type} (p : Async S A) (w : S) (l : list Entry)
    (Q : S → list Entry → Prop) : Prop :=
  match p with
  | Ret _ => Q w l
  | Fail _ => Q w l
  | Get k => safe (k w) w l Q
  | Put w' k => safe k w' l Q
  | Await q k =>
      Q w (l ++ [Requested q]) ∧
      ∀ r w' l', (l ++ [Requested q]) `prefix_of` l' → Resolved q r ∈ l' →
                 I w' l' → safe (k r) w' l' I
  | Call q k => safe k w (l ++ [Requested q]) Q
  | Spawn p k => safe p w l (λ w1 l1, safe k w1 l1 Q)
  | Emit n r u k => safe k w (l ++ [Emitted n r u]) Q
  | OnCollect h k =>
      (∀ r u w' l', l `prefix_of` l' → I w' l' → safe (h r u) w' l' I) ∧
      safe k w l Q
  | OnEnd h k =>
      (∀ w' l', l `prefix_of` l' → I w' l' → safe h w' l' I) ∧ safe k w l Q
  end.

(** The same for a suspended function, a listener, and a configuration. *)
Definition task_safe (l : list Entry) (t : Task S) : Prop :=
  ∀ r w' l', l `prefix_of` l' → Resolved (task_request t) r ∈ l' →
             I w' l' → safe (task_resume t r) w' l' I.
Definition collect_safe (l : list Entry)
    (h : MessageReaction → User → Async S unit) : Prop :=
  ∀ r u w' l', l `prefix_of` l' → I w' l' → safe (h r u) w' l' I.
Definition end_safe (l : list Entry) (h : Async S unit) : Prop :=
  ∀ w' l', l `prefix_of` l' → I w' l' → safe h w' l' I.

Definition config_safe (c : Config S) : Prop :=
  I (world c) (log c)
  ∧ Forall (task_safe (log c)) (tasks c)
  ∧ Forall (collect_safe (log c)) (collect_listeners c)
  ∧ Forall (end_safe (log c)) (end_listeners c).

End InvariantRule.

(** * A small instance

    A toy platform to run the definitions on: messages are numbers, users
    and reactions are strings (an identifier, an emoji), an embed has a map of
    string properties beside its footer, [toJSON] lists the footer text under
    ["footer"] and [new MessageEmbed] reads it back from there. *)
Module Demo.

Definition discord : DiscordJS := {|
  Channel := unit;
  Message := nat;
  MessageReaction := string;
  User := string;
  JSValue := string;
  EmbedBody := gmap string string;
  user_id := λ u, u;
  emoji_name := λ r, r;
  embed_toJSON := λ c,
    match content_footer c with
    | Some fo => <["footer" := or_empty (text fo)]> (content_body c)
    | None => content_body c
    end;
  embed_setup := λ data,
    match data with
    | inl c => c
    | inr o =>
        mkContent match o !! "footer" with
                  | Some t => Some (mkFooter (Some t) None)
                  | None => None
                  end
                  (delete "footer" o)
    end
|}.
#[local] Existing Instance discord.

(** Two embeds: the first without a footer, the second with the footer "hi". *)
Definition heap : Heap :=
  mkHeap (<[1%positive := mkEmbedObject None {["title" := "A"]}]>
            (<[2%positive := mkEmbedObject (Some 1%positive) {["title" := "B"]}]> ∅))
         (<[1%positive := mkFooter (Some "hi") None]> ∅).

(** Two embeds that have the same footer object, "hi". *)
Definition shared : Heap :=
  mkHeap (<[1%positive := mkEmbedObject (Some 1%positive) {["title" := "A"]}]>
            (<[2%positive := mkEmbedObject (Some 1%positive) {["title" := "B"]}]> ∅))
         (<[1%positive := mkFooter (Some "hi") None]> ∅).

Definition patch : Options := {["title" := "closed"]}.

Definition reply (R : Type) (q : Request R) : R :=
  match q in Request R return R with
  | ChannelSend _ _ => 5%nat
  | MessageReact _ emoji => emoji
  | UsersRemove reaction _ => reaction
  | MessageEdit message _ => message
  | ReactionsRemoveAll message => message
  end.

(** The paginator over the two embeds, and the heap it leaves. *)
Definition paginator : PaginatedEmbed :=
  match PaginatedEmbed_new [1; 2]%positive (Some patch) heap with
  | Normal p _ => p
  | Throw _ => mkPaginatedEmbed None [] None
  end.
Definition paginated_heap : Heap :=
  match PaginatedEmbed_new [1; 2]%positive (Some patch) heap with
  | Normal _ h => h
  | Throw _ => heap
  end.
Definition page (i : Z) : PEWorld := mkPEWorld paginator i paginated_heap.

(** [send] called, then the post and the two arrows resolved. *)
Definition sent : Config PEWorld := started (page 7) (PaginatedEmbed_send tt "u1").
Definition armed : Config PEWorld :=
  resolve reply 0 (resolve reply 0 (resolve reply 0 sent)).

(** An InteractiveEmbed built from the second embed. *)
Definition interactive : InteractiveEmbed :=
  match InteractiveEmbed_new ["✅"; "❌"] (inl 2%positive) (Some patch) heap with
  | Normal this _ => this
  | Throw _ => mkInteractiveEmbed None 1%positive [] None
  end.
Definition interactive_heap : Heap :=
  match InteractiveEmbed_new ["✅"; "❌"] (inl 2%positive) (Some patch) heap with
  | Normal _ h => h
  | Throw _ => heap
  end.
Definition interactive_world : IEWorld := mkIEWorld interactive interactive_heap.

(** What the two instances show: the embed of the InteractiveEmbed, and the
    first page of the paginator. *)
Definition interactive_shown : Embed :=
  mkContent (Some (mkFooter (Some "hi") None)) {["title" := "B"]}.
Definition first_page : Embed :=
  mkContent (Some (mkFooter (Some "Page 1/2") None)) {["title" := "A"]}.

(** The scenarios of the specification. A paginator over three embeds, its
    collector set up; the authorized user adds a reaction and the two requests
    of the listener resolve. *)
Definition three_embeds : Heap :=
  mkHeap (<[1%positive := mkEmbedObject None {["title" := "A"]}]>
            (<[2%positive := mkEmbedObject None {["title" := "B"]}]>
               (<[3%positive := mkEmbedObject None {["title" := "C"]}]> ∅)))
         ∅.
Definition three_pages : Config PEWorld :=
  match PaginatedEmbed_new [1; 2; 3]%positive None three_embeds with
  | Normal p h =>
      resolve reply 0 (resolve reply 0 (resolve reply 0
        (started (mkPEWorld p 7 h) (PaginatedEmbed_send tt "u1"))))
  | Throw _ => sent
  end.
Definition click (emoji : string) (c : Config PEWorld) : Config PEWorld :=
  resolve reply 0 (resolve reply 0 (collect emoji "u1" c)).

(** The InteractiveEmbed sent, its collector set up and its two reactions
    still to be attached. *)
Definition interactive_sent : Config IEWorld :=
  resolve reply 0 (started interactive_world (InteractiveEmbed_send tt "u1")).

(** The authorized user then reacts with the first emoji, and the removal of
    the reaction resolves. *)
Definition check_mark : Config IEWorld :=
  resolve reply 2 (collect "✅" "u1" interactive_sent).

(** The authorized user presses the right arrow of the paginator. *)
Definition turning : Config PEWorld := collect "➡" "u1" armed.

(** An InteractiveEmbed over the second embed whose kill-patch is [{}]. *)
Definition unpatched : IEWorld :=
  mkIEWorld (mkInteractiveEmbed None 2%positive ["✅"] (Some ∅)) heap.

End Demo.

(** * Properties *)

(** ** The constructor of PaginatedEmbed *)

Section PaginatedEmbedConstructor.
Context `{DiscordJS}.

Lemma endsWith_unfold (s t : string) :
  endsWith s t =
  if String.eqb s t then true
  else match s with
       | EmptyString => false
       | String _ s' => endsWith s' t
       end.
Proof. by destruct s. Qed.

Lemma endsWith_app (p t : string) : endsWith (p +:+ t) t = true.
Proof.
  induction p as [|a p IH]; rewrite endsWith_unfold.
  - simpl. by rewrite String.eqb_refl.
  - change (String a p +:+ t) with (String a (p +:+ t)).
    cbv beta iota. rewrite IH. by destruct (String.eqb _ _).
Qed.

Lemma string_app_assoc (a b c : string) : (a +:+ b) +:+ c = a +:+ b +:+ c.
Proof.
  induction a as [|x a IH]; [done|].
  change (String x ((a +:+ b) +:+ c) = String x (a +:+ b +:+ c)). by f_equal.
Qed.

Lemma endsWith_refl (t : string) : endsWith t t = true.
Proof. apply (endsWith_app ""). Qed.

Lemma endsWith_spec (s t : string) :
  endsWith s t = true ↔ ∃ p, s = p +:+ t.
Proof.
  split.
  - induction s as [|a s IH]; rewrite endsWith_unfold;
      destruct (String.eqb _ t) eqn:E;
      try (apply String.eqb_eq in E as <-; by exists "").
    + done.
    + intros [p ->]%IH. by exists (String a p).
  - intros [p ->]. apply endsWith_app.
Qed.

Lemma paginated_footer_text (i n : nat) (c : Embed) :
  ∃ t, (content_footer (paginated i n c) ≫= text) = Some t
       ∧ endsWith t (page_label i n) = true.
Proof.
  unfold paginated; simpl. destruct (content_footer c) as [fo|]; simpl.
  - eexists; split; [done|]. rewrite <- string_app_assoc. apply endsWith_app.
  - eexists; split; [done|]. apply endsWith_refl.
Qed.

Lemma content_of_Some (h : Heap) (r : ref) (c : Embed) :
  content_of h r = Some c →
  ∃ o, embed_objects h !! r = Some o ∧ content_body c = body o ∧
    match footer o with
    | Some f => ∃ fo, footer_objects h !! f = Some fo ∧ content_footer c = Some fo
    | None => content_footer c = None
    end.
Proof.
  unfold content_of. destruct (embed_objects h !! r) as [o|]; [|done].
  destruct (footer o) as [f|] eqn:Hf.
  - destruct (footer_objects h !! f) as [fo|] eqn:E; [|done].
    intros [= <-]. exists o. rewrite Hf. simpl. eauto 6.
  - intros [= <-]. exists o. rewrite Hf. simpl. eauto.
Qed.

Lemma footer_ref_content (h : Heap) (r : ref) (c : Embed) :
  content_of h r = Some c →
  match footer_ref h r with
  | Some f => is_Some (footer_objects h !! f)
  | None => content_footer c = None
  end.
Proof.
  intros (o & Ho & _ & Hfoot)%content_of_Some. unfold footer_ref. rewrite Ho.
  destruct (footer o); [|done]. destruct Hfoot as (fo & -> & _). eauto.
Qed.

(** Writing a footer object leaves the embeds with another footer as they are. *)
Lemma content_of_set_footer (h : Heap) (f : ref) (fo : MessageEmbedFooter) (r : ref) :
  footer_ref h r ≠ Some f →
  content_of (mkHeap (embed_objects h) (<[f := fo]> (footer_objects h))) r
  = content_of h r.
Proof.
  unfold footer_ref, content_of; simpl. intros Hne.
  destruct (embed_objects h !! r) as [o|]; [|done].
  destruct (footer o) as [f'|]; [|done].
  rewrite lookup_insert_ne; [done|congruence].
Qed.

(** One call of the callback of [map], on an embed of the array. *)
Lemma paginate_step (embeds : list ref) (n i : nat) (r : ref) (h : Heap) :
  well_formed h embeds → footers_unshared h embeds → r ∈ embeds →
  ∃ h' c, paginate n r i h = Normal r h'
    ∧ well_formed h' embeds ∧ footers_unshared h' embeds
    ∧ content_of h r = Some c ∧ content_of h' r = Some (paginated i n c)
    ∧ (∀ r', r' ∈ embeds → r' ≠ r → content_of h' r' = content_of h r').
Proof.
  intros Hwf Hun Hr.
  destruct (Hwf r Hr) as [c Hc].
  destruct (content_of_Some _ _ _ Hc) as (o & Ho & Hbody & Hfoot).
  assert (Hfr : footer_ref h r = footer o) by (unfold footer_ref; by rewrite Ho).
  unfold paginate, mbind, js_bind, get_embed. rewrite Ho.
  destruct (footer o) as [f|] eqn:Hf.
  - destruct Hfoot as (fo & Hfo & Hcf).
    unfold get_footer. rewrite Hfo. cbn.
    set (h' := mkHeap _ _).
    assert (Hother : ∀ r', r' ∈ embeds → r' ≠ r → content_of h' r' = content_of h r').
    { intros r' Hr' Hne. apply content_of_set_footer.
      intros Hr'f. apply Hne. by apply (Hun r' r f). }
    assert (Hself : content_of h' r = Some (paginated i n c)).
    { unfold content_of, h'; simpl. rewrite Ho, Hf, lookup_insert_eq.
      unfold paginated. by rewrite Hcf, Hbody. }
    exists h', c. split_and!; try done.
    intros r' Hr'. destruct (decide (r' = r)) as [->|Hne].
    + by rewrite Hself.
    + rewrite Hother by done. by apply Hwf.
  - unfold setFooter, mbind, js_bind, get_embed. rewrite Ho. cbn.
    set (f := fresh (dom (footer_objects h))).
    set (h' := mkHeap _ _).
    assert (Hfresh : footer_objects h !! f = None).
    { apply not_elem_of_dom, is_fresh. }
    assert (Hold : ∀ r', r' ≠ r → footer_ref h' r' = footer_ref h r').
    { intros r' Hne. unfold footer_ref, h'; simpl. by rewrite lookup_insert_ne. }
    assert (Hnf : ∀ r', r' ∈ embeds → footer_ref h r' ≠ Some f).
    { intros r' Hr' Hr'f. destruct (Hwf r' Hr') as [c' Hc'].
      apply footer_ref_content in Hc'. rewrite Hr'f, Hfresh in Hc'.
      by destruct Hc'. }
    assert (Hother : ∀ r', r' ∈ embeds → r' ≠ r → content_of h' r' = content_of h r').
    { intros r' Hr' Hne.
      rewrite <- (content_of_set_footer h f (mkFooter (Some (page_label i n)) None) r')
        by auto.
      unfold content_of, h'; simpl. by rewrite lookup_insert_ne. }
    assert (Hself : content_of h' r = Some (paginated i n c)).
    { unfold content_of, h'; simpl. rewrite lookup_insert_eq; simpl.
      rewrite lookup_insert_eq. unfold paginated. by rewrite Hfoot, Hbody. }
    exists h', c. split_and!; try done.
    + intros r' Hr'. destruct (decide (r' = r)) as [->|Hne].
      * by rewrite Hself.
      * rewrite Hother by done. by apply Hwf.
    + assert (Hrf : footer_ref h' r = Some f).
      { unfold footer_ref, h'; simpl. by rewrite lookup_insert_eq. }
      intros r1 r2 g Hr1 Hr2.
      destruct (decide (r1 = r)) as [->|Hne1], (decide (r2 = r)) as [->|Hne2];
        try done.
      * rewrite Hrf, Hold by done. intros [= <-] Hg. by destruct (Hnf r2).
      * rewrite Hrf, Hold by done. intros Hg [= <-]. by destruct (Hnf r1).
      * rewrite !Hold by done. by apply Hun.
Qed.

(** The whole [map]: every embed is returned as it was passed, the last call
    on an object decides how its footer ends, and an object passed once gets
    exactly the page label of its position. *)
Lemma array_map_paginate (embeds : list ref) (n : nat) (l : list ref) :
  ∀ (i0 : nat) (h : Heap),
  well_formed h embeds → footers_unshared h embeds → (∀ r, r ∈ l → r ∈ embeds) →
  ∃ h', array_map (paginate n) i0 l h = Normal l h'
    ∧ well_formed h' embeds ∧ footers_unshared h' embeds
    ∧ (∀ r, r ∈ embeds → r ∉ l → content_of h' r = content_of h r)
    ∧ (∀ k r, l !! k = Some r → (∀ j, (k < j)%nat → l !! j ≠ Some r) →
         ∃ c, content_of h' r = Some (paginated (i0 + k) n c))
    ∧ (∀ k r, l !! k = Some r → (∀ j, j ≠ k → l !! j ≠ Some r) →
         ∃ c, content_of h r = Some c
              ∧ content_of h' r = Some (paginated (i0 + k) n c)).
Proof.
  induction l as [|x l IH]; intros i0 h Hwf Hun Hsub.
  - exists h. by split_and!.
  - assert (Hx : x ∈ embeds) by (apply Hsub; left).
    destruct (paginate_step embeds n i0 x h Hwf Hun Hx)
      as (h1 & c1 & Hrun1 & Hwf1 & Hun1 & Hc1 & Hc1' & Hoth1).
    destruct (IH (S i0) h1 Hwf1 Hun1) as (h' & Hrun & Hwf' & Hun' & Hout & Hlast & Honce).
    { intros r Hr. apply Hsub. by right. }
    assert (Hnotin : ∀ k, (∀ j, j ≠ k → (x :: l) !! j ≠ Some x) ∨
                          (∀ j, (k < j)%nat → (x :: l) !! j ≠ Some x) →
                          k = 0%nat → x ∉ l).
    { intros k Hk -> [j Hj]%list_elem_of_lookup.
      destruct Hk as [Hk|Hk]; apply (Hk (S j)); (lia || done). }
    exists h'. split_and!; try done.
    + cbn. unfold mbind, js_bind at 1. rewrite Hrun1.
      unfold js_bind. by rewrite Hrun.
    + intros r Hr [Hne Hnl]%not_elem_of_cons.
      rewrite Hout by done. by apply Hoth1.
    + intros [|k] r Hk Hlater; simpl in Hk.
      * injection Hk as <-. exists c1. rewrite Nat.add_0_r, Hout; try done.
        by apply (Hnotin 0%nat); [right|].
      * replace (i0 + S k)%nat with (S i0 + k)%nat by lia.
        apply Hlast; [done|]. intros j Hj. apply (Hlater (S j)). lia.
    + intros [|k] r Hk Honly; simpl in Hk.
      * injection Hk as <-. exists c1. rewrite Nat.add_0_r, Hout; try done.
        by apply (Hnotin 0%nat); [left|].
      * replace (i0 + S k)%nat with (S i0 + k)%nat by lia.
        assert (Hne : r ≠ x).
        { intros ->. by apply (Honly 0%nat). }
        destruct (Honce k r Hk) as (c & Hc & Hc').
        { intros j Hj. apply (Honly (S j)). lia. }
        exists c. split; [|done]. rewrite <- Hc. symmetry. apply Hoth1; [|done].
        apply Hsub. right. by apply list_elem_of_lookup_2 in Hk.
Qed.

Lemma PaginatedEmbed_new_runs (embeds : list ref) (killed : option Options)
    (h : Heap) :
  (1 ≤ length embeds)%nat → well_formed h embeds → footers_unshared h embeds →
  ∃ h', PaginatedEmbed_new embeds killed h
        = Normal (mkPaginatedEmbed None embeds killed) h'
    ∧ (∀ i r, embeds !! i = Some r → (∀ j, (i < j)%nat → embeds !! j ≠ Some r) →
         ∃ c, content_of h' r = Some (paginated i (length embeds) c))
    ∧ (∀ i r, embeds !! i = Some r → (∀ j, j ≠ i → embeds !! j ≠ Some r) →
         ∃ c, content_of h r = Some c
              ∧ content_of h' r = Some (paginated i (length embeds) c)).
Proof.
  intros Hn Hwf Hun.
  destruct (array_map_paginate embeds (length embeds) embeds 0 h Hwf Hun)
    as (h' & Hrun & _ & _ & _ & Hlast & Honce); [done|].
  exists h'. unfold PaginatedEmbed_new.
  destruct (decide (length embeds = 0%nat)); [lia|].
  unfold mbind, js_bind. rewrite Hrun. by split_and!.
Qed.

(** One call of the callback of [map] on an embed object, whatever the other
    embeds are and whatever they share: the embed gets its label, it has a
    footer object from then on (the one it had, or a new one), and the embeds
    that do not have this footer object are as they were. *)
Lemma paginate_any (n i : nat) (r : ref) (h : Heap) (c : Embed) :
  content_of h r = Some c →
  ∃ h' f1, paginate n r i h = Normal r h'
    ∧ content_of h' r = Some (paginated i n c)
    ∧ footer_ref h' r = Some f1
    ∧ (footer_ref h r = Some f1 ∨ footer_objects h !! f1 = None)
    ∧ (∀ r', r' ≠ r → footer_ref h' r' = footer_ref h r')
    ∧ (∀ r', is_Some (content_of h r') → is_Some (content_of h' r'))
    ∧ (∀ r', r' ≠ r → footer_ref h r' ≠ Some f1 → content_of h' r' = content_of h r').
Proof.
  intros Hc.
  destruct (content_of_Some _ _ _ Hc) as (o & Ho & Hbody & Hfoot).
  assert (Hfr : footer_ref h r = footer o) by (unfold footer_ref; by rewrite Ho).
  unfold paginate, mbind, js_bind, get_embed. rewrite Ho.
  destruct (footer o) as [f|] eqn:Hf.
  - destruct Hfoot as (fo & Hfo & Hcf).
    unfold get_footer. rewrite Hfo. cbn.
    set (h' := mkHeap _ _).
    assert (Hself : content_of h' r = Some (paginated i n c)).
    { unfold content_of, h'; simpl. rewrite Ho, Hf, lookup_insert_eq.
      unfold paginated. by rewrite Hcf, Hbody. }
    exists h', f. split_and!.
    + done.
    + done.
    + unfold footer_ref, h'; simpl. by rewrite Ho.
    + by left.
    + done.
    + intros r' [c' Hc']. unfold content_of, h'; simpl.
      destruct (content_of_Some _ _ _ Hc') as (o' & -> & _ & Hfoot').
      destruct (footer o') as [f'|]; [|done].
      destruct Hfoot' as (fo' & Hfo' & _).
      destruct (decide (f' = f)) as [->|Hne].
      * by rewrite lookup_insert_eq.
      * by rewrite lookup_insert_ne, Hfo'.
    + intros r' _ Hne. by apply content_of_set_footer.
  - unfold setFooter, mbind, js_bind, get_embed. rewrite Ho. cbn.
    set (f := fresh (dom (footer_objects h))).
    set (h' := mkHeap _ _).
    assert (Hfresh : footer_objects h !! f = None).
    { apply not_elem_of_dom, is_fresh. }
    assert (Hother : ∀ r', r' ≠ r → footer_ref h r' ≠ Some f →
              content_of h' r' = content_of h r').
    { intros r' Hne Hnf.
      rewrite <- (content_of_set_footer h f (mkFooter (Some (page_label i n)) None) r')
        by done.
      unfold content_of, h'; simpl. by rewrite lookup_insert_ne. }
    assert (Hself : content_of h' r = Some (paginated i n c)).
    { unfold content_of, h'; simpl. rewrite lookup_insert_eq; simpl.
      rewrite lookup_insert_eq. unfold paginated. by rewrite Hfoot, Hbody. }
    exists h', f. split_and!.
    + done.
    + done.
    + unfold footer_ref, h'; simpl. by rewrite lookup_insert_eq.
    + by right.
    + intros r' Hne. unfold footer_ref, h'; simpl. by rewrite lookup_insert_ne.
    + intros r' [c' Hc']. destruct (decide (r' = r)) as [->|Hne].
      * by rewrite Hself.
      * rewrite Hother; [by rewrite Hc'|done|].
        intros Hr'. apply footer_ref_content in Hc'. rewrite Hr', Hfresh in Hc'.
        by destruct Hc'.
    + done.
Qed.

(** The whole [map], on embed objects: it returns the array as it was
    passed; an embed whose footer object no embed of the array has is as it
    was; and the embed at an index has the label of that index provided no
    embed further in the array is the same object or has the same footer
    object. *)
Lemma array_map_paginate_any (n : nat) (l : list ref) :
  ∀ (i0 : nat) (h : Heap),
  (∀ r, r ∈ l → is_Some (content_of h r)) →
  ∃ h', array_map (paginate n) i0 l h = Normal l h'
    ∧ (∀ r, is_Some (content_of h r) → is_Some (content_of h' r))
    ∧ (∀ r f, is_Some (content_of h r) → footer_ref h r = Some f →
         (∀ r', r' ∈ l → r' ≠ r ∧ footer_ref h r' ≠ Some f) →
         content_of h' r = content_of h r)
    ∧ (∀ k r, l !! k = Some r →
         (∀ j r', (k < j)%nat → l !! j = Some r' →
            r' ≠ r ∧ ∀ f, footer_ref h r = Some f → footer_ref h r' ≠ Some f) →
         ∃ c, content_of h' r = Some (paginated (i0 + k) n c)).
Proof.
  induction l as [|x l IH]; intros i0 h Hwf.
  - exists h. by split_and!.
  - destruct (Hwf x) as [cx Hcx]; [left|].
    destruct (paginate_any n i0 x h cx Hcx)
      as (h1 & f1 & Hrun1 & Hself & Hf1 & Hwhich & Hrefs & Hkeep & Hframe).
    destruct (IH (S i0) h1) as (h' & Hrun & Hkeep' & Hframe' & Hlabels).
    { intros r Hr. apply Hkeep, Hwf. by right. }
    (* a footer object that an embed object had before is not the new one *)
    assert (Hold : ∀ r, is_Some (content_of h r) → footer_ref h r = Some f1 →
              footer_ref h x = Some f1).
    { intros r [c Hc] Hr. destruct Hwhich as [?|Hnew]; [done|].
      apply footer_ref_content in Hc. rewrite Hr, Hnew in Hc. by destruct Hc. }
    exists h'. split_and!.
    + cbn. unfold mbind, js_bind at 1. rewrite Hrun1.
      unfold js_bind. by rewrite Hrun.
    + intros r Hr. by apply Hkeep', Hkeep.
    + intros r f Hr Hf Hall.
      destruct (Hall x) as [Hne Hxf]; [left|].
      assert (Hff : f ≠ f1).
      { intros ->. apply Hxf. by apply (Hold r). }
      rewrite (Hframe' r f).
      * apply Hframe; [done|]. rewrite Hf. congruence.
      * by apply Hkeep.
      * by rewrite Hrefs.
      * intros r' Hr'. destruct (Hall r') as [Hne' Hr'f]; [by right|].
        split; [done|]. destruct (decide (r' = x)) as [->|Hne''].
        -- rewrite Hf1. congruence.
        -- by rewrite Hrefs.
    + intros [|k] r Hk Hlater; simpl in Hk.
      * injection Hk as <-. exists cx. rewrite Nat.add_0_r, <- Hself.
        apply (Hframe' x f1); [by rewrite Hself|done|].
        intros r' [j Hj]%list_elem_of_lookup.
        destruct (Hlater (S j) r') as [Hne Hshare]; [lia|done|].
        split; [done|]. rewrite Hrefs by done. intros Hr'.
        apply (Hshare f1); [|done]. apply (Hold r'); [|done].
        apply Hwf. right. by eapply list_elem_of_lookup_2.
      * replace (i0 + S k)%nat with (S i0 + k)%nat by lia.
        assert (Hr : is_Some (content_of h r)).
        { apply Hwf. right. by eapply list_elem_of_lookup_2. }
        apply Hlabels; [done|]. intros j r' Hj Hr'.
        destruct (Hlater (S j) r') as [Hne Hshare]; [lia|done|].
        split; [done|]. intros f Hrf Hr'f.
        assert (Hr'wf : is_Some (content_of h r')).
        { apply Hwf. right. by eapply list_elem_of_lookup_2. }
        destruct (decide (r = x)) as [->|Hrx], (decide (r' = x)) as [->|Hr'x];
          try done.
        -- rewrite Hf1 in Hrf. injection Hrf as <-. rewrite Hrefs in Hr'f by done.
           apply (Hshare f1); [|done]. by apply (Hold r').
        -- rewrite Hf1 in Hr'f. injection Hr'f as <-. rewrite Hrefs in Hrf by done.
           apply (Hshare f1); [done|]. by apply (Hold r).
        -- rewrite Hrefs in Hrf, Hr'f by done. by apply (Hshare f).
Qed.

(** C4, as the code has it: without embeds the constructor throws its error;
    with at least one, each of them an embed object, it always returns, the
    instance being over the same embeds; and the footer text of the embed at
    index [i] ends with ["Page i+1/n"] provided no embed further in the array
    is the same object or has the same footer object: an object that comes
    again is labelled again. *)
Theorem PaginatedEmbed_new_pages (embeds : list ref) (killed : option Options)
    (h : Heap) :
  (length embeds = 0%nat →
   PaginatedEmbed_new embeds killed h
   = Throw (Error "At least 1 MessageEmbed must be provided in a PaginatedEmbed."))
  ∧ ((1 ≤ length embeds)%nat → well_formed h embeds →
     ∃ h', PaginatedEmbed_new embeds killed h
           = Normal (mkPaginatedEmbed None embeds killed) h'
       ∧ ∀ i r, embeds !! i = Some r →
           (∀ j r', (i < j)%nat → embeds !! j = Some r' →
              r' ≠ r ∧ ∀ f, footer_ref h r = Some f → footer_ref h r' ≠ Some f) →
           ∃ t, footer_text h' r = Some t
                ∧ endsWith t (page_label i (length embeds)) = true).
Proof.
  split.
  - intros Hn. unfold PaginatedEmbed_new. by rewrite decide_True.
  - intros Hn Hwf.
    destruct (array_map_paginate_any (length embeds) embeds 0 h Hwf)
      as (h' & Hrun & _ & _ & Hlabels).
    exists h'. split.
    + unfold PaginatedEmbed_new.
      destruct (decide (length embeds = 0%nat)); [lia|].
      unfold mbind, js_bind. by rewrite Hrun.
    + intros i r Hi Hlater.
      destruct (Hlabels i r Hi Hlater) as [c Hc]. simpl in Hc.
      destruct (paginated_footer_text i (length embeds) c) as (t & Ht & Hends).
      exists t. split; [|done]. unfold footer_text. rewrite Hc.
      by destruct (content_footer (paginated i (length embeds) c)).
Qed.


End PaginatedEmbedConstructor.

(** ** The invariant rule is sound *)

Section Invariants.
Context `{DiscordJS} {S : Type}.
Variable I : S → list Entry → Prop.

Lemma task_safe_mono l l' t : l `prefix_of` l' → task_safe I l t → task_safe I l' t.
Proof. intros Hl Ht r w' l'' Hl'. apply Ht. by etrans. Qed.
Lemma collect_safe_mono l l' h :
  l `prefix_of` l' → collect_safe I l h → collect_safe I l' h.
Proof. intros Hl Hh r u w' l'' Hl'. apply Hh. by etrans. Qed.
Lemma end_safe_mono l l' h : l `prefix_of` l' → end_safe I l h → end_safe I l' h.
Proof. intros Hl Hh w' l'' Hl'. apply Hh. by etrans. Qed.

Lemma advance_safe {A : Type} (p : Async S A) :
  ∀ w l Q, safe I p w l Q →
    Q (run_world (advance p w)) (l ++ run_log (advance p w))
    ∧ Forall (task_safe I (l ++ run_log (advance p w))) (run_pending (advance p w))
    ∧ Forall (collect_safe I (l ++ run_log (advance p w))) (run_collect (advance p w))
    ∧ Forall (end_safe I (l ++ run_log (advance p w))) (run_end (advance p w)).
Proof.
  induction p as [A a|A e|A k IH|A w' k IH|A R q k IH|A R q k IH|A p IHp k IHk
                 |A n r u k IH|A h IHh k IH|A h IHh k IH];
    intros w l Q Hs; simpl in Hs.
  - simpl. rewrite app_nil_r. by split_and!.
  - simpl. rewrite app_nil_r. by split_and!.
  - by apply IH.
  - by apply IH.
  - destruct Hs as [HQ Hk]. simpl. split_and!; try done.
    unfold run_pending; simpl. by apply Forall_singleton.
  - apply IH in Hs. rewrite <- (assoc_L (++)) in Hs. exact Hs.
  - apply IHp in Hs as (Hk & Ht1 & Hc1 & He1).
    apply IHk in Hk as (HQ & Ht2 & Hc2 & He2).
    rewrite <- (assoc_L (++)) in HQ, Ht2, Hc2, He2.
    assert (Hpre : (l ++ run_log (advance p w)) `prefix_of`
              (l ++ run_log (advance p w) ++
                 run_log (advance k (run_world (advance p w))))).
    { rewrite (assoc_L (++)). by apply prefix_app_r. }
    unfold run_pending in *; simpl. split_and!; try done.
    + rewrite <- (assoc_L (++)). apply Forall_app; split; [|done].
      eapply Forall_impl; [exact Ht1|]. intros t. by apply task_safe_mono.
    + apply Forall_app; split; [|done].
      eapply Forall_impl; [exact Hc1|]. intros t. by apply collect_safe_mono.
    + apply Forall_app; split; [|done].
      eapply Forall_impl; [exact He1|]. intros t. by apply end_safe_mono.
  - apply IH in Hs. rewrite <- (assoc_L (++)) in Hs. exact Hs.
  - destruct Hs as [Hh Hk]. apply IH in Hk as (HQ & Ht & Hc & He).
    unfold run_pending in *; simpl. split_and!; try done.
    apply Forall_cons; split; [|done].
    eapply collect_safe_mono; [|exact Hh]. by apply prefix_app_r.
  - destruct Hs as [Hh Hk]. apply IH in Hk as (HQ & Ht & Hc & He).
    unfold run_pending in *; simpl. split_and!; try done.
    apply Forall_cons; split; [|done].
    eapply end_safe_mono; [|exact Hh]. by apply prefix_app_r.
Qed.

(** Running [p] where nothing is suspended and no listener is registered. *)
Lemma run_in_fresh_safe {A : Type} (c : Config S) (p : Async S A) :
  tasks c = [] → collect_listeners c = [] → end_listeners c = [] →
  safe I p (world c) (log c) I → config_safe I (run_in c p).
Proof.
  intros Ht Hc He (HI & Hts & Hcl & Hel)%advance_safe.
  unfold run_in, config_safe; simpl. rewrite Ht, Hc, He. by split_and!.
Qed.

(** Nothing is suspended and there is no collector: nothing can happen. *)
Lemma step_stuck (collector_of : S → option ReactionCollector) (c c' : Config S) :
  tasks c = [] → collector_of (world c) = None →
  rtc (step collector_of) c c' → c' = c.
Proof.
  intros Ht Hc Hsteps. destruct Hsteps as [|c c1 c' Hstep _]; [done|].
  destruct Hstep as [c i t r Hi|c i t Hi|c coll r u _ Hcoll _|c coll _ Hcoll];
    rewrite ?Ht in *; try done; by rewrite Hc in Hcoll.
Qed.

Hypothesis I_settles : ∀ w l e, settles e → I w l → I w (l ++ [e]).

Lemma config_safe_log (c : Config S) (ts : list (Task S)) (b : bool)
    (w : S) (l : list Entry) :
  config_safe I c → Forall (task_safe I (log c)) ts → I w (log c ++ l) →
  config_safe I (mkConfig w ts (collect_listeners c) (end_listeners c) b
                   (log c ++ l)).
Proof.
  intros (_ & Ht & Hc & He) Hts HI.
  assert (Hpre : log c `prefix_of` (log c ++ l)) by by apply prefix_app_r.
  split_and!; simpl.
  - done.
  - eapply Forall_impl; [done|]. intros t. by apply task_safe_mono.
  - eapply Forall_impl; [done|]. intros t. by apply collect_safe_mono.
  - eapply Forall_impl; [done|]. intros t. by apply end_safe_mono.
Qed.

Lemma settled_safe (c : Config S) (i : nat) (e : Entry) :
  settles e → config_safe I c → config_safe I (settled c i e).
Proof using I_settles.
  intros He Hc. apply config_safe_log; [done| |].
  - apply Forall_delete, Hc.
  - apply I_settles; [done|]. apply Hc.
Qed.

Lemma run_in_safe {A : Type} (c : Config S) (p : Async S A) :
  config_safe I c → safe I p (world c) (log c) I → config_safe I (run_in c p).
Proof.
  intros Hc (HI & Ht & Hcl & He)%advance_safe.
  pose proof (config_safe_log c (tasks c) (ended c) _ _ Hc (proj1 (proj2 Hc)) HI)
    as (_ & Ht' & Hcl' & He'); simpl in *.
  unfold run_in. split_and!; simpl; try done; by apply Forall_app.
Qed.

Lemma run_in_log {A : Type} (c : Config S) (p : Async S A) :
  log c `prefix_of` log (run_in c p).
Proof. by apply prefix_app_r. Qed.

Lemma deliver_safe (hs : list (Async S unit)) :
  ∀ c, config_safe I c → Forall (end_safe I (log c)) hs → config_safe I (deliver c hs).
Proof.
  induction hs as [|h hs IH]; intros c Hc Hhs; [done|].
  apply Forall_cons in Hhs as [Hh Hhs]. simpl. apply IH.
  - apply run_in_safe; [done|]. apply Hh; [done|]. apply Hc.
  - eapply Forall_impl; [done|]. intros t. apply end_safe_mono, run_in_log.
Qed.

Lemma step_safe (collector_of : S → option ReactionCollector) (c c' : Config S) :
  config_safe I c → step collector_of c c' → config_safe I c'.
Proof using I_settles.
  intros Hc Hstep. destruct Hstep as [c i t r Hi|c i t Hi|c coll r u _ _ _|c coll _ _].
  - assert (Hc1 : config_safe I (settled c i (Resolved (task_request t) r)))
      by by apply settled_safe.
    apply run_in_safe; [done|].
    destruct Hc as (_ & Ht & _). rewrite Forall_lookup in Ht.
    apply (Ht i t Hi); simpl.
    + by apply prefix_app_r.
    + apply elem_of_app. right. by apply list_elem_of_singleton.
    + apply Hc1.
  - by apply settled_safe.
  - apply deliver_safe; [done|]. destruct Hc as (_ & _ & Hcl & _).
    apply Forall_fmap. eapply Forall_impl; [done|].
    intros h Hh w' l'. apply Hh.
  - apply (deliver_safe _ (close c)).
    + destruct Hc as (? & ? & ? & ?). by split_and!.
    + apply Hc.
Qed.

(** The rule: a call that is safe for [I] keeps [I] in every configuration it
    can lead to. *)
Lemma reachable_safe {A : Type} (collector_of : S → option ReactionCollector)
    (w : S) (p : Async S A) (c : Config S) :
  safe I p w [] I → I w [] → reachable collector_of w p c → config_safe I c.
Proof using I_settles.
  intros Hp HI. revert c. apply rtc_ind_r.
  - apply (run_in_safe (mkConfig w [] [] [] false [])); [|done].
    by split_and!.
  - intros c c' _ Hstep Hc. by eapply step_safe.
Qed.

(** The same, from any configuration that is safe. *)
Lemma steps_safe (collector_of : S → option ReactionCollector) (c c' : Config S) :
  config_safe I c → rtc (step collector_of) c c' → config_safe I c'.
Proof using I_settles.
  intros Hc Hsteps. induction Hsteps as [|c c1 c' Hstep _ IH]; [done|].
  apply IH. by eapply step_safe.
Qed.

(** A property that holds of every longer history is kept when a request
    settles. *)
Lemma settles_of_mono :
  (∀ w l l', l `prefix_of` l' → I w l → I w l') →
  ∀ w l e, settles e → I w l → I w (l ++ [e]).
Proof. intros Hmono w l e _. apply Hmono. by apply prefix_app_r. Qed.

End Invariants.

(** ** PaginatedEmbed.send and its listeners *)

Section PaginatedEmbedSend.
Context `{DiscordJS}.

Lemma paginate_returns (n i : nat) (r r' : ref) (h h' : Heap) :
  paginate n r i h = Normal r' h' → r' = r.
Proof.
  unfold paginate, setFooter, mbind, js_bind, get_embed, get_footer.
  destruct (embed_objects h !! r) as [o|] eqn:Ho; [|done].
  destruct (footer o) as [f|].
  - destruct (footer_objects h !! f); [|done]. cbn. unfold mret, js_ret.
    by intros [= -> _].
  - cbn. rewrite Ho. unfold mret, js_ret. by intros [= -> _].
Qed.

Lemma array_map_paginate_returns (n : nat) (l : list ref) :
  ∀ i l' h h', array_map (paginate n) i l h = Normal l' h' → l' = l.
Proof.
  induction l as [|r l IH]; intros i l' h h'; cbn.
  - unfold mret, js_ret. by intros [= <- _].
  - unfold mbind, js_bind.
    destruct (paginate n r i h) as [r' h1|] eqn:E1; [|done].
    destruct (array_map (paginate n) (S i) l h1) as [l1 h2|] eqn:E2; [|done].
    unfold mret, js_ret. intros [= <- _]. apply paginate_returns in E1 as ->.
    by apply IH in E2 as ->.
Qed.

(** What the constructor returns, when it returns. *)
Lemma PaginatedEmbed_new_returns (embeds : list ref) (killed : option Options)
    (h h' : Heap) (p : PaginatedEmbed) :
  PaginatedEmbed_new embeds killed h = Normal p h' →
  p = mkPaginatedEmbed None embeds killed ∧ (1 ≤ length embeds)%nat.
Proof.
  unfold PaginatedEmbed_new. destruct (decide (length embeds = 0%nat)); [done|].
  unfold mbind, js_bind.
  destruct (array_map _ _ _ _) as [l' h1|] eqn:E; [|done].
  apply array_map_paginate_returns in E as ->. unfold mret, js_ret.
  intros [= <- _].
  split; [done|lia].
Qed.

Lemma index_in_range_mono (embeds : list ref) (w : PEWorld) (l l' : list Entry) :
  l `prefix_of` l' → index_in_range embeds w l → index_in_range embeds w l'.
Proof.
  intros [k ->] [He Hi]. split; [done|]. intros Hc.
  destruct (Hi Hc) as [Hr H0]. split; [done|]. intros Hno. apply H0.
  intros r u v Hin. apply (Hno r u v), elem_of_app. by left.
Qed.

Lemma PaginatedEmbed_collect_index_safe (embeds : list ref) (message : Message)
    (user u : User) (reaction : MessageReaction) (w : PEWorld) (l : list Entry) :
  (1 ≤ length embeds)%nat → index_in_range embeds w l →
  safe (index_in_range embeds)
       (PaginatedEmbed_collect message user (Z.of_nat (length embeds) - 1) reaction u)
       w l (index_in_range embeds).
Proof.
  intros Hn HI. cbn. split.
  { eapply index_in_range_mono; [|done]. by apply prefix_app_r. }
  intros v w' l' Hpre Hres [He Hi].
  assert (Hstep : ∀ i, (is_Some (pe_collector (pe_this w')) →
                        0 ≤ pe_index w' ≤ Z.of_nat (length embeds) - 1 →
                        0 ≤ i ≤ Z.of_nat (length embeds) - 1) →
            safe (index_in_range embeds)
              (Get (λ w0 : PEWorld,
                 Await (MessageEdit message (pe_page w0 (pe_index w0)))
                   (λ _ : Message, mret ())))
              (pe_set_index i w') l' (index_in_range embeds)).
  { intros i Hrange. cbn. split; [|by intros].
    split; [done|]. cbn. intros Hc. destruct (Hi Hc) as [Hr _].
    split; [by apply Hrange|]. intros Hno. destruct (Hno reaction user v).
    apply elem_of_app. by left. }
  destruct (bool_decide (emoji_name reaction = "⬅")); [|
    destruct (bool_decide (emoji_name reaction = "➡"))]; cbn.
  - apply Hstep. intros _ Hr. case_bool_decide; lia.
  - apply Hstep. intros _ Hr. case_bool_decide; lia.
  - destruct w' as [this i h']. apply (Hstep i). by intros _ Hr.
Qed.

Lemma PaginatedEmbed_end_index_safe (embeds : list ref) (message : Message)
    (w : PEWorld) (l : list Entry) :
  index_in_range embeds w l →
  safe (index_in_range embeds) (PaginatedEmbed_end message) w l
       (index_in_range embeds).
Proof.
  intros HI. cbn.
  assert (HI' : index_in_range embeds w (l ++ [Requested (ReactionsRemoveAll message)])).
  { eapply index_in_range_mono; [|done]. by apply prefix_app_r. }
  destruct (pe_killed (pe_this w)); [|done].
  destruct (pe_page w (pe_index w)); [|done].
  destruct (MessageEmbed_new _ _) as [r h'|]; [|done]. cbn.
  eapply index_in_range_mono; [by apply prefix_app_r|].
  destruct HI' as [He Hi]. by split.
Qed.

Lemma PaginatedEmbed_send_index_safe (channel : Channel) (user : User)
    (w : PEWorld) :
  (1 ≤ length (pe_embeds (pe_this w)))%nat →
  pe_collector (pe_this w) = None →
  safe (index_in_range (pe_embeds (pe_this w)))
       (PaginatedEmbed_send channel user) w []
       (index_in_range (pe_embeds (pe_this w))).
Proof.
  intros Hn Hnone. set (E := pe_embeds (pe_this w)).
  assert (Hmono : ∀ w l e, index_in_range E w l → index_in_range E w (l ++ [e])).
  { intros w' l e. apply index_in_range_mono. by apply prefix_app_r. }
  cbn. split.
  { split; [done|]. rewrite Hnone. by intros [? ?]. }
  intros m w1 l1 _ _ H1. split; [by apply Hmono|].
  intros v2 w2 l2 _ _ H2. split; [by apply Hmono|].
  intros v3 w3 l3 _ _ [He H3]. split_and!.
  - intros r u w' l' _ HI. cbn in He. rewrite He.
    by apply PaginatedEmbed_collect_index_safe.
  - intros w' l' _ HI. by apply PaginatedEmbed_end_index_safe.
  - split; [done|]. cbn. intros _. split; [unfold E; lia|done].
Qed.

(** C9: once [send] has set the collector up, the index of the current page is
    within the pages, whatever reactions are collected and however the
    requests settle; and it is 0 as long as no listener of ['collect'] has
    got past the removal it awaits. *)
Theorem PaginatedEmbed_index_in_range (embeds : list ref) (killed : option Options)
    (h h' : Heap) (p : PaginatedEmbed) (i0 : Z) (channel : Channel) (user : User)
    (c : Config PEWorld) :
  PaginatedEmbed_new embeds killed h = Normal p h' →
  reachable pe_collector_of (mkPEWorld p i0 h') (PaginatedEmbed_send channel user) c →
  is_Some (pe_collector (pe_this (world c))) →
  0 ≤ pe_index (world c) ≤ Z.of_nat (length embeds) - 1
  ∧ ((∀ r u v, Resolved (UsersRemove r u) v ∉ log c) → pe_index (world c) = 0).
Proof.
  intros [-> Hn]%PaginatedEmbed_new_returns Hreach Hc.
  set (w := mkPEWorld (mkPaginatedEmbed None embeds killed) i0 h') in *.
  pose proof (PaginatedEmbed_send_index_safe channel user w Hn eq_refl) as Hsafe.
  apply (reachable_safe (index_in_range embeds)
           (settles_of_mono _ (index_in_range_mono embeds)) _ _ _ _ Hsafe)
    in Hreach as [[_ HI] _].
  - by apply HI.
  - split; [done|]. by intros [? ?].
Qed.

(** C1: the listener of ['collect'] of a paginator over [n] embeds first
    removes the reaction of the user and awaits that; then a left arrow at
    index [i] sets the index to [n - 1] when [i = 0] and to [i - 1] otherwise,
    a right arrow sets it to 0 when [i = n - 1] and to [i + 1] otherwise, and
    the message is edited to show the embed at the new index. *)
Theorem PaginatedEmbed_collect_arrow (message : Message) (user u : User)
    (reaction : MessageReaction) (n : nat) (w w' : PEWorld)
    (reply : ∀ R, Request R → R) :
  let run := advance (PaginatedEmbed_collect message user (Z.of_nat n - 1) reaction u) w in
  let run' := resume run reply w' in
  run_log run = [Requested (UsersRemove reaction user)]
  ∧ awaits run (UsersRemove reaction user)
  ∧ (length (pe_embeds (pe_this w')) = n →
     0 ≤ pe_index w' ≤ Z.of_nat n - 1 →
     emoji_name reaction = "⬅" ∨ emoji_name reaction = "➡" →
     let i' := turn_page n (emoji_name reaction) (pe_index w') in
     run_world run' = pe_set_index i' w'
     ∧ run_log run' = [Requested (MessageEdit message (pe_page w' i'))]
     ∧ awaits run' (MessageEdit message (pe_page w' i'))).
Proof.
  cbn. split; [done|]. split; [by unfold awaits; eexists|].
  intros Hn Hi Harrow. unfold resume, turn_page, awaits; cbn.
  destruct Harrow as [Ha|Ha]; rewrite Ha.
  - rewrite (bool_decide_true ("⬅" = "⬅")), (decide_True (P := "⬅" = "⬅")) by done.
    destruct (decide (pe_index w' = 0)) as [Hz|Hz];
      [rewrite bool_decide_true by lia|rewrite bool_decide_false by lia];
      (split_and!; [done|done|by eexists]).
  - rewrite (bool_decide_false ("➡" = "⬅")), (bool_decide_true ("➡" = "➡")),
      (decide_False (P := "➡" = "⬅")) by done.
    destruct (decide (pe_index w' = Z.of_nat n - 1)) as [Hz|Hz];
      [rewrite bool_decide_true by lia|rewrite bool_decide_false by lia];
      (split_and!; [done|done|by eexists]).
Qed.

(** C7, as the code has it: for an emoji that is neither arrow the listener
    removes the reaction of the user and leaves the index as it is, and it
    still edits the message, to the embed at that index; it does nothing
    else. *)
Theorem PaginatedEmbed_collect_other (message : Message) (user u : User)
    (reaction : MessageReaction) (max : Z) (w w' w'' : PEWorld)
    (reply : ∀ R, Request R → R) :
  emoji_name reaction ≠ "⬅" → emoji_name reaction ≠ "➡" →
  let run := advance (PaginatedEmbed_collect message user max reaction u) w in
  let run' := resume run reply w' in
  let run'' := resume run' reply w'' in
  (run_log run = [Requested (UsersRemove reaction user)]
   ∧ run_world run = w
   ∧ awaits run (UsersRemove reaction user))
  ∧ (run_world run' = w'
     ∧ run_log run' = [Requested (MessageEdit message (pe_page w' (pe_index w')))]
     ∧ awaits run' (MessageEdit message (pe_page w' (pe_index w'))))
  ∧ (run_world run'' = w'' ∧ run_log run'' = [] ∧ run_status run'' = Returned tt).
Proof.
  intros Hl Hr. unfold resume, awaits. cbn.
  rewrite !bool_decide_false by done. cbn.
  split_and!; try done; by eexists.
Qed.

(** [send], from one [await] to the next: it posts the first embed, attaches
    the two arrows one after the other, awaiting each, and only then sets the
    index, creates the collector and registers the two listeners. *)
Lemma PaginatedEmbed_send_runs (channel : Channel) (user : User)
    (w w1 w2 w3 : PEWorld) (reply : ∀ R, Request R → R) :
  let run0 := advance (PaginatedEmbed_send channel user) w in
  let message := reply _ (ChannelSend channel (pe_page w 0)) in
  let run1 := resume run0 reply w1 in
  let run2 := resume run1 reply w2 in
  let run3 := resume run2 reply w3 in
  (run_log run0 = [Requested (ChannelSend channel (pe_page w 0))]
   ∧ run_world run0 = w
   ∧ awaits run0 (ChannelSend channel (pe_page w 0)))
  ∧ (run_log run1 = [Requested (MessageReact message "⬅")]
     ∧ run_world run1 = w1
     ∧ awaits run1 (MessageReact message "⬅"))
  ∧ (run_log run2 = [Requested (MessageReact message "➡")]
     ∧ run_world run2 = w2
     ∧ awaits run2 (MessageReact message "➡"))
  ∧ (run_log run3 = []
     ∧ run_world run3 =
         pe_set_collector
           (mkCollector message (λ _ u, bool_decide (user_id u = user_id user))
                        60000 180000)
           (pe_set_index 0 w3)
     ∧ run_collect run3 =
         [PaginatedEmbed_collect message user
            (Z.of_nat (length (pe_embeds (pe_this w3))) - 1)]
     ∧ run_end run3 = [PaginatedEmbed_end message]
     ∧ run_status run3 = Returned (pe_this (run_world run3))).
Proof. unfold resume, awaits. cbn. split_and!; try done; by eexists. Qed.

End PaginatedEmbedSend.

(** ** InteractiveEmbed.send and its listeners *)

Section InteractiveEmbedSend.
Context `{DiscordJS}.

(** C2: the listener of ['collect'] of an InteractiveEmbed first removes the
    reaction of the reacting user and awaits that; then, if the emoji is one
    of the emojis of the instance, it emits exactly one event, named after the
    emoji, with the reaction and the user, and otherwise it emits nothing. *)
Theorem InteractiveEmbed_collect_emits (reaction : MessageReaction) (user : User)
    (w w' : IEWorld) (reply : ∀ R, Request R → R) :
  let run := advance (InteractiveEmbed_collect reaction user) w in
  let run' := resume run reply w' in
  (run_log run = [Requested (UsersRemove reaction user)]
   ∧ run_world run = w
   ∧ awaits run (UsersRemove reaction user))
  ∧ run_log run' =
      (if decide (emoji_name reaction ∈ ie_emojis (ie_this w'))
       then [Emitted (emoji_name reaction) reaction user]
       else [])
  ∧ run_world run' = w'
  ∧ run_status run' = Returned tt.
Proof.
  unfold resume, awaits. cbn. split; [split_and!; try done; by eexists|].
  case_bool_decide; case_decide; done.
Qed.

Lemma advance_forEach_react {A : Type} (message : Message) (emojis : list string)
    (k : Async IEWorld A) (w : IEWorld) :
  advance (forEach emojis (λ emoji, spawn (InteractiveEmbed_react message emoji));; k) w
  = mkRun (((λ emoji, Requested (MessageReact message emoji)) <$> emojis)
             ++ run_log (advance k w))
          (run_world (advance k w))
          ((react_task message <$> emojis) ++ run_tasks (advance k w))
          (run_collect (advance k w)) (run_end (advance k w))
          (run_status (advance k w)).
Proof.
  induction emojis as [|e emojis IH]; cbn.
  - by destruct (advance k w).
  - match goal with
    | |- context [advance ?p w] =>
        change (advance p w) with
          (advance (forEach emojis
                      (λ emoji, spawn (InteractiveEmbed_react message emoji));; k) w)
    end.
    by rewrite IH.
Qed.

(** [send], from one [await] to the next: it posts the embed; then, in one
    run, it calls [react] for each emoji without awaiting any of the calls,
    creates the collector, registers the two listeners and returns. *)
Lemma InteractiveEmbed_send_runs (channel : Channel) (user : User)
    (w w1 : IEWorld) (reply : ∀ R, Request R → R) :
  let content := content_of (ie_heap w) (ie_embed (ie_this w)) in
  let run0 := advance (InteractiveEmbed_send channel user) w in
  let message := reply _ (ChannelSend channel content) in
  let run1 := resume run0 reply w1 in
  (run_log run0 = [Requested (ChannelSend channel content)]
   ∧ run_world run0 = w
   ∧ awaits run0 (ChannelSend channel content))
  ∧ (run_log run1 =
       (λ emoji, Requested (MessageReact message emoji)) <$> ie_emojis (ie_this w1))
  ∧ run_tasks run1 = react_task message <$> ie_emojis (ie_this w1)
  ∧ run_world run1 =
      ie_set_collector
        (mkCollector message (λ _ u, bool_decide (user_id u = user_id user))
                     60000 180000) w1
  ∧ run_collect run1 = [InteractiveEmbed_collect]
  ∧ run_end run1 = [InteractiveEmbed_end message]
  ∧ run_status run1 = Returned (ie_this (run_world run1)).
Proof.
  unfold resume, awaits. cbn. split; [split_and!; try done; by eexists|].
  match goal with
  | |- context [advance (mbind ?k (forEach ?l ?f)) ?w'] =>
      change (advance (mbind k (forEach l f)) w') with
        (advance (forEach l (λ emoji, spawn (InteractiveEmbed_react
                    (reply _ (ChannelSend channel
                       (content_of (ie_heap w) (ie_embed (ie_this w))))) emoji));;
                  k tt) w');
      rewrite advance_forEach_react
  end.
  cbn. rewrite !app_nil_r. by split_and!.
Qed.

Lemma heap_extends_refl (h : Heap) : heap_extends h h.
Proof. by split. Qed.
Lemma heap_extends_trans (h1 h2 h3 : Heap) :
  heap_extends h1 h2 → heap_extends h2 h3 → heap_extends h1 h3.
Proof. intros [? ?] [? ?]. split; by etrans. Qed.

Lemma heap_extends_content (h h' : Heap) (r : ref) (c : Embed) :
  heap_extends h h' → content_of h r = Some c → content_of h' r = Some c.
Proof.
  intros [He Hf] (o & Ho & Hb & Hfo)%content_of_Some. unfold content_of.
  rewrite (lookup_weaken _ _ _ _ Ho He). destruct c as [cf cb]; simpl in *.
  destruct (footer o) as [f|].
  - destruct Hfo as (fo & Hfo & ->). rewrite (lookup_weaken _ _ _ _ Hfo Hf).
    by rewrite Hb.
  - by rewrite Hfo, Hb.
Qed.

(** [new MessageEmbed(data)] returns an object that was not there before, with
    the content built from [data], and touches no other object. *)
Lemma MessageEmbed_new_fresh (c : Embed) (h : Heap) :
  ∃ e h', MessageEmbed_new c h = Normal e h'
    ∧ embed_objects h !! e = None
    ∧ heap_extends h h'
    ∧ content_of h' e = Some c.
Proof.
  destruct c as [[fo|] b]; unfold MessageEmbed_new; cbn.
  - set (f := fresh (dom (footer_objects h))).
    set (e := fresh (dom (embed_objects h))).
    assert (Hf : footer_objects h !! f = None) by apply not_elem_of_dom, is_fresh.
    assert (He : embed_objects h !! e = None) by apply not_elem_of_dom, is_fresh.
    eexists _, _. split_and!; [done|done| |].
    + split; simpl; by apply insert_subseteq.
    + unfold content_of; simpl. rewrite lookup_insert_eq; simpl.
      by rewrite lookup_insert_eq.
  - set (e := fresh (dom (embed_objects h))).
    assert (He : embed_objects h !! e = None) by apply not_elem_of_dom, is_fresh.
    eexists _, _. split_and!; [done|done| |].
    + split; simpl; [by apply insert_subseteq|done].
    + unfold content_of; simpl. by rewrite lookup_insert_eq.
Qed.

(** [{ ...json, ...killed }] has the properties of [killed], and those of
    [json] that [killed] does not have. *)
Lemma spread_lookup (json killed : Options) (k : string) :
  spread json killed !! k =
  match killed !! k with
  | Some v => Some v
  | None => json !! k
  end.
Proof.
  unfold spread, Options in *. rewrite lookup_union.
  by destruct (killed !! k), (json !! k).
Qed.

(** C3: when the collector ends, the listener of ['end'] of either class
    removes all reactions; with a kill-patch it edits the message to the embed
    made of the serialized form of the embed currently shown, the properties
    of the patch overriding; without a kill-patch it requests nothing else. *)
Theorem collector_end_applies_patch (message : Message) (c : Embed) :
  (∀ w : IEWorld,
     content_of (ie_heap w) (ie_embed (ie_this w)) = Some c →
     let run := advance (InteractiveEmbed_end message) w in
     run_status run = Returned tt
     ∧ ends_with_patch message (ie_killed (ie_this w)) c run)
  ∧ (∀ w : PEWorld,
       pe_page w (pe_index w) = Some c →
       let run := advance (PaginatedEmbed_end message) w in
       run_status run = Returned tt
       ∧ ends_with_patch message (pe_killed (pe_this w)) c run).
Proof.
  split; intros w Hc; cbn; unfold ends_with_patch.
  - destruct (ie_killed (ie_this w)) as [patch|]; [|done]. rewrite Hc.
    destruct (MessageEmbed_new_fresh
                (embed_setup (inr (spread (embed_toJSON c) patch))) (ie_heap w))
      as (e & h' & -> & _ & _ & Hnew).
    cbn. rewrite Hnew. split; [done|].
    exists (spread (embed_toJSON c) patch). split; [|done]. apply spread_lookup.
  - destruct (pe_killed (pe_this w)) as [patch|]; [|done]. rewrite Hc.
    destruct (MessageEmbed_new_fresh
                (embed_setup (inr (spread (embed_toJSON c) patch))) (pe_heap w))
      as (e & h' & -> & _ & _ & Hnew).
    cbn. rewrite Hnew. split; [done|].
    exists (spread (embed_toJSON c) patch). split; [|done]. apply spread_lookup.
Qed.

Lemma InteractiveEmbed_collect_keeps_heap (h0 : Heap) (reaction : MessageReaction)
    (user : User) (w : IEWorld) (l : list Entry) :
  keeps_heap h0 w l →
  safe (keeps_heap h0) (InteractiveEmbed_collect reaction user) w l (keeps_heap h0).
Proof.
  intros HI. cbn. split; [done|]. intros _ w' l' _ _ HI'.
  by destruct (bool_decide _).
Qed.

Lemma InteractiveEmbed_end_keeps_heap (h0 : Heap) (message : Message)
    (w : IEWorld) (l : list Entry) :
  keeps_heap h0 w l →
  safe (keeps_heap h0) (InteractiveEmbed_end message) w l (keeps_heap h0).
Proof.
  intros HI. cbn. destruct (ie_killed (ie_this w)) as [patch|]; [|done].
  destruct (content_of _ _) as [c|]; [|done].
  destruct (MessageEmbed_new_fresh
              (embed_setup (inr (spread (embed_toJSON c) patch))) (ie_heap w))
    as (e & h' & -> & _ & Hext & _).
  cbn. unfold keeps_heap; simpl. by eapply heap_extends_trans.
Qed.

(** The calls of [react] in [send] keep a property [J] of the history that
    a request to add a reaction keeps. *)
Lemma safe_forEach_react_inv {A : Type} (I : IEWorld → list Entry → Prop)
    (J : list Entry → Prop) (message : Message) (emojis : list string)
    (k : Async IEWorld A) (w : IEWorld) (Q : IEWorld → list Entry → Prop) :
  (∀ l emoji, J l → J (l ++ [Requested (MessageReact message emoji)])) →
  (∀ l, J l → safe I k w l Q) →
  ∀ l, J l →
    safe I (forEach emojis (λ emoji, spawn (InteractiveEmbed_react message emoji));; k)
         w l Q.
Proof.
  intros HJ Hk. induction emojis as [|e emojis IH]; intros l Hl.
  - by apply Hk.
  - cbn. split; [|by intros]. apply IH. by apply HJ.
Qed.

Lemma safe_forEach_react {A : Type} (I : IEWorld → list Entry → Prop)
    (message : Message) (emojis : list string) (k : Async IEWorld A)
    (w : IEWorld) (Q : IEWorld → list Entry → Prop) :
  ∀ l, (∀ l', l `prefix_of` l' → safe I k w l' Q) →
       safe I (forEach emojis (λ emoji, spawn (InteractiveEmbed_react message emoji));; k)
            w l Q.
Proof.
  induction emojis as [|e emojis IH]; intros l Hk.
  - by apply Hk.
  - cbn. split; [|by intros].
    apply IH. intros l' Hl'. apply Hk. etrans; [|done]. by apply prefix_app_r.
Qed.

Lemma InteractiveEmbed_send_keeps_heap (h0 : Heap) (channel : Channel) (user : User)
    (w : IEWorld) :
  keeps_heap h0 w [] →
  safe (keeps_heap h0) (InteractiveEmbed_send channel user) w [] (keeps_heap h0).
Proof.
  intros HI. cbn. split; [done|]. intros message w1 l1 _ _ H1.
  match goal with
  | |- safe _ (mbind ?k (forEach ?l ?f)) _ _ _ =>
      change (mbind k (forEach l f)) with
        (forEach l (λ emoji, spawn (InteractiveEmbed_react message emoji));; k tt)
  end.
  apply safe_forEach_react. intros l' _. cbn. split_and!; [| |done].
  - intros r u w' l'' _ HI'. by apply InteractiveEmbed_collect_keeps_heap.
  - intros w' l'' _ HI'. by apply InteractiveEmbed_end_keeps_heap.
Qed.

(** The constructor returns, for an embed object or a plain object, and the
    embed of the instance is a new object that holds what
    [new MessageEmbed] builds from the argument. *)
Lemma InteractiveEmbed_new_runs (emojis : list string) (embed : ref + Options)
    (killed : option Options) (h : Heap) (data : Embed + Options) :
  match embed with
  | inl r => ∃ c, content_of h r = Some c ∧ data = inl c
  | inr o => data = inr o
  end →
  ∃ e h1,
    InteractiveEmbed_new emojis embed killed h
    = Normal (mkInteractiveEmbed None e emojis killed) h1
    ∧ embed_objects h !! e = None
    ∧ heap_extends h h1
    ∧ content_of h1 e = Some (embed_setup data).
Proof.
  intros Hdata. unfold InteractiveEmbed_new, mbind, js_bind.
  assert (Hgo : ∃ e h1,
            match MessageEmbed_new (embed_setup data) h with
            | Normal e h' => Normal (mkInteractiveEmbed None e emojis killed) h'
            | Throw e => Throw e
            end = Normal (mkInteractiveEmbed None e emojis killed) h1
            ∧ embed_objects h !! e = None
            ∧ heap_extends h h1
            ∧ content_of h1 e = Some (embed_setup data)).
  { destruct (MessageEmbed_new_fresh (embed_setup data) h)
      as (e & h1 & -> & He & Hext & Hc).
    by exists e, h1. }
  destruct embed as [r|o].
  - destruct Hdata as (c & Hr & ->). cbv beta. rewrite Hr. exact Hgo.
  - subst data. exact Hgo.
Qed.

(** C10: the constructor of InteractiveEmbed, given an embed object or a
    plain object, always returns, and the embed it stores is a new object
    holding the copy that [new MessageEmbed] builds from the argument: it did
    not exist before, and no object that existed is changed. Whatever [send]
    and the listeners then do, every object that existed before the
    construction, the embed of the caller among them, stays as it was; and the
    listener of ['end'] changes nothing of the instance but its field
    [embed], which with a kill-patch becomes a new object holding the merged
    embed. *)
Theorem InteractiveEmbed_copies_embed (emojis : list string) (embed : ref + Options)
    (killed : option Options) (h : Heap) (data : Embed + Options) :
  match embed with
  | inl r => ∃ c, content_of h r = Some c ∧ data = inl c
  | inr o => data = inr o
  end →
  ∃ this h1,
    InteractiveEmbed_new emojis embed killed h = Normal this h1
    ∧ this = mkInteractiveEmbed None (ie_embed this) emojis killed
    ∧ (embed_objects h !! ie_embed this = None
       ∧ heap_extends h h1
       ∧ content_of h1 (ie_embed this) = Some (embed_setup data))
    ∧ (∀ channel user c,
         reachable ie_collector_of (mkIEWorld this h1)
                   (InteractiveEmbed_send channel user) c →
         heap_extends h (ie_heap (world c))
         ∧ ∀ r c0, content_of h r = Some c0 →
                   content_of (ie_heap (world c)) r = Some c0)
    ∧ (∀ message (w : IEWorld) shown,
         content_of (ie_heap w) (ie_embed (ie_this w)) = Some shown →
         let w' := run_world (advance (InteractiveEmbed_end message) w) in
         ie_collector (ie_this w') = ie_collector (ie_this w)
         ∧ ie_emojis (ie_this w') = ie_emojis (ie_this w)
         ∧ ie_killed (ie_this w') = ie_killed (ie_this w)
         ∧ heap_extends (ie_heap w) (ie_heap w')
         ∧ match ie_killed (ie_this w) with
           | Some patch =>
               embed_objects (ie_heap w) !! ie_embed (ie_this w') = None
               ∧ content_of (ie_heap w') (ie_embed (ie_this w'))
                 = Some (embed_setup (inr (spread (embed_toJSON shown) patch)))
           | None => w' = w
           end).
Proof.
  intros Hdata.
  destruct (InteractiveEmbed_new_runs emojis embed killed h data Hdata)
    as (e & h1 & Hrun & Hfresh & Hext & Hcontent).
  exists (mkInteractiveEmbed None e emojis killed), h1.
  split; [done|]. split; [done|]. split; [done|]. split.
  - intros channel user c Hreach.
    assert (HI : keeps_heap h (mkIEWorld (mkInteractiveEmbed None e emojis killed) h1) [])
      by done.
    apply (reachable_safe (keeps_heap h) (λ w l e _ Hw, Hw) _ _ _ _
             (InteractiveEmbed_send_keeps_heap h channel user _ HI) HI) in Hreach.
    destruct Hreach as [Hkeeps _]. split; [exact Hkeeps|].
    intros r c0. by apply heap_extends_content.
  - intros message w shown Hshown. cbn.
    destruct (ie_killed (ie_this w)) as [patch|] eqn:Hk;
      [|by split_and!; try apply heap_extends_refl].
    rewrite Hshown.
    destruct (MessageEmbed_new_fresh
                (embed_setup (inr (spread (embed_toJSON shown) patch))) (ie_heap w))
      as (e' & h' & -> & He & Hext' & Hnew).
    cbn. by split_and!.
Qed.

End InteractiveEmbedSend.

(** ** The collector of both classes *)

Section Collector.
Context `{DiscordJS}.

Section CollectorProperty.
Variable P : ReactionCollector → list Entry → Prop.
Hypothesis P_mono : ∀ coll l l', l `prefix_of` l' → P coll l → P coll l'.

Lemma ie_collector_is_mono (w : IEWorld) (l l' : list Entry) :
  l `prefix_of` l' → ie_collector_is P w l → ie_collector_is P w l'.
Proof using P_mono. intros Hl HI coll Hc. eapply P_mono; [done|]. by apply HI. Qed.
Lemma pe_collector_is_mono (w : PEWorld) (l l' : list Entry) :
  l `prefix_of` l' → pe_collector_is P w l → pe_collector_is P w l'.
Proof using P_mono. intros Hl HI coll Hc. eapply P_mono; [done|]. by apply HI. Qed.

(** The listeners never touch the collector. *)
Lemma InteractiveEmbed_collect_keeps_collector (reaction : MessageReaction)
    (user : User) (w : IEWorld) (l : list Entry) :
  ie_collector_is P w l →
  safe (ie_collector_is P) (InteractiveEmbed_collect reaction user) w l
       (ie_collector_is P).
Proof using P_mono.
  intros HI. cbn. split.
  { eapply ie_collector_is_mono; [|done]. by apply prefix_app_r. }
  intros _ w' l' _ _ HI'. destruct (bool_decide _); cbn; [|done].
  eapply ie_collector_is_mono; [|done]. by apply prefix_app_r.
Qed.

Lemma InteractiveEmbed_end_keeps_collector (message : Message)
    (w : IEWorld) (l : list Entry) :
  ie_collector_is P w l →
  safe (ie_collector_is P) (InteractiveEmbed_end message) w l (ie_collector_is P).
Proof using P_mono.
  intros HI. cbn.
  assert (HI' : ie_collector_is P w (l ++ [Requested (ReactionsRemoveAll message)])).
  { eapply ie_collector_is_mono; [|done]. by apply prefix_app_r. }
  destruct (ie_killed (ie_this w)) as [patch|]; [|done].
  destruct (content_of _ _) as [c|]; [|done].
  destruct (MessageEmbed_new _ _) as [e h'|]; [|done]. cbn.
  eapply (ie_collector_is_mono (ie_set_embed e h' w)); [by apply prefix_app_r|].
  exact HI'.
Qed.

Lemma PaginatedEmbed_collect_keeps_collector (message : Message) (user u : User)
    (max : Z) (reaction : MessageReaction) (w : PEWorld) (l : list Entry) :
  pe_collector_is P w l →
  safe (pe_collector_is P) (PaginatedEmbed_collect message user max reaction u) w l
       (pe_collector_is P).
Proof using P_mono.
  intros HI. cbn. split.
  { eapply pe_collector_is_mono; [|done]. by apply prefix_app_r. }
  intros _ w' l' _ _ HI'.
  assert (Hedit : ∀ i, safe (pe_collector_is P)
            (Get (λ w0 : PEWorld,
               Await (MessageEdit message (pe_page w0 (pe_index w0)))
                 (λ _ : Message, mret ())))
            (pe_set_index i w') l' (pe_collector_is P)).
  { intros i. cbn. split; [|by intros].
    eapply (pe_collector_is_mono (pe_set_index i w')); [by apply prefix_app_r|].
    exact HI'. }
  destruct (bool_decide (emoji_name reaction = "⬅")); [|
    destruct (bool_decide (emoji_name reaction = "➡"))]; cbn; apply Hedit.
Qed.

Lemma PaginatedEmbed_end_keeps_collector (message : Message)
    (w : PEWorld) (l : list Entry) :
  pe_collector_is P w l →
  safe (pe_collector_is P) (PaginatedEmbed_end message) w l (pe_collector_is P).
Proof using P_mono.
  intros HI. cbn.
  assert (HI' : pe_collector_is P w (l ++ [Requested (ReactionsRemoveAll message)])).
  { eapply pe_collector_is_mono; [|done]. by apply prefix_app_r. }
  destruct (pe_killed (pe_this w)) as [patch|]; [|done].
  destruct (pe_page w (pe_index w)) as [c|]; [|done].
  destruct (MessageEmbed_new _ _) as [e h'|]; [|done]. cbn.
  eapply (pe_collector_is_mono (mkPEWorld (pe_this w) (pe_index w) h'));
    [by apply prefix_app_r|].
  exact HI'.
Qed.

(** [send] sets the collector once, after the requests it awaits resolved. *)
Lemma InteractiveEmbed_send_sets_collector (channel : Channel) (user : User)
    (w : IEWorld) :
  (∀ message l,
     P (mkCollector message (λ _ u, bool_decide (user_id u = user_id user))
                    60000 180000) l) →
  ie_collector (ie_this w) = None →
  safe (ie_collector_is P) (InteractiveEmbed_send channel user) w []
       (ie_collector_is P).
Proof using P_mono.
  intros HP Hnone. cbn. split.
  { intros coll Hc. by rewrite Hnone in Hc. }
  intros message w1 l1 _ _ H1.
  match goal with
  | |- safe _ (mbind ?k (forEach ?l ?f)) _ _ _ =>
      change (mbind k (forEach l f)) with
        (forEach l (λ emoji, spawn (InteractiveEmbed_react message emoji));; k tt)
  end.
  apply safe_forEach_react. intros l' _. cbn. split_and!.
  - intros r u w' l'' _ HI'. by apply InteractiveEmbed_collect_keeps_collector.
  - intros w' l'' _ HI'. by apply InteractiveEmbed_end_keeps_collector.
  - intros coll [= <-]. apply HP.
Qed.

Lemma PaginatedEmbed_send_sets_collector (channel : Channel) (user : User)
    (w : PEWorld) :
  (∀ message l v v',
     Resolved (MessageReact message "⬅") v ∈ l →
     Resolved (MessageReact message "➡") v' ∈ l →
     P (mkCollector message (λ _ u, bool_decide (user_id u = user_id user))
                    60000 180000) l) →
  pe_collector (pe_this w) = None →
  safe (pe_collector_is P) (PaginatedEmbed_send channel user) w []
       (pe_collector_is P).
Proof using P_mono.
  intros HP Hnone.
  assert (Hmono : ∀ w l e, pe_collector_is P w l → pe_collector_is P w (l ++ [e])).
  { intros w' l e. apply pe_collector_is_mono. by apply prefix_app_r. }
  cbn. split.
  { intros coll Hc. by rewrite Hnone in Hc. }
  intros message w1 l1 _ _ H1. split; [by apply Hmono|].
  intros v w2 l2 _ Hv H2. split; [by apply Hmono|].
  intros v' w3 l3 Hpre Hv' H3. split_and!.
  - intros r u w' l' _ HI. by apply PaginatedEmbed_collect_keeps_collector.
  - intros w' l' _ HI. by apply PaginatedEmbed_end_keeps_collector.
  - intros coll [= <-]. apply (HP _ _ v v'); [|done].
    destruct Hpre as [k ->]. apply elem_of_app; left. apply elem_of_app. by left.
Qed.

End CollectorProperty.

Lemma configured_for_send (user : User) (message : Message) :
  configured_for user
    (mkCollector message (λ _ u, bool_decide (user_id u = user_id user))
                 60000 180000).
Proof.
  split_and!; try done. intros reaction u. simpl. apply bool_decide_eq_true.
Qed.

(** C5: the collector that [send] creates, in either class, has an idle
    timeout of 60 seconds and an absolute timeout of 180 seconds, and its
    filter accepts a reaction exactly when the identifier of the reacting user
    is that of the authorized user, whatever the emoji. This is the collector
    of the instance once the requests that [send] awaits have resolved, and in
    every configuration that [send] can lead to. *)
Theorem send_configures_collector (channel : Channel) (user : User)
    (reply : ∀ R, Request R → R) :
  (∀ w w1 : IEWorld,
     let run := resume (advance (InteractiveEmbed_send channel user) w) reply w1 in
     ∃ coll, ie_collector (ie_this (run_world run)) = Some coll
             ∧ configured_for user coll)
  ∧ (∀ w w1 w2 w3 : PEWorld,
       let run := resume (resume (resume
                    (advance (PaginatedEmbed_send channel user) w) reply w1)
                    reply w2) reply w3 in
       ∃ coll, pe_collector (pe_this (run_world run)) = Some coll
               ∧ configured_for user coll)
  ∧ (∀ (w : IEWorld) c coll,
       ie_collector (ie_this w) = None →
       reachable ie_collector_of w (InteractiveEmbed_send channel user) c →
       ie_collector (ie_this (world c)) = Some coll → configured_for user coll)
  ∧ (∀ (w : PEWorld) c coll,
       pe_collector (pe_this w) = None →
       reachable pe_collector_of w (PaginatedEmbed_send channel user) c →
       pe_collector (pe_this (world c)) = Some coll → configured_for user coll).
Proof.
  split_and!.
  - intros w w1. cbv zeta.
    destruct (InteractiveEmbed_send_runs channel user w w1 reply)
      as (_ & _ & _ & -> & _).
    eexists. split; [reflexivity|]. apply configured_for_send.
  - intros w w1 w2 w3. cbv zeta.
    destruct (PaginatedEmbed_send_runs channel user w w1 w2 w3 reply)
      as (_ & _ & _ & _ & -> & _).
    eexists. split; [reflexivity|]. apply configured_for_send.
  - intros w c coll Hnone Hreach Hcoll.
    set (P := λ (coll : ReactionCollector) (_ : list Entry), configured_for user coll).
    assert (HI : ie_collector_is P w []).
    { intros coll' Hc. by rewrite Hnone in Hc. }
    apply (reachable_safe (ie_collector_is P)
             (settles_of_mono _ (ie_collector_is_mono P (λ _ _ _ _ HP, HP))) _ _ _ _
             (InteractiveEmbed_send_sets_collector P (λ _ _ _ _ HP, HP) channel user w
                (λ m _, configured_for_send user m) Hnone) HI) in Hreach.
    by apply Hreach.
  - intros w c coll Hnone Hreach Hcoll.
    set (P := λ (coll : ReactionCollector) (_ : list Entry), configured_for user coll).
    assert (HI : pe_collector_is P w []).
    { intros coll' Hc. by rewrite Hnone in Hc. }
    apply (reachable_safe (pe_collector_is P)
             (settles_of_mono _ (pe_collector_is_mono P (λ _ _ _ _ HP, HP))) _ _ _ _
             (PaginatedEmbed_send_sets_collector P (λ _ _ _ _ HP, HP) channel user w
                (λ m _ _ _ _ _, configured_for_send user m) Hnone) HI) in Hreach.
    by apply Hreach.
Qed.

(** C8, as the code has it. [InteractiveEmbed.send] attaches its reactions
    without awaiting: in the run that follows the posting of the embed it
    calls [react] for every emoji, sets the collector up and returns, all the
    calls still pending, and the event loop can be in that state.
    [PaginatedEmbed.send] awaits each of its two [react] calls: it is
    suspended at each of them with no collector yet, and whenever its
    collector is there both calls have resolved. *)
Theorem send_attaches_reactions (channel : Channel) (user : User)
    (reply : ∀ R, Request R → R) :
  (∀ w w1 : IEWorld,
     let run := advance (InteractiveEmbed_send channel user) w in
     let message :=
       reply _ (ChannelSend channel (content_of (ie_heap w) (ie_embed (ie_this w)))) in
     let run' := resume run reply w1 in
     run_status run' = Returned (ie_this (run_world run'))
     ∧ is_Some (ie_collector (ie_this (run_world run')))
     ∧ awaited (run_pending run')
       = (λ emoji, Requested (MessageReact message emoji)) <$> ie_emojis (ie_this w1))
  ∧ (∀ w : IEWorld,
       let message :=
         reply _ (ChannelSend channel (content_of (ie_heap w) (ie_embed (ie_this w)))) in
       ∃ c, reachable ie_collector_of w (InteractiveEmbed_send channel user) c
            ∧ is_Some (ie_collector (ie_this (world c)))
            ∧ awaited (tasks c)
              = (λ emoji, Requested (MessageReact message emoji)) <$> ie_emojis (ie_this w))
  ∧ (∀ w w1 w2 : PEWorld,
       let run := advance (PaginatedEmbed_send channel user) w in
       let message := reply _ (ChannelSend channel (pe_page w 0)) in
       let run' := resume run reply w1 in
       let run'' := resume run' reply w2 in
       (awaits run' (MessageReact message "⬅") ∧ run_world run' = w1)
       ∧ (awaits run'' (MessageReact message "➡") ∧ run_world run'' = w2))
  ∧ (∀ (w : PEWorld) c coll,
       pe_collector (pe_this w) = None →
       reachable pe_collector_of w (PaginatedEmbed_send channel user) c →
       pe_collector (pe_this (world c)) = Some coll →
       arrows_attached coll (log c)).
Proof.
  split_and!.
  - intros w w1. cbv zeta.
    destruct (InteractiveEmbed_send_runs channel user w w1 reply)
      as (_ & _ & Htasks & Hworld & _ & _ & Hstatus).
    split; [done|]. split; [by rewrite Hworld|].
    unfold run_pending, awaited. rewrite Htasks, Hstatus, app_nil_r.
    rewrite <- list_fmap_compose. done.
  - intros w. cbv zeta.
    destruct (InteractiveEmbed_send_runs channel user w w reply)
      as (_ & _ & Htasks & Hworld & _ & _ & Hstatus).
    eexists. split; [|split].
    + apply rtc_once.
      eapply (step_resolve _ (started w (InteractiveEmbed_send channel user)) 0
                (mkTask (ChannelSend channel
                           (content_of (ie_heap w) (ie_embed (ie_this w)))) _)
                (reply Message (ChannelSend channel
                           (content_of (ie_heap w) (ie_embed (ie_this w)))))).
      reflexivity.
    + unfold run_in, resume in *. cbn in *. by rewrite Hworld.
    + unfold run_in, run_pending, awaited, resume in *. cbn in *.
      rewrite Htasks, Hstatus, app_nil_r. rewrite <- list_fmap_compose. done.
  - intros w w1 w2. cbv zeta.
    by destruct (PaginatedEmbed_send_runs channel user w w1 w2 w2 reply)
      as (_ & (_ & ? & ?) & (_ & ? & ?) & _).
  - intros w c coll Hnone Hreach Hcoll.
    assert (Hmono : ∀ coll l l', l `prefix_of` l' →
              arrows_attached coll l → arrows_attached coll l').
    { intros coll' l l' [k ->] (v & v' & Hv & Hv'). exists v, v'.
      split; apply elem_of_app; by left. }
    assert (HI : pe_collector_is arrows_attached w []).
    { intros coll' Hc. by rewrite Hnone in Hc. }
    apply (reachable_safe (pe_collector_is arrows_attached)
             (settles_of_mono _ (pe_collector_is_mono arrows_attached Hmono)) _ _ _ _
             (PaginatedEmbed_send_sets_collector arrows_attached Hmono channel user w
                (λ m l v v' Hv Hv', ex_intro _ v (ex_intro _ v' (conj Hv Hv')))
                Hnone) HI) in Hreach.
    by apply Hreach.
Qed.

End Collector.

(** ** What the message shows *)

Section Shown.
Context `{DiscordJS}.

Lemma shown_app (l l' : list Entry) :
  shown (l ++ l') = match shown l' with
                    | Some content => Some content
                    | None => shown l
                    end.
Proof.
  induction l as [|e l IH]; simpl.
  - by destruct (shown l').
  - rewrite IH. by destruct (shown l').
Qed.

Lemma shown_settled (l : list Entry) (e : Entry) :
  settles e → shown (l ++ [e]) = shown l.
Proof. intros He. rewrite shown_app. by destruct e. Qed.

Lemma closing_settled (l : list Entry) (e : Entry) :
  settles e → closing (l ++ [e]) → closing l.
Proof.
  intros He [Hl|He']%Exists_app; [done|].
  apply Exists_cons in He' as [He'|He']; [by destruct e|by apply Exists_nil in He'].
Qed.

Lemma closing_app_l (l l' : list Entry) : closing l → closing (l ++ l').
Proof. intros Hl. apply Exists_app. by left. Qed.

Lemma shows_page_settles (w : PEWorld) (l : list Entry) (e : Entry) :
  settles e → shows_page w l → shows_page w (l ++ [e]).
Proof.
  intros He Hl Hnc. rewrite shown_settled by done. apply Hl.
  intros Hc. apply Hnc. by apply closing_app_l.
Qed.

Lemma shows_embed_settles (w : IEWorld) (l : list Entry) (e : Entry) :
  settles e → shows_embed w l → shows_embed w (l ++ [e]).
Proof. intros He Hl content. rewrite shown_settled by done. apply Hl. Qed.

(** The listeners of the paginator keep the page shown in step with the
    index; once the listener of ['end'] has run there is nothing to keep. *)
Lemma PaginatedEmbed_collect_shows_page (message : Message) (user u : User)
    (max : Z) (reaction : MessageReaction) (w : PEWorld) (l : list Entry) :
  shows_page w l →
  safe shows_page (PaginatedEmbed_collect message user max reaction u) w l shows_page.
Proof.
  intros HI. cbn. split.
  { intros Hnc. rewrite shown_app. simpl. apply HI.
    intros Hc. apply Hnc. by apply closing_app_l. }
  intros _ w' l' _ _ HI'.
  assert (Hedit : ∀ i, safe shows_page
            (Get (λ w0 : PEWorld,
               Await (MessageEdit message (pe_page w0 (pe_index w0)))
                 (λ _ : Message, mret ())))
            (pe_set_index i w') l' shows_page).
  { intros i. cbn. split; [|by intros]. intros _. by rewrite shown_app. }
  destruct (bool_decide (emoji_name reaction = "⬅")); [|
    destruct (bool_decide (emoji_name reaction = "➡"))]; cbn; apply Hedit.
Qed.

Lemma PaginatedEmbed_end_shows_page (message : Message) (w : PEWorld)
    (l : list Entry) :
  safe shows_page (PaginatedEmbed_end message) w l shows_page.
Proof.
  cbn.
  assert (Hclosing : ∀ l', closing ((l ++ [Requested (ReactionsRemoveAll message)]) ++ l')).
  { intros l'. apply closing_app_l, Exists_app. right. by apply Exists_cons_hd. }
  assert (Hdone : ∀ w', shows_page w' (l ++ [Requested (ReactionsRemoveAll message)])).
  { intros w' Hnc. destruct Hnc. rewrite <- (app_nil_r (_ ++ _)). apply Hclosing. }
  destruct (pe_killed (pe_this w)) as [patch|]; [|apply Hdone].
  destruct (pe_page w (pe_index w)) as [c|]; [|apply Hdone].
  destruct (MessageEmbed_new _ _) as [e h'|]; [|apply Hdone]. cbn.
  intros Hnc. destruct Hnc. apply Hclosing.
Qed.

Lemma PaginatedEmbed_send_setting_up (channel : Channel) (user : User) (w : PEWorld) :
  setting_up user w (started w (PaginatedEmbed_send channel user)).
Proof.
  unfold setting_up, started, run_in. cbn. split_and!; try done.
  - by intros [?|?%Exists_nil]%Exists_cons.
  - right. eexists. split; [done|]. left.
    intros message w1. cbn. exists message. split_and!; try done.
    eexists. split; [done|].
    intros r2 w2. cbn. split_and!; try done.
    eexists. split; [done|].
    intros r3 w3. cbn. by split_and!.
Qed.

(** [PaginatedEmbed.send] called in [w] goes through two phases: it sets the
    collector up, one [await] after the other, and then the listeners run. A
    property [I] that holds when the collector is created and that the two
    listeners keep holds from then on. *)
Section Phases.
Variable I : PEWorld → list Entry → Prop.
Variable user : User.
Variable w : PEWorld.
Hypothesis I_settles : ∀ w l e, settles e → I w l → I w (l ++ [e]).
Hypothesis I_collector :
  ∀ message l, shown l = Some (pe_page w 0) → ¬ closing l →
    I (pe_set_collector
         (mkCollector message (λ _ u, bool_decide (user_id u = user_id user))
                      60000 180000)
         (pe_set_index 0 w)) l.
Hypothesis I_collect :
  ∀ message max reaction u w' l', I w' l' →
    safe I (PaginatedEmbed_collect message user max reaction u) w' l' I.
Hypothesis I_end :
  ∀ message w' l', I w' l' → safe I (PaginatedEmbed_end message) w' l' I.
Hypothesis no_collector : pe_collector (pe_this w) = None.

(** One turn of the event loop while [send] is setting up: it is still
    setting up, or the collector is there. *)
Lemma setting_up_step (c c' : Config PEWorld) :
  setting_up user w c → step pe_collector_of c c' →
  setting_up user w c' ∨ config_safe I c'.
Proof using I_collector I_collect I_end no_collector.
  intros (Hw & Hcl & Hel & Hshown & Hnc & Htasks) Hstep.
  destruct Hstep as [c i t r Hi|c i t Hi|c coll r u _ Hcoll _|c coll _ Hcoll].
  - destruct Htasks as [Hnil|(t0 & Ht0 & Hstage)]; [by rewrite Hnil in Hi|].
    rewrite Ht0 in Hi. apply list_lookup_singleton_Some in Hi as [-> ->].
    destruct Hstage as [Hpost|(message & [Hleft|Hright])].
    + destruct (Hpost r w) as (message & Hlog & Hworld & Hc & He & t' & Hp & Hleft).
      left. unfold setting_up, run_in, settled; simpl.
      rewrite Hw, Hcl, Hel, Ht0, Hlog, Hworld, Hc, He, Hp. simpl.
      split_and!; try done.
      * by rewrite !shown_app.
      * intros [Hc'|Hc']%Exists_app; [|by apply Exists_cons in Hc' as [?|?%Exists_nil]].
        apply Exists_app in Hc' as [Hc'|Hc']; [done|].
        by apply Exists_cons in Hc' as [?|?%Exists_nil].
      * right. exists t'. split; [done|]. right. exists message. by left.
    + destruct (Hleft r w) as (Hlog & Hworld & Hc & He & t' & Hp & Hright).
      left. unfold setting_up, run_in, settled; simpl.
      rewrite Hw, Hcl, Hel, Ht0, Hlog, Hworld, Hc, He, Hp. simpl.
      split_and!; try done.
      * by rewrite !shown_app.
      * intros [Hc'|Hc']%Exists_app; [|by apply Exists_cons in Hc' as [?|?%Exists_nil]].
        apply Exists_app in Hc' as [Hc'|Hc']; [done|].
        by apply Exists_cons in Hc' as [?|?%Exists_nil].
      * right. exists t'. split; [done|]. right. exists message. by right.
    + destruct (Hright r w) as (Hlog & Hworld & Hp & Hc & He).
      right. unfold config_safe, run_in, settled; simpl.
      rewrite Hw, Hcl, Hel, Ht0, Hlog, Hworld, Hc, He, Hp. simpl.
      rewrite app_nil_r. split_and!.
      * apply I_collector; [by rewrite shown_app|].
        intros [Hc'|Hc']%Exists_app; [done|].
        by apply Exists_cons in Hc' as [?|?%Exists_nil].
      * done.
      * apply Forall_singleton. intros r' u' w' l' _ HI. by apply I_collect.
      * apply Forall_singleton. intros w' l' _ HI. by apply I_end.
  - destruct Htasks as [Hnil|(t0 & Ht0 & Hstage)]; [by rewrite Hnil in Hi|].
    rewrite Ht0 in Hi. apply list_lookup_singleton_Some in Hi as [-> ->].
    left. unfold setting_up, settled; simpl. rewrite Ht0. simpl.
    split_and!; try done.
    + by rewrite shown_app.
    + intros [Hc'|Hc']%Exists_app; [done|].
      by apply Exists_cons in Hc' as [?|?%Exists_nil].
    + by left.
  - unfold pe_collector_of in Hcoll. by rewrite Hw, no_collector in Hcoll.
  - unfold pe_collector_of in Hcoll. by rewrite Hw, no_collector in Hcoll.
Qed.

Lemma PaginatedEmbed_send_phases (channel : Channel) (c : Config PEWorld) :
  reachable pe_collector_of w (PaginatedEmbed_send channel user) c →
  setting_up user w c ∨ config_safe I c.
Proof using I_settles I_collector I_collect I_end no_collector.
  revert c. apply rtc_ind_r.
  - left. apply PaginatedEmbed_send_setting_up.
  - intros c c' _ Hstep [Hc|Hc].
    + by eapply setting_up_step.
    + right. by eapply (step_safe I I_settles).
Qed.

End Phases.

Lemma PaginatedEmbed_send_shows_page (channel : Channel) (user : User) (w : PEWorld)
    (c : Config PEWorld) :
  pe_collector (pe_this w) = None →
  reachable pe_collector_of w (PaginatedEmbed_send channel user) c →
  setting_up user w c ∨ config_safe shows_page c.
Proof.
  intros Hnone.
  apply (PaginatedEmbed_send_phases shows_page user w shows_page_settles
           (λ _ _ Hshown _ _, Hshown)
           (λ message max reaction u w' l' HI,
              PaginatedEmbed_collect_shows_page message user u max reaction w' l' HI)
           (λ message w' l' _, PaginatedEmbed_end_shows_page message w' l')
           Hnone channel c).
Qed.

(** X1: once [PaginatedEmbed.send] has set the collector up, and until the
    listener of ['end'] runs, the message shows the embed at the index:
    whatever reactions are collected and however the requests settle, the
    last embed that the message was asked to show is [this.embeds[index]]. *)
Theorem PaginatedEmbed_shows_page (channel : Channel) (user : User) (w : PEWorld)
    (c : Config PEWorld) :
  pe_collector (pe_this w) = None →
  reachable pe_collector_of w (PaginatedEmbed_send channel user) c →
  is_Some (pe_collector (pe_this (world c))) →
  ¬ closing (log c) →
  shown (log c) = Some (pe_page (world c) (pe_index (world c))).
Proof.
  intros Hnone Hreach.
  destruct (PaginatedEmbed_send_shows_page channel user w c Hnone Hreach)
    as [(Hw & _)|(HI & _)].
  - rewrite Hw, Hnone. by intros [? ?].
  - intros _. apply HI.
Qed.

(** The listeners of a paginator leave the collector where it is. *)
Lemma PaginatedEmbed_collect_collecting (message : Message) (user u : User)
    (max : Z) (reaction : MessageReaction) (w : PEWorld) (l : list Entry) :
  collecting w l →
  safe collecting (PaginatedEmbed_collect message user max reaction u) w l collecting.
Proof.
  intros HI. cbn. split; [done|]. intros _ w' l' _ _ HI'.
  assert (Hedit : ∀ i, safe collecting
            (Get (λ w0 : PEWorld,
               Await (MessageEdit message (pe_page w0 (pe_index w0)))
                 (λ _ : Message, mret ())))
            (pe_set_index i w') l' collecting).
  { intros i. cbn. split; [done|by intros]. }
  destruct (bool_decide (emoji_name reaction = "⬅")); [|
    destruct (bool_decide (emoji_name reaction = "➡"))]; cbn; apply Hedit.
Qed.

Lemma PaginatedEmbed_end_collecting (message : Message) (w : PEWorld)
    (l : list Entry) :
  collecting w l → safe collecting (PaginatedEmbed_end message) w l collecting.
Proof.
  intros HI. cbn. destruct (pe_killed (pe_this w)) as [patch|]; [|done].
  destruct (pe_page w (pe_index w)) as [c|]; [|done].
  by destruct (MessageEmbed_new _ _) as [e h'|].
Qed.

(** X7: when one of the requests that [PaginatedEmbed.send] awaits (the
    post, the left arrow, the right arrow) is rejected, [send] ends there: the
    instance is as it was, with no collector and no listener, nothing is
    suspended, and nothing happens any more. *)
Theorem PaginatedEmbed_send_rejected (channel : Channel) (user : User)
    (w : PEWorld) (c : Config PEWorld) (i : nat) (t : Task PEWorld) :
  pe_collector (pe_this w) = None →
  reachable pe_collector_of w (PaginatedEmbed_send channel user) c →
  pe_collector (pe_this (world c)) = None →
  tasks c !! i = Some t →
  let c' := settled c i (Rejected (task_request t)) in
  step pe_collector_of c c'
  ∧ world c' = w ∧ tasks c' = []
  ∧ collect_listeners c' = [] ∧ end_listeners c' = []
  ∧ ∀ c'', rtc (step pe_collector_of) c' c'' → c'' = c'.
Proof.
  intros Hnone Hreach Hc Hi.
  destruct (PaginatedEmbed_send_phases collecting user w (λ _ _ _ _ HI, HI)
              (λ message l _ _, mk_is_Some _ _ eq_refl)
              (λ message max reaction u w' l' HI,
                 PaginatedEmbed_collect_collecting message user u max reaction w' l' HI)
              PaginatedEmbed_end_collecting
              Hnone channel c Hreach) as [(Hw & Hcl & Hel & _ & _ & Htasks)|(HI & _)].
  - destruct Htasks as [Hnil|(t0 & Ht0 & _)]; [by rewrite Hnil in Hi|].
    rewrite Ht0 in Hi. apply list_lookup_singleton_Some in Hi as [-> ->].
    assert (Htasks' : tasks (settled c 0 (Rejected (task_request t))) = []).
    { simpl. by rewrite Ht0. }
    cbv zeta. split_and!; try done.
    + apply step_reject. by rewrite Ht0.
    + intros c''. apply step_stuck; [done|]. simpl. unfold pe_collector_of.
      by rewrite Hw.
  - unfold collecting in HI. rewrite Hc in HI. by destruct HI.
Qed.

(** The listeners and [send] of an InteractiveEmbed keep the message showing
    the embed of the instance. *)
Lemma InteractiveEmbed_collect_shows_embed (reaction : MessageReaction)
    (user : User) (w : IEWorld) (l : list Entry) :
  shows_embed w l →
  safe shows_embed (InteractiveEmbed_collect reaction user) w l shows_embed.
Proof.
  intros HI. cbn. split.
  { intros content. rewrite shown_app. apply HI. }
  intros _ w' l' _ _ HI'. destruct (bool_decide _); cbn; [|done].
  intros content. rewrite shown_app. apply HI'.
Qed.

Lemma InteractiveEmbed_end_shows_embed (message : Message) (w : IEWorld)
    (l : list Entry) :
  shows_embed w l →
  safe shows_embed (InteractiveEmbed_end message) w l shows_embed.
Proof.
  intros HI. cbn.
  assert (HI' : shows_embed w (l ++ [Requested (ReactionsRemoveAll message)])).
  { intros content. rewrite shown_app. apply HI. }
  destruct (ie_killed (ie_this w)) as [patch|]; [|done].
  destruct (content_of _ _) as [c|]; [|done].
  destruct (MessageEmbed_new _ _) as [e h'|]; [|done]. cbn.
  intros content. rewrite shown_app. simpl. by intros [= <-].
Qed.

Lemma InteractiveEmbed_send_shows_embed (channel : Channel) (user : User)
    (w : IEWorld) :
  safe shows_embed (InteractiveEmbed_send channel user) w [] shows_embed.
Proof.
  cbn. split; [by intros content [= <-]|]. intros message w1 l1 _ _ H1.
  match goal with
  | |- safe _ (mbind ?k (forEach ?l ?f)) _ _ _ =>
      change (mbind k (forEach l f)) with
        (forEach l (λ emoji, spawn (InteractiveEmbed_react message emoji));; k tt)
  end.
  assert (Hreact : ∀ emojis l, shows_embed w1 l →
    safe shows_embed
      (forEach emojis (λ emoji, spawn (InteractiveEmbed_react message emoji));;
       Get (λ w0 : IEWorld,
         Put (ie_set_collector
                (mkCollector message (λ _ u, bool_decide (user_id u = user_id user))
                             60000 180000) w0)
           (OnCollect InteractiveEmbed_collect
              (OnEnd (InteractiveEmbed_end message)
                 (Get (λ w2 : IEWorld, mret (ie_this w2)))))))
      w1 l shows_embed).
  { induction emojis as [|e emojis IH]; intros l Hl.
    - cbn. split_and!; [| |done].
      + intros r u w' l' _ HI'. by apply InteractiveEmbed_collect_shows_embed.
      + intros w' l' _ HI'. by apply InteractiveEmbed_end_shows_embed.
    - cbn. split; [|by intros]. apply IH.
      intros content. rewrite shown_app. apply Hl. }
  by apply Hreact.
Qed.

(** X2: whatever the message of an InteractiveEmbed was last asked to show is
    the embed of the instance: the one [send] posted and, after the listener
    of ['end'] ran with a kill-patch, the merged one that replaced it. *)
Theorem InteractiveEmbed_shows_embed (channel : Channel) (user : User) (w : IEWorld)
    (c : Config IEWorld) (content : option Embed) :
  reachable ie_collector_of w (InteractiveEmbed_send channel user) c →
  shown (log c) = Some content →
  content = content_of (ie_heap (world c)) (ie_embed (ie_this (world c))).
Proof.
  intros Hreach.
  apply (reachable_safe shows_embed shows_embed_settles _ _ _ _
           (InteractiveEmbed_send_shows_embed channel user w)) in Hreach.
  - apply Hreach.
  - by intros ?.
Qed.

End Shown.

(** ** What the instances request and emit *)

Section Requests.
Context `{DiscordJS}.

Lemma posted_app_l (l l' : list Entry) (message : Message) :
  posted l message → posted (l ++ l') message.
Proof. intros (channel & content & Hin). exists channel, content. apply elem_of_app. by left. Qed.

Lemma posted_prefix (l l' : list Entry) (message : Message) :
  l `prefix_of` l' → posted l message → posted l' message.
Proof. intros [k ->]. apply posted_app_l. Qed.

Lemma on_posted_message_snoc (l : list Entry) (e : Entry) :
  on_posted_message l →
  (∀ message, entry_target e = Some message → posted l message) →
  on_posted_message (l ++ [e]).
Proof.
  intros Hl He e' message [Hin| ->%list_elem_of_singleton]%elem_of_app Ht;
    apply posted_app_l; eauto.
Qed.

Lemma on_posted_message_settles (l : list Entry) (e : Entry) :
  settles e → on_posted_message l → on_posted_message (l ++ [e]).
Proof. intros He Hl. apply on_posted_message_snoc; [done|]. by destruct e. Qed.

Lemma InteractiveEmbed_collect_on_posted (reaction : MessageReaction) (user : User)
    (w : IEWorld) (l : list Entry) :
  on_posted_message l →
  safe (λ _ l, on_posted_message l) (InteractiveEmbed_collect reaction user) w l
       (λ _ l, on_posted_message l).
Proof.
  intros HI. cbn. split; [by apply on_posted_message_snoc|].
  intros _ w' l' _ _ HI'. destruct (bool_decide _); cbn; [|done].
  by apply on_posted_message_snoc.
Qed.

Lemma InteractiveEmbed_end_on_posted (message : Message) (w : IEWorld)
    (l : list Entry) :
  posted l message → on_posted_message l →
  safe (λ _ l, on_posted_message l) (InteractiveEmbed_end message) w l
       (λ _ l, on_posted_message l).
Proof.
  intros Hm HI. cbn.
  assert (HI' : on_posted_message (l ++ [Requested (ReactionsRemoveAll message)])).
  { apply on_posted_message_snoc; [done|]. by intros ? [= <-]. }
  destruct (ie_killed (ie_this w)) as [patch|]; [|done].
  destruct (content_of _ _) as [c|]; [|done].
  destruct (MessageEmbed_new _ _) as [e h'|]; [|done]. cbn.
  apply on_posted_message_snoc; [done|]. intros ? [= <-]. by apply posted_app_l.
Qed.

Lemma InteractiveEmbed_send_on_posted (channel : Channel) (user : User) (w : IEWorld) :
  safe (λ _ l, on_posted_message l) (InteractiveEmbed_send channel user) w []
       (λ _ l, on_posted_message l).
Proof.
  cbn. split.
  { intros e m Hin Ht. apply list_elem_of_singleton in Hin as ->. done. }
  intros message w1 l1 _ Hres H1.
  match goal with
  | |- safe _ (mbind ?k (forEach ?l ?f)) _ _ _ =>
      change (mbind k (forEach l f)) with
        (forEach l (λ emoji, spawn (InteractiveEmbed_react message emoji));; k tt)
  end.
  apply (safe_forEach_react_inv _ (λ l, on_posted_message l ∧ posted l message)).
  - intros l emoji [Hl Hm]. split; [|by apply posted_app_l].
    apply on_posted_message_snoc; [done|]. by intros ? [= <-].
  - intros l [Hl Hm]. cbn. split_and!; [| |done].
    + intros r u w' l' _ HI'. by apply InteractiveEmbed_collect_on_posted.
    + intros w' l' Hpre HI'.
      apply (InteractiveEmbed_end_on_posted message w' l'); [|done].
      by eapply posted_prefix.
  - split; [done|]. by eexists _, _.
Qed.

Lemma PaginatedEmbed_collect_on_posted (message : Message) (user u : User)
    (max : Z) (reaction : MessageReaction) (w : PEWorld) (l : list Entry) :
  posted l message → on_posted_message l →
  safe (λ _ l, on_posted_message l)
       (PaginatedEmbed_collect message user max reaction u) w l
       (λ _ l, on_posted_message l).
Proof.
  intros Hm HI. cbn. split; [by apply on_posted_message_snoc|].
  intros _ w' l' Hpre _ HI'.
  assert (Hm' : posted l' message).
  { eapply posted_prefix; [done|]. by apply posted_app_l. }
  assert (Hedit : ∀ i, safe (λ _ l, on_posted_message l)
            (Get (λ w0 : PEWorld,
               Await (MessageEdit message (pe_page w0 (pe_index w0)))
                 (λ _ : Message, mret ())))
            (pe_set_index i w') l' (λ _ l, on_posted_message l)).
  { intros i. cbn. split; [|by intros].
    apply on_posted_message_snoc; [done|]. by intros ? [= <-]. }
  destruct (bool_decide (emoji_name reaction = "⬅")); [|
    destruct (bool_decide (emoji_name reaction = "➡"))]; cbn; apply Hedit.
Qed.

Lemma PaginatedEmbed_end_on_posted (message : Message) (w : PEWorld)
    (l : list Entry) :
  posted l message → on_posted_message l →
  safe (λ _ l, on_posted_message l) (PaginatedEmbed_end message) w l
       (λ _ l, on_posted_message l).
Proof.
  intros Hm HI. cbn.
  assert (HI' : on_posted_message (l ++ [Requested (ReactionsRemoveAll message)])).
  { apply on_posted_message_snoc; [done|]. by intros ? [= <-]. }
  destruct (pe_killed (pe_this w)) as [patch|]; [|done].
  destruct (pe_page w (pe_index w)) as [c|]; [|done].
  destruct (MessageEmbed_new _ _) as [e h'|]; [|done]. cbn.
  apply on_posted_message_snoc; [done|]. intros ? [= <-]. by apply posted_app_l.
Qed.

Lemma PaginatedEmbed_send_on_posted (channel : Channel) (user : User) (w : PEWorld) :
  safe (λ _ l, on_posted_message l) (PaginatedEmbed_send channel user) w []
       (λ _ l, on_posted_message l).
Proof.
  cbn. split.
  { intros e m Hin Ht. apply list_elem_of_singleton in Hin as ->. done. }
  intros message w1 l1 _ Hres H1.
  assert (Hm1 : posted l1 message) by by eexists _, _.
  split.
  { apply on_posted_message_snoc; [done|]. by intros ? [= <-]. }
  intros v2 w2 l2 Hpre2 _ H2.
  assert (Hm2 : posted l2 message).
  { eapply posted_prefix; [done|]. by apply posted_app_l. }
  split.
  { apply on_posted_message_snoc; [done|]. by intros ? [= <-]. }
  intros v3 w3 l3 Hpre3 _ H3.
  assert (Hm3 : posted l3 message).
  { eapply posted_prefix; [done|]. by apply posted_app_l. }
  split_and!; [| |done].
  - intros r u w' l' Hpre HI.
    apply (PaginatedEmbed_collect_on_posted message user u _ r w' l'); [|done].
    by eapply posted_prefix.
  - intros w' l' Hpre HI. apply (PaginatedEmbed_end_on_posted message w' l'); [|done].
    by eapply posted_prefix.
Qed.

(** X6: every request that acts on a message (a reaction added, an edit, the
    removal of all reactions) is made on a message that the post of [send]
    resolved with, in either class and in every configuration that [send] can
    lead to: the instances touch no message but their own. *)
Theorem requests_on_posted_message (channel : Channel) (user : User) :
  (∀ (w : IEWorld) (c : Config IEWorld),
     reachable ie_collector_of w (InteractiveEmbed_send channel user) c →
     on_posted_message (log c))
  ∧ (∀ (w : PEWorld) (c : Config PEWorld),
       reachable pe_collector_of w (PaginatedEmbed_send channel user) c →
       on_posted_message (log c)).
Proof.
  split; intros w c Hreach.
  - apply (reachable_safe (λ _ l, on_posted_message l)
             (λ _ l e, on_posted_message_settles l e) _ _ _ _
             (InteractiveEmbed_send_on_posted channel user w)) in Hreach.
    + apply Hreach.
    + by intros ? ? ?%elem_of_nil.
  - apply (reachable_safe (λ _ l, on_posted_message l)
             (λ _ l e, on_posted_message_settles l e) _ _ _ _
             (PaginatedEmbed_send_on_posted channel user w)) in Hreach.
    + apply Hreach.
    + by intros ? ? ?%elem_of_nil.
Qed.

(** *** Events *)

Lemma silent_nil : silent [].
Proof. by intros ? ? ? ?%elem_of_nil. Qed.

Lemma silent_snoc (l : list Entry) (e : Entry) :
  silent l → emits e = false → silent (l ++ [e]).
Proof.
  intros Hl He name reaction user [Hin| <-%list_elem_of_singleton]%elem_of_app;
    [by eapply Hl|done].
Qed.

Lemma PaginatedEmbed_collect_silent (message : Message) (user u : User)
    (max : Z) (reaction : MessageReaction) (w : PEWorld) (l : list Entry) :
  silent l →
  safe (λ _ l, silent l) (PaginatedEmbed_collect message user max reaction u) w l
       (λ _ l, silent l).
Proof.
  intros HI. cbn. split; [by apply silent_snoc|]. intros _ w' l' _ _ HI'.
  assert (Hedit : ∀ i, safe (λ _ l, silent l)
            (Get (λ w0 : PEWorld,
               Await (MessageEdit message (pe_page w0 (pe_index w0)))
                 (λ _ : Message, mret ())))
            (pe_set_index i w') l' (λ _ l, silent l)).
  { intros i. cbn. split; [by apply silent_snoc|by intros]. }
  destruct (bool_decide (emoji_name reaction = "⬅")); [|
    destruct (bool_decide (emoji_name reaction = "➡"))]; cbn; apply Hedit.
Qed.

Lemma PaginatedEmbed_end_silent (message : Message) (w : PEWorld) (l : list Entry) :
  silent l → safe (λ _ l, silent l) (PaginatedEmbed_end message) w l (λ _ l, silent l).
Proof.
  intros HI. cbn.
  assert (HI' : silent (l ++ [Requested (ReactionsRemoveAll message)]))
    by by apply silent_snoc.
  destruct (pe_killed (pe_this w)) as [patch|]; [|done].
  destruct (pe_page w (pe_index w)) as [c|]; [|done].
  destruct (MessageEmbed_new _ _) as [e h'|]; [|done]. cbn.
  by apply silent_snoc.
Qed.

(** X4: a PaginatedEmbed never emits an event: whatever reactions are
    collected and however the requests settle, [send] and the two listeners
    call [emit] nowhere. *)
Theorem PaginatedEmbed_never_emits (channel : Channel) (user : User) (w : PEWorld)
    (c : Config PEWorld) :
  reachable pe_collector_of w (PaginatedEmbed_send channel user) c →
  ∀ name reaction u, Emitted name reaction u ∉ log c.
Proof.
  intros Hreach.
  apply (reachable_safe (λ _ l, silent l)) in Hreach.
  - apply Hreach.
  - intros _ l e He Hl. apply silent_snoc; [done|]. by destruct e.
  - cbn. split; [by apply (silent_snoc []); [apply silent_nil|]|].
    intros message w1 l1 _ _ H1. split; [by apply silent_snoc|].
    intros v2 w2 l2 _ _ H2. split; [by apply silent_snoc|].
    intros v3 w3 l3 _ _ H3. split_and!; [| |done].
    + intros r u w' l' _ HI. by apply PaginatedEmbed_collect_silent.
    + intros w' l' _ HI. by apply PaginatedEmbed_end_silent.
  - apply silent_nil.
Qed.

Lemma events_configured_snoc (emojis : list string) (l : list Entry) (e : Entry) :
  events_configured emojis l → emits e = false → events_configured emojis (l ++ [e]).
Proof.
  intros Hl He name reaction user [Hin| <-%list_elem_of_singleton]%elem_of_app;
    [|done].
  destruct (Hl _ _ _ Hin) as (Hname & Hin' & v & Hv). split_and!; [done|done|].
  exists v. apply elem_of_app. by left.
Qed.

Lemma emits_configured_snoc (emojis : list string) (w : IEWorld) (l : list Entry)
    (e : Entry) :
  emits e = false → emits_configured emojis w l → emits_configured emojis w (l ++ [e]).
Proof. intros He [Hw Hl]. split; [done|]. by apply events_configured_snoc. Qed.

Lemma InteractiveEmbed_collect_emits_configured (emojis : list string)
    (reaction : MessageReaction) (user : User) (w : IEWorld) (l : list Entry) :
  emits_configured emojis w l →
  safe (emits_configured emojis) (InteractiveEmbed_collect reaction user) w l
       (emits_configured emojis).
Proof.
  intros HI. cbn. split; [by apply emits_configured_snoc|].
  intros v w' l' _ Hres [Hw' Hl']. case_bool_decide as Hin; cbn; [|done].
  split; [done|].
  intros name reaction' user' [Hin'|Heq%list_elem_of_singleton]%elem_of_app.
  - destruct (Hl' _ _ _ Hin') as (Hname & Hin'' & v' & Hv'). split_and!; [done|done|].
    exists v'. apply elem_of_app. by left.
  - injection Heq as -> -> ->. split_and!; [done|by rewrite <- Hw'|].
    exists v. apply elem_of_app. by left.
Qed.

Lemma InteractiveEmbed_end_emits_configured (emojis : list string)
    (message : Message) (w : IEWorld) (l : list Entry) :
  emits_configured emojis w l →
  safe (emits_configured emojis) (InteractiveEmbed_end message) w l
       (emits_configured emojis).
Proof.
  intros HI. cbn.
  assert (HI' : emits_configured emojis w
                  (l ++ [Requested (ReactionsRemoveAll message)]))
    by by apply emits_configured_snoc.
  destruct (ie_killed (ie_this w)) as [patch|]; [|done].
  destruct (content_of _ _) as [c|]; [|done].
  destruct (MessageEmbed_new _ _) as [e h'|]; [|done]. cbn.
  apply (emits_configured_snoc emojis (ie_set_embed e h' w)); [done|].
  exact HI'.
Qed.

(** X3: every event that an InteractiveEmbed emits is named after the emoji
    of the reaction it carries, that emoji is one of the emojis the instance
    was built with (which never change), and the removal of the reaction of
    that user has resolved before: a reaction whose removal is rejected or
    still pending fires no event. *)
Theorem InteractiveEmbed_emits_configured (channel : Channel) (user : User)
    (w : IEWorld) (c : Config IEWorld) :
  reachable ie_collector_of w (InteractiveEmbed_send channel user) c →
  ie_emojis (ie_this (world c)) = ie_emojis (ie_this w)
  ∧ ∀ name reaction u, Emitted name reaction u ∈ log c →
      name = emoji_name reaction ∧ name ∈ ie_emojis (ie_this w)
      ∧ ∃ v, Resolved (UsersRemove reaction u) v ∈ log c.
Proof.
  intros Hreach. set (emojis := ie_emojis (ie_this w)).
  apply (reachable_safe (emits_configured emojis)) in Hreach.
  - apply Hreach.
  - intros w' l e He. apply emits_configured_snoc. by destruct e.
  - cbn. split.
    { apply (emits_configured_snoc emojis w []); [done|].
      split; [done|]. by intros ? ? ? ?%elem_of_nil. }
    intros message w1 l1 _ _ H1.
    match goal with
    | |- safe _ (mbind ?k (forEach ?l ?f)) _ _ _ =>
        change (mbind k (forEach l f)) with
          (forEach l (λ emoji, spawn (InteractiveEmbed_react message emoji));; k tt)
    end.
    apply (safe_forEach_react_inv _ (emits_configured emojis w1)); [| |done].
    + intros l emoji. by apply emits_configured_snoc.
    + intros l Hl. cbn. split_and!.
      * intros r u w' l' _ HI'. by apply InteractiveEmbed_collect_emits_configured.
      * intros w' l' _ HI'. by apply InteractiveEmbed_end_emits_configured.
      * exact Hl.
  - split; [done|]. by intros ? ? ? ?%elem_of_nil.
Qed.

(** *** Edits *)

(** The last entry of a history, or an earlier one. *)
Lemma snoc_split {A : Type} (l : list A) (e : A) (l1 : list A) (e' : A) (l2 : list A) :
  l ++ [e] = l1 ++ e' :: l2 →
  (l1 = l ∧ e' = e ∧ l2 = []) ∨ ∃ l2', l2 = l2' ++ [e] ∧ l = l1 ++ e' :: l2'.
Proof.
  destruct l2 as [|x l2 _] using rev_ind.
  - intros [-> ->]%app_inj_tail. by left.
  - rewrite app_comm_cons, (assoc_L (++)). intros [-> ->]%app_inj_tail.
    right. by exists l2.
Qed.

Lemma edits_follow_closing_snoc (killed : option Options) (l : list Entry) (e : Entry) :
  edits_follow_closing killed l →
  (edits e = true → is_Some killed ∧ closing l) →
  edits_follow_closing killed (l ++ [e]).
Proof.
  intros Hl He l1 e' l2 [(-> & -> & _)|(l2' & _ & ->)]%snoc_split He'.
  - by apply He.
  - by eapply Hl.
Qed.

Lemma edits_at_end_snoc (w0 w : IEWorld) (l : list Entry) (e : Entry) :
  edits e = false → edits_at_end w0 w l → edits_at_end w0 w (l ++ [e]).
Proof.
  intros He (Hk & Hedit & Hembed). split_and!; [done| |].
  - apply edits_follow_closing_snoc; [done|]. congruence.
  - intros [Hnone|Hnc]; apply Hembed; [by left|]. right.
    intros Hc. apply Hnc. by apply closing_app_l.
Qed.

Lemma InteractiveEmbed_collect_edits_at_end (w0 : IEWorld)
    (reaction : MessageReaction) (user : User) (w : IEWorld) (l : list Entry) :
  edits_at_end w0 w l →
  safe (edits_at_end w0) (InteractiveEmbed_collect reaction user) w l (edits_at_end w0).
Proof.
  intros HI. cbn. split; [by apply edits_at_end_snoc|].
  intros _ w' l' _ _ HI'. destruct (bool_decide _); cbn; [|done].
  by apply edits_at_end_snoc.
Qed.

Lemma InteractiveEmbed_end_edits_at_end (w0 : IEWorld) (message : Message)
    (w : IEWorld) (l : list Entry) :
  edits_at_end w0 w l →
  safe (edits_at_end w0) (InteractiveEmbed_end message) w l (edits_at_end w0).
Proof.
  intros HI. cbn.
  assert (HI' : edits_at_end w0 w (l ++ [Requested (ReactionsRemoveAll message)]))
    by by apply edits_at_end_snoc.
  destruct (ie_killed (ie_this w)) as [patch|] eqn:Hpatch; [|done].
  destruct (content_of _ _) as [c|]; [|done].
  destruct (MessageEmbed_new _ _) as [e h'|]; [|done]. cbn.
  destruct HI' as (Hk & Hedits & _).
  assert (Hclosing : closing (l ++ [Requested (ReactionsRemoveAll message)])).
  { apply Exists_app. right. by apply Exists_cons_hd. }
  split_and!.
  - simpl. congruence.
  - apply edits_follow_closing_snoc; [done|]. intros _. split; [|done].
    rewrite <- Hk, Hpatch. by eexists.
  - intros [Hnone|Hnc]; [congruence|]. destruct Hnc. by apply closing_app_l.
Qed.

(** X5: an InteractiveEmbed edits its message only when the collector ends
    and only if it has a kill-patch: every request to edit the message has,
    before it in the history, the request to remove all reactions that the
    listener of ['end'] makes first. Until the collector ends, and for good
    without a kill-patch, the embed of the instance is the object it was and
    the heap is untouched. *)
Theorem InteractiveEmbed_edits_at_end (channel : Channel) (user : User)
    (w : IEWorld) (c : Config IEWorld) :
  reachable ie_collector_of w (InteractiveEmbed_send channel user) c →
  (∀ l1 e l2, log c = l1 ++ e :: l2 → edits e = true →
     is_Some (ie_killed (ie_this w)) ∧ closing l1)
  ∧ (ie_killed (ie_this w) = None ∨ ¬ closing (log c) →
     ie_embed (ie_this (world c)) = ie_embed (ie_this w)
     ∧ ie_heap (world c) = ie_heap w).
Proof.
  intros Hreach.
  assert (HI : edits_at_end w w []).
  { split_and!; [done| |done]. intros l1 e l2 Hl. by destruct l1. }
  apply (reachable_safe (edits_at_end w)) in Hreach.
  - destruct Hreach as [(_ & Hedits & Hkeeps) _]. by split.
  - intros w' l e He. apply edits_at_end_snoc. by destruct e.
  - cbn. split; [by apply (edits_at_end_snoc w w [])|].
    intros message w1 l1 _ _ H1.
    match goal with
    | |- safe _ (mbind ?k (forEach ?l ?f)) _ _ _ =>
        change (mbind k (forEach l f)) with
          (forEach l (λ emoji, spawn (InteractiveEmbed_react message emoji));; k tt)
    end.
    apply (safe_forEach_react_inv _ (edits_at_end w w1)); [| |done].
    + intros l emoji. by apply edits_at_end_snoc.
    + intros l Hl. cbn. split_and!.
      * intros r u w' l' _ HI'. by apply InteractiveEmbed_collect_edits_at_end.
      * intros w' l' _ HI'. by apply InteractiveEmbed_end_edits_at_end.
      * exact Hl.
  - done.
Qed.

(** *** The embeds of a paginator *)

Lemma PaginatedEmbed_collect_keeps_embeds (w0 : PEWorld) (message : Message)
    (user u : User) (max : Z) (reaction : MessageReaction) (w : PEWorld)
    (l : list Entry) :
  keeps_embeds w0 w l →
  safe (keeps_embeds w0) (PaginatedEmbed_collect message user max reaction u) w l
       (keeps_embeds w0).
Proof.
  intros HI. cbn. split; [done|]. intros _ w' l' _ _ HI'.
  assert (Hedit : ∀ i, safe (keeps_embeds w0)
            (Get (λ w0 : PEWorld,
               Await (MessageEdit message (pe_page w0 (pe_index w0)))
                 (λ _ : Message, mret ())))
            (pe_set_index i w') l' (keeps_embeds w0)).
  { intros i. cbn. split; [exact HI'|by intros]. }
  destruct (bool_decide (emoji_name reaction = "⬅")); [|
    destruct (bool_decide (emoji_name reaction = "➡"))]; cbn; apply Hedit.
Qed.

Lemma PaginatedEmbed_end_keeps_embeds (w0 : PEWorld) (message : Message)
    (w : PEWorld) (l : list Entry) :
  keeps_embeds w0 w l →
  safe (keeps_embeds w0) (PaginatedEmbed_end message) w l (keeps_embeds w0).
Proof.
  intros HI. cbn. destruct (pe_killed (pe_this w)) as [patch|]; [|done].
  destruct (pe_page w (pe_index w)) as [c|]; [|done].
  destruct (MessageEmbed_new_fresh
              (embed_setup (inr (spread (embed_toJSON c) patch))) (pe_heap w))
    as (e & h' & -> & _ & Hext & _).
  cbn. destruct HI as (? & ? & ?). split_and!; [done|done|].
  simpl. by eapply heap_extends_trans.
Qed.

Lemma PaginatedEmbed_send_keeps_embeds (channel : Channel) (user : User)
    (w : PEWorld) :
  safe (keeps_embeds w) (PaginatedEmbed_send channel user) w [] (keeps_embeds w).
Proof.
  assert (HI : keeps_embeds w w []).
  { split_and!; [done|done|apply heap_extends_refl]. }
  cbn. split; [done|].
  intros message w1 l1 _ _ H1. split; [done|].
  intros v2 w2 l2 _ _ H2. split; [done|].
  intros v3 w3 l3 _ _ H3. split_and!.
  - intros r u w' l' _ HI'. by apply PaginatedEmbed_collect_keeps_embeds.
  - intros w' l' _ HI'. by apply PaginatedEmbed_end_keeps_embeds.
  - exact H3.
Qed.

Lemma PaginatedEmbed_reachable_keeps_embeds (channel : Channel) (user : User)
    (w : PEWorld) (c : Config PEWorld) :
  reachable pe_collector_of w (PaginatedEmbed_send channel user) c →
  keeps_embeds w (world c) (log c).
Proof.
  intros Hreach.
  apply (reachable_safe (keeps_embeds w) (λ _ _ _ _ HI, HI) _ _ _ _
           (PaginatedEmbed_send_keeps_embeds channel user w)) in Hreach.
  - apply Hreach.
  - split_and!; [done|done|apply heap_extends_refl].
Qed.

Lemma keeps_embeds_page (w0 w : PEWorld) (l : list Entry) (i : Z) (content : Embed) :
  keeps_embeds w0 w l → pe_page w0 i = Some content → pe_page w i = Some content.
Proof.
  intros (He & _ & Hext). unfold pe_page. rewrite He.
  destruct (array_get _ i) as [r|]; [|done]. by apply heap_extends_content.
Qed.

(** X12: after construction the paginator never changes its embeds: in
    every configuration that [send] can lead to, the array of embeds and the
    kill-patch are those [send] was called with, every embed and footer
    object of the heap is as it was, and so every page reads as it did. *)
Theorem PaginatedEmbed_keeps_embeds (channel : Channel) (user : User)
    (w : PEWorld) (c : Config PEWorld) :
  reachable pe_collector_of w (PaginatedEmbed_send channel user) c →
  pe_embeds (pe_this (world c)) = pe_embeds (pe_this w)
  ∧ pe_killed (pe_this (world c)) = pe_killed (pe_this w)
  ∧ heap_extends (pe_heap w) (pe_heap (world c))
  ∧ ∀ i content, pe_page w i = Some content → pe_page (world c) i = Some content.
Proof.
  intros Hreach%PaginatedEmbed_reachable_keeps_embeds.
  pose proof Hreach as (? & ? & ?). split_and!; try done.
  intros i content. by apply (keeps_embeds_page w (world c) (log c)).
Qed.

End Requests.

(** ** The collector of an InteractiveEmbed, and a rejected post *)

Section InteractiveEmbedCollector.
Context `{DiscordJS}.

Lemma tasks_settled_singleton {S : Type} (c : Config S) (t : Task S) (e : Entry) :
  tasks c = [t] → tasks (settled c 0 e) = [].
Proof. intros Ht. unfold settled; simpl. by rewrite Ht. Qed.

Lemma listening_mono (w : IEWorld) (l l' : list Entry) :
  l `prefix_of` l' → listening w l → listening w l'.
Proof.
  intros Hl (coll & Hc & Hm). exists coll. split; [done|]. by eapply posted_prefix.
Qed.

Lemma InteractiveEmbed_collect_listening (reaction : MessageReaction) (user : User)
    (w : IEWorld) (l : list Entry) :
  listening w l →
  safe listening (InteractiveEmbed_collect reaction user) w l listening.
Proof.
  intros HI. cbn. split.
  { eapply listening_mono; [|done]. by apply prefix_app_r. }
  intros _ w' l' _ _ HI'. destruct (bool_decide _); cbn; [|done].
  eapply listening_mono; [|done]. by apply prefix_app_r.
Qed.

Lemma InteractiveEmbed_end_listening (message : Message) (w : IEWorld)
    (l : list Entry) :
  listening w l → safe listening (InteractiveEmbed_end message) w l listening.
Proof.
  intros HI. cbn.
  assert (HI' : listening w (l ++ [Requested (ReactionsRemoveAll message)])).
  { eapply listening_mono; [|done]. by apply prefix_app_r. }
  destruct (ie_killed (ie_this w)) as [patch|]; [|done].
  destruct (content_of _ _) as [c|]; [|done].
  destruct (MessageEmbed_new _ _) as [e h'|]; [|done]. cbn.
  eapply (listening_mono (ie_set_embed e h' w)); [by apply prefix_app_r|].
  exact HI'.
Qed.

(** [send] called in [w]: it is suspended at the post, and what it does once
    the post has resolved sets the collector up on the message posted. *)
Lemma InteractiveEmbed_send_task (channel : Channel) (user : User) (w : IEWorld) :
  ∃ k : Message → Async IEWorld InteractiveEmbed,
    tasks (started w (InteractiveEmbed_send channel user))
    = [mkTask (ChannelSend channel (content_of (ie_heap w) (ie_embed (ie_this w)))) k]
    ∧ ∀ message w' l,
        Resolved (ChannelSend channel (content_of (ie_heap w) (ie_embed (ie_this w))))
                 message ∈ l →
        safe listening (k message) w' l listening.
Proof.
  eexists. split; [reflexivity|].
  intros message w' l Hres. cbn.
  match goal with
  | |- safe _ (mbind ?k (forEach ?l ?f)) _ _ _ =>
      change (mbind k (forEach l f)) with
        (forEach l (λ emoji, spawn (InteractiveEmbed_react message emoji));; k tt)
  end.
  apply (safe_forEach_react_inv _ (λ l, posted l message)).
  - intros l0 emoji. apply posted_app_l.
  - intros l0 Hm. cbn. split_and!.
    + intros r u w1 l1 _ HI'. by apply InteractiveEmbed_collect_listening.
    + intros w1 l1 _ HI'. by apply (InteractiveEmbed_end_listening message w1 l1).
    + by eexists.
  - by eexists _, _.
Qed.

(** The configurations that [send] can lead to: [send] is suspended at the
    post; or the post was rejected; or the collector is there. *)
Lemma InteractiveEmbed_send_phases (channel : Channel) (user : User) (w : IEWorld)
    (c : Config IEWorld) :
  ie_collector (ie_this w) = None →
  reachable ie_collector_of w (InteractiveEmbed_send channel user) c →
  c = started w (InteractiveEmbed_send channel user)
  ∨ c = settled (started w (InteractiveEmbed_send channel user)) 0
          (Rejected (ChannelSend channel
                       (content_of (ie_heap w) (ie_embed (ie_this w)))))
  ∨ config_safe listening c.
Proof.
  intros Hnone.
  destruct (InteractiveEmbed_send_task channel user w) as (k & Htasks & Hk).
  revert c. apply rtc_ind_r; [by left|].
  intros c c' _ Hstep [Hc|[Hc|Hc]].
  - destruct Hstep as [c i t r Hi|c i t Hi|c coll r u _ Hcoll _|c coll _ Hcoll];
      subst c.
    + rewrite Htasks in Hi. apply list_lookup_singleton_Some in Hi as [-> <-].
      right; right. apply run_in_fresh_safe.
      * by eapply tasks_settled_singleton.
      * done.
      * done.
      * apply Hk. apply elem_of_app. right. by apply list_elem_of_singleton.
    + rewrite Htasks in Hi. apply list_lookup_singleton_Some in Hi as [-> <-].
      right; left. reflexivity.
    + change (ie_collector (ie_this w) = Some coll) in Hcoll. congruence.
    + change (ie_collector (ie_this w) = Some coll) in Hcoll. congruence.
  - right; left. subst c.
    apply (step_stuck ie_collector_of);
      [by eapply tasks_settled_singleton|exact Hnone|].
    by apply rtc_once.
  - right; right. by eapply (step_safe listening (settles_of_mono _ listening_mono)).
Qed.

(** X8: when the post of [InteractiveEmbed.send] is rejected, [send] ends
    there: the instance is as it was, no reaction is attached, there is no
    collector and no listener, and nothing happens any more. *)
Theorem InteractiveEmbed_send_rejected (channel : Channel) (user : User)
    (w : IEWorld) :
  ie_collector (ie_this w) = None →
  let post := ChannelSend channel (content_of (ie_heap w) (ie_embed (ie_this w))) in
  let c0 := started w (InteractiveEmbed_send channel user) in
  let c := settled c0 0 (Rejected post) in
  step ie_collector_of c0 c
  ∧ world c = w ∧ log c = [Requested post; Rejected post]
  ∧ tasks c = [] ∧ collect_listeners c = [] ∧ end_listeners c = []
  ∧ ∀ c', rtc (step ie_collector_of) c c' → c' = c.
Proof.
  intros Hnone. cbv zeta.
  destruct (InteractiveEmbed_send_task channel user w) as (k & Htasks & _).
  assert (Hempty : tasks (settled (started w (InteractiveEmbed_send channel user)) 0
                     (Rejected (ChannelSend channel
                        (content_of (ie_heap w) (ie_embed (ie_this w)))))) = []).
  { by eapply tasks_settled_singleton. }
  split_and!; try done.
  - apply (step_reject _ _ 0 (mkTask _ k)). by rewrite Htasks.
  - intros c'. by apply step_stuck.
Qed.

(** X9: in [InteractiveEmbed.send] the collector is there exactly when the
    post has resolved, and it listens on the message posted, whatever becomes
    of the reactions that [send] attaches without awaiting: pending, resolved
    or rejected, they neither delay nor undo the collector. *)
Theorem InteractiveEmbed_collector_iff_posted (channel : Channel) (user : User)
    (w : IEWorld) (c : Config IEWorld) :
  ie_collector (ie_this w) = None →
  reachable ie_collector_of w (InteractiveEmbed_send channel user) c →
  (is_Some (ie_collector (ie_this (world c))) ↔ ∃ message, posted (log c) message)
  ∧ ∀ coll, ie_collector (ie_this (world c)) = Some coll →
            posted (log c) (collector_message coll).
Proof.
  intros Hnone Hreach.
  destruct (InteractiveEmbed_send_phases channel user w c Hnone Hreach)
    as [->|[->|((coll & Hcoll & Hposted) & _)]].
  - change (world (started w (InteractiveEmbed_send channel user))) with w.
    rewrite Hnone. split; [|done]. split; [by intros [? ?]|].
    intros (message & ch & content & Hin).
    apply list_elem_of_singleton in Hin. discriminate Hin.
  - change (world (settled (started w (InteractiveEmbed_send channel user)) 0 _))
      with w.
    rewrite Hnone. split; [|done]. split; [by intros [? ?]|].
    intros (message & ch & content & Hin).
    apply elem_of_cons in Hin as [Hin|Hin]; [discriminate Hin|].
    apply list_elem_of_singleton in Hin. discriminate Hin.
  - rewrite Hcoll. split; [|by intros ? [= <-]].
    split; [by eexists|by eexists].
Qed.

End InteractiveEmbedCollector.

(** ** More on the constructor of PaginatedEmbed *)

Section PaginatedEmbedFooters.
Context `{DiscordJS}.

Lemma or_empty_Some (s : string) : or_empty (Some s) = s.
Proof.
  unfold or_empty. destruct (String.eqb s "") eqn:E; [|done].
  by apply String.eqb_eq in E as ->.
Qed.

Lemma footers_only_refl (embeds : list ref) (h : Heap) : footers_only embeds h h.
Proof. split_and!; try done. intros f fo Hf. by exists fo. Qed.

Lemma footers_only_trans (l1 l2 : list ref) (h1 h2 h3 : Heap) :
  footers_only l1 h1 h2 → footers_only l2 h2 h3 → footers_only (l1 ++ l2) h1 h3.
Proof.
  intros (Hb1 & Ho1 & Hf1) (Hb2 & Ho2 & Hf2). split_and!.
  - intros r. by rewrite Hb2, Hb1.
  - intros r [Hr1 Hr2]%not_elem_of_app. by rewrite Ho2, Ho1.
  - intros f fo Hf. destruct (Hf1 f fo Hf) as (fo1 & Hfo1 & Hi1).
    destruct (Hf2 f fo1 Hfo1) as (fo2 & Hfo2 & Hi2).
    exists fo2. split; [done|]. congruence.
Qed.

(** One call of the callback of [map], when it returns. *)
Lemma paginate_footers_only (n i : nat) (r r' : ref) (h h' : Heap) :
  paginate n r i h = Normal r' h' → footers_only [r] h h'.
Proof.
  unfold paginate, setFooter, mbind, js_bind, get_embed, get_footer.
  destruct (embed_objects h !! r) as [o|] eqn:Ho; [|done].
  destruct (footer o) as [f|].
  - destruct (footer_objects h !! f) as [fo0|] eqn:Hf0; [|done]. cbn.
    unfold mret, js_ret. intros [= _ <-]. split_and!; simpl; try done.
    intros f' fo Hf'. destruct (decide (f' = f)) as [->|Hne].
    + rewrite lookup_insert_eq. eexists. split; [done|]. simpl. congruence.
    + rewrite lookup_insert_ne by done. by exists fo.
  - cbn. rewrite Ho. unfold mret, js_ret. intros [= _ <-]. split_and!; simpl.
    + intros r0. destruct (decide (r0 = r)) as [->|Hne].
      * by rewrite lookup_insert_eq, Ho.
      * by rewrite lookup_insert_ne.
    + intros r0 Hr0. rewrite lookup_insert_ne; [done|].
      intros <-. apply Hr0. by apply list_elem_of_singleton.
    + intros f' fo Hf'. exists fo. split; [|done].
      rewrite lookup_insert_ne; [done|]. intros <-.
      assert (Hfresh : footer_objects h !! fresh (dom (footer_objects h)) = None)
        by apply not_elem_of_dom, is_fresh.
      congruence.
Qed.

Lemma array_map_paginate_footers_only (n : nat) (l : list ref) :
  ∀ i l' h h', array_map (paginate n) i l h = Normal l' h' → footers_only l h h'.
Proof.
  induction l as [|r l IH]; intros i l' h h'; cbn.
  - unfold mret, js_ret. intros [= _ <-]. apply footers_only_refl.
  - unfold mbind, js_bind.
    destruct (paginate n r i h) as [r' h1|] eqn:E1; [|done].
    destruct (array_map (paginate n) (S i) l h1) as [l1 h2|] eqn:E2; [|done].
    unfold mret, js_ret. intros [= _ <-].
    apply (footers_only_trans [r] l h h1 h2).
    + by eapply paginate_footers_only.
    + by eapply IH.
Qed.

(** X11: the constructor of PaginatedEmbed touches footers only. When it
    returns, every reference holds an embed object after it exactly when it
    did before, with the same properties beside the footer; the embed objects
    that are not in the array are untouched; and every footer object is
    still there, with the icon it had. *)
Theorem PaginatedEmbed_new_footers_only (embeds : list ref) (killed : option Options)
    (h h' : Heap) (p : PaginatedEmbed) :
  PaginatedEmbed_new embeds killed h = Normal p h' →
  (∀ r, body <$> embed_objects h' !! r = body <$> embed_objects h !! r)
  ∧ (∀ r, r ∉ embeds → embed_objects h' !! r = embed_objects h !! r)
  ∧ (∀ f fo, footer_objects h !! f = Some fo →
       ∃ fo', footer_objects h' !! f = Some fo' ∧ iconURL fo' = iconURL fo).
Proof.
  unfold PaginatedEmbed_new. destruct (decide (length embeds = 0%nat)); [done|].
  unfold mbind, js_bind.
  destruct (array_map _ _ _ _) as [l' h1|] eqn:E; [|done].
  unfold mret, js_ret. intros [= _ <-].
  by apply array_map_paginate_footers_only in E.
Qed.

(** X10: the page labels stack. Two paginators built one after the other over
    the same embeds (each passed once, no footer object shared) label every
    embed twice: after the second construction the footer text is the one the
    first construction left, followed by [" • Page i+1/n"] again. *)
Theorem PaginatedEmbed_new_twice (embeds : list ref) (killed killed' : option Options)
    (h : Heap) :
  (1 ≤ length embeds)%nat → NoDup embeds →
  well_formed h embeds → footers_unshared h embeds →
  ∃ h1 h2,
    PaginatedEmbed_new embeds killed h
    = Normal (mkPaginatedEmbed None embeds killed) h1
    ∧ PaginatedEmbed_new embeds killed' h1
      = Normal (mkPaginatedEmbed None embeds killed') h2
    ∧ ∀ i r, embeds !! i = Some r →
        ∃ t, footer_text h1 r = Some t
          ∧ footer_text h2 r
            = Some (t +:+ " • " +:+ page_label i (length embeds)).
Proof.
  intros Hn Hnd Hwf Hun.
  destruct (array_map_paginate embeds (length embeds) embeds 0 h Hwf Hun)
    as (h1 & Hrun1 & Hwf1 & Hun1 & _ & _ & Honce1); [done|].
  destruct (array_map_paginate embeds (length embeds) embeds 0 h1 Hwf1 Hun1)
    as (h2 & Hrun2 & _ & _ & _ & _ & Honce2); [done|].
  exists h1, h2. split_and!.
  - unfold PaginatedEmbed_new. destruct (decide (length embeds = 0%nat)); [lia|].
    unfold mbind, js_bind. by rewrite Hrun1.
  - unfold PaginatedEmbed_new. destruct (decide (length embeds = 0%nat)); [lia|].
    unfold mbind, js_bind. by rewrite Hrun2.
  - intros i r Hi.
    assert (Hone : ∀ j, j ≠ i → embeds !! j ≠ Some r).
    { intros j Hj Hjr. apply Hj. by eapply NoDup_lookup. }
    destruct (Honce1 i r Hi Hone) as (c & Hc & Hc1).
    destruct (Honce2 i r Hi Hone) as (c1 & Hc1' & Hc2).
    rewrite Hc1 in Hc1'. injection Hc1' as <-.
    unfold footer_text. rewrite Hc1, Hc2. unfold paginated; simpl.
    destruct (content_footer c) as [fo|]; simpl.
    + eexists. split; [reflexivity|]. do 2 f_equal. apply or_empty_Some.
    + by eexists.
Qed.

End PaginatedEmbedFooters.

(** ** The pages of a paginator *)

Section Pages.
Context `{DiscordJS}.

Lemma turned_left (message : Message) (user : User) (max : Z)
    (reply : ∀ R, Request R → R) (reaction : MessageReaction) (w : PEWorld) :
  emoji_name reaction = "⬅" →
  turned message user max reply reaction w
  = pe_set_index (if bool_decide (pe_index w - 1 < 0) then max else pe_index w - 1) w.
Proof.
  intros He. unfold turned, resume. cbn. rewrite He.
  by rewrite (bool_decide_true ("⬅" = "⬅")).
Qed.

Lemma turned_right (message : Message) (user : User) (max : Z)
    (reply : ∀ R, Request R → R) (reaction : MessageReaction) (w : PEWorld) :
  emoji_name reaction = "➡" →
  turned message user max reply reaction w
  = pe_set_index (if bool_decide (pe_index w + 1 > max) then 0 else pe_index w + 1) w.
Proof.
  intros He. unfold turned, resume. cbn. rewrite He.
  by rewrite (bool_decide_false ("➡" = "⬅")), (bool_decide_true ("➡" = "➡")).
Qed.

Lemma turned_right_iter (message : Message) (user : User) (max : Z)
    (reply : ∀ R, Request R → R) (reaction : MessageReaction) (w : PEWorld) (k : nat) :
  emoji_name reaction = "➡" → 0 ≤ pe_index w ≤ max →
  Nat.iter k (turned message user max reply reaction) w
  = pe_set_index ((pe_index w + Z.of_nat k) mod (max + 1)) w.
Proof.
  intros He Hi. induction k as [|k IH].
  - simpl. rewrite Z.add_0_r, Z.mod_small by lia. by destruct w.
  - simpl. rewrite IH, turned_right by done. unfold pe_set_index; simpl. f_equal.
    pose proof (Z.mod_pos_bound (pe_index w + Z.of_nat k) (max + 1)) as Hj.
    replace (pe_index w + Z.of_nat (S k)) with (pe_index w + Z.of_nat k + 1) by lia.
    rewrite <- (Z.add_mod_idemp_l (pe_index w + Z.of_nat k) 1) by lia.
    case_bool_decide.
    + replace ((pe_index w + Z.of_nat k) mod (max + 1) + 1) with (max + 1) by lia.
      by rewrite Z_mod_same_full.
    + symmetry. apply Z.mod_small. lia.
Qed.

Lemma turned_left_iter (message : Message) (user : User) (max : Z)
    (reply : ∀ R, Request R → R) (reaction : MessageReaction) (w : PEWorld) (k : nat) :
  emoji_name reaction = "⬅" → 0 ≤ pe_index w ≤ max →
  Nat.iter k (turned message user max reply reaction) w
  = pe_set_index ((pe_index w - Z.of_nat k) mod (max + 1)) w.
Proof.
  intros He Hi. induction k as [|k IH].
  - simpl. rewrite Z.sub_0_r, Z.mod_small by lia. by destruct w.
  - simpl. rewrite IH, turned_left by done. unfold pe_set_index; simpl. f_equal.
    pose proof (Z.mod_pos_bound (pe_index w - Z.of_nat k) (max + 1)) as Hj.
    replace (pe_index w - Z.of_nat (S k)) with (pe_index w - Z.of_nat k + -1) by lia.
    rewrite <- (Z.add_mod_idemp_l (pe_index w - Z.of_nat k) (-1)) by lia.
    case_bool_decide.
    + replace ((pe_index w - Z.of_nat k) mod (max + 1) + -1)
        with (max + -1 * (max + 1)) by lia.
      rewrite Z_mod_plus_full. symmetry. apply Z.mod_small. lia.
    + symmetry. apply Z.mod_small. lia.
Qed.

(** X14: turning the pages goes round. For an index within the pages, a
    right arrow after a left arrow, or a left arrow after a right arrow,
    leaves the paginator on the page it was on; and so do as many right
    arrows, or as many left arrows, as there are pages. *)
Theorem PaginatedEmbed_arrows_round_trip (message : Message) (user : User) (max : Z)
    (reply : ∀ R, Request R → R) (left right : MessageReaction) (w : PEWorld) :
  emoji_name left = "⬅" → emoji_name right = "➡" →
  0 ≤ pe_index w ≤ max →
  let back := turned message user max reply left in
  let forth := turned message user max reply right in
  forth (back w) = w
  ∧ back (forth w) = w
  ∧ Nat.iter (Z.to_nat (max + 1)) forth w = w
  ∧ Nat.iter (Z.to_nat (max + 1)) back w = w.
Proof.
  intros Hl Hr Hi. cbv zeta. split_and!.
  - rewrite (turned_left _ _ _ _ left), (turned_right _ _ _ _ right) by done.
    destruct w as [this i h].
    unfold pe_set_index; simpl in *. f_equal. repeat case_bool_decide; lia.
  - rewrite (turned_right _ _ _ _ right), (turned_left _ _ _ _ left) by done.
    destruct w as [this i h].
    unfold pe_set_index; simpl in *. f_equal. repeat case_bool_decide; lia.
  - rewrite turned_right_iter, Z2Nat.id by (done || lia).
    replace (pe_index w + (max + 1)) with (pe_index w + 1 * (max + 1)) by lia.
    rewrite Z_mod_plus_full, Z.mod_small by lia. by destruct w.
  - rewrite turned_left_iter, Z2Nat.id by (done || lia).
    replace (pe_index w - (max + 1)) with (pe_index w + -1 * (max + 1)) by lia.
    rewrite Z_mod_plus_full, Z.mod_small by lia. by destruct w.
Qed.

(** X13: from the constructor to the message. For a paginator built over
    embeds that are each passed once, once [send] has set the collector up
    and until the collector ends, the message shows an embed whose footer
    ends with ["Page i+1/n"], [i] being the index of the current page, whatever
    reactions are collected and however the requests settle. *)
Theorem PaginatedEmbed_shows_labelled_page (embeds : list ref)
    (killed : option Options) (h h' : Heap) (p : PaginatedEmbed) (i0 : Z)
    (channel : Channel) (user : User) (c : Config PEWorld) :
  NoDup embeds → well_formed h embeds → footers_unshared h embeds →
  PaginatedEmbed_new embeds killed h = Normal p h' →
  reachable pe_collector_of (mkPEWorld p i0 h') (PaginatedEmbed_send channel user) c →
  is_Some (pe_collector (pe_this (world c))) →
  ¬ closing (log c) →
  ∃ content t,
    shown (log c) = Some (Some content)
    ∧ (content_footer content ≫= text) = Some t
    ∧ endsWith t (page_label (Z.to_nat (pe_index (world c))) (length embeds)) = true.
Proof.
  intros Hnd Hwf Hun Hnew Hreach Hcoll Hnc.
  pose proof (PaginatedEmbed_new_returns _ _ _ _ _ Hnew) as [-> Hn].
  destruct (PaginatedEmbed_new_runs embeds killed h Hn Hwf Hun)
    as (h1 & Hrun & Hlast & _).
  rewrite Hnew in Hrun. injection Hrun as <-.
  set (w := mkPEWorld (mkPaginatedEmbed None embeds killed) i0 h') in *.
  (* the message shows the page at the index *)
  assert (Hshown : shown (log c) = Some (pe_page (world c) (pe_index (world c)))).
  { destruct (PaginatedEmbed_send_shows_page channel user w c eq_refl Hreach)
      as [(Hw & _)|(HI & _)]; [|by apply HI].
    rewrite Hw in Hcoll. by destruct Hcoll. }
  (* the index is within the pages *)
  assert (Hrange : 0 ≤ pe_index (world c) ≤ Z.of_nat (length embeds) - 1).
  { pose proof (PaginatedEmbed_send_index_safe channel user w Hn eq_refl) as Hsafe.
    apply (reachable_safe (index_in_range embeds)
             (settles_of_mono _ (index_in_range_mono embeds)) _ _ _ _ Hsafe)
      in Hreach as [[_ HI] _]; [by apply HI|].
    split; [done|]. by intros [? ?]. }
  (* the pages are those the constructor left *)
  pose proof (PaginatedEmbed_reachable_keeps_embeds channel user w c Hreach) as Hkeeps.
  destruct (lookup_lt_is_Some_2 embeds (Z.to_nat (pe_index (world c)))) as [r Hr];
    [lia|].
  destruct (Hlast _ r Hr) as [c0 Hc0].
  { intros j Hj Hjr. assert (j = Z.to_nat (pe_index (world c))); [|lia].
    by eapply NoDup_lookup. }
  assert (Hpage : pe_page w (pe_index (world c))
                  = Some (paginated (Z.to_nat (pe_index (world c))) (length embeds) c0)).
  { unfold pe_page, array_get; simpl. rewrite decide_True by lia. by rewrite Hr. }
  apply (keeps_embeds_page w (world c) (log c)) in Hpage; [|done].
  destruct (paginated_footer_text (Z.to_nat (pe_index (world c))) (length embeds) c0)
    as (t & Ht & Hends).
  eexists _, t. split_and!; [|exact Ht|exact Hends]. by rewrite Hshown, Hpage.
Qed.

(** X15: an empty kill-patch is a kill-patch. With [{}] the listener of
    ['end'], in either class, still edits the message after removing the
    reactions: to a new embed built from the serialized form of the embed
    shown, unchanged. *)
Theorem collector_end_empty_patch (message : Message) (c : Embed) :
  (∀ w : IEWorld,
     ie_killed (ie_this w) = Some ∅ →
     content_of (ie_heap w) (ie_embed (ie_this w)) = Some c →
     run_log (advance (InteractiveEmbed_end message) w)
     = [Requested (ReactionsRemoveAll message);
        Requested (MessageEdit message (Some (embed_setup (inr (embed_toJSON c)))))])
  ∧ (∀ w : PEWorld,
       pe_killed (pe_this w) = Some ∅ →
       pe_page w (pe_index w) = Some c →
       run_log (advance (PaginatedEmbed_end message) w)
       = [Requested (ReactionsRemoveAll message);
          Requested (MessageEdit message (Some (embed_setup (inr (embed_toJSON c)))))]).
Proof.
  assert (Hspread : spread (embed_toJSON c) ∅ = embed_toJSON c).
  { unfold spread, Options. apply (left_id_L ∅ (∪)). }
  split; intros w Hk Hc; cbn; rewrite Hk, Hc.
  - destruct (MessageEmbed_new_fresh
                (embed_setup (inr (spread (embed_toJSON c) ∅))) (ie_heap w))
      as (e & h' & -> & _ & _ & Hnew).
    cbn. by rewrite Hnew, Hspread.
  - destruct (MessageEmbed_new_fresh
                (embed_setup (inr (spread (embed_toJSON c) ∅))) (pe_heap w))
      as (e & h' & -> & _ & _ & Hnew).
    cbn. by rewrite Hnew, Hspread.
Qed.

End Pages.

(** ** Who interacts *)

Section Authorized.
Context `{DiscordJS}.

(** What [send] does once the post has resolved. *)
Lemma InteractiveEmbed_send_resumed (channel : Channel) (user : User) (w : IEWorld) :
  ∃ k : Message → Async IEWorld InteractiveEmbed,
    tasks (started w (InteractiveEmbed_send channel user))
    = [mkTask (ChannelSend channel (content_of (ie_heap w) (ie_embed (ie_this w)))) k]
    ∧ ∀ message w',
        let run := advance (k message) w' in
        run_log run
        = (λ emoji, Requested (MessageReact message emoji)) <$> ie_emojis (ie_this w')
        ∧ run_pending run = react_task message <$> ie_emojis (ie_this w')
        ∧ run_world run
          = ie_set_collector
              (mkCollector message (λ _ u, bool_decide (user_id u = user_id user))
                           60000 180000) w'
        ∧ run_collect run = [InteractiveEmbed_collect]
        ∧ run_end run = [InteractiveEmbed_end message].
Proof.
  eexists. split; [reflexivity|].
  intros message w'. cbn.
  match goal with
  | |- context [advance (mbind ?k (forEach ?l ?f)) ?w1] =>
      change (advance (mbind k (forEach l f)) w1) with
        (advance (forEach l (λ emoji, spawn (InteractiveEmbed_react message emoji));;
                  k tt) w1);
      rewrite advance_forEach_react
  end.
  unfold run_pending. cbn. rewrite !app_nil_r. by split_and!.
Qed.

(** What the listener of ['end'] leaves. *)
Lemma InteractiveEmbed_end_run (user : User) (message : Message) (w : IEWorld) :
  let run := advance (InteractiveEmbed_end message) w in
  Forall (authorized_entry user) (run_log run)
  ∧ run_pending run = [] ∧ run_collect run = [] ∧ run_end run = []
  ∧ ie_collector (ie_this (run_world run)) = ie_collector (ie_this w).
Proof.
  cbn. destruct (ie_killed (ie_this w)) as [patch|];
    [|by split_and!; try done; repeat constructor].
  destruct (content_of _ _) as [c|];
    [|by split_and!; try done; repeat constructor].
  destruct (MessageEmbed_new _ _) as [e h'|];
    by split_and!; try done; repeat constructor.
Qed.

(** The event loop keeps the interactions those of authorized users. *)
Lemma interacting_step (user : User) (c c' : Config IEWorld) :
  interacting user c → step ie_collector_of c c' → interacting user c'.
Proof.
  intros (Hlog & Htasks & Hcl & coll & Hcoll & Hel & Hfilter) Hstep.
  destruct Hstep as [c i t r Hi|c i t Hi|c coll' reaction u _ Hcoll' Hpass|c coll' _ _].
  - assert (Hrest : Forall (λ t, (∃ message emoji, t = react_task message emoji)
                       ∨ ∃ reaction u, t = collect_task reaction u ∧ authorized user u)
                      (delete i (tasks c))) by by apply Forall_delete.
    destruct (Forall_lookup_1 _ _ _ _ Htasks Hi)
      as [(m' & e & ->)|(r0 & u & -> & Hu)].
    + unfold interacting, run_in, settled; simpl. rewrite !app_nil_r.
      split_and!; [|done|done|by exists coll].
      apply Forall_app. split; [done|]. by apply Forall_singleton.
    + unfold interacting, run_in, settled; simpl.
      destruct (bool_decide _); simpl; rewrite !app_nil_r;
        (split_and!; [|done|done|by exists coll]).
      * apply Forall_app. split; [|by apply Forall_singleton].
        apply Forall_app. split; [done|]. by apply Forall_singleton.
      * apply Forall_app. split; [done|]. by apply Forall_singleton.
  - unfold interacting, settled; simpl.
    split_and!; [|by apply Forall_delete|done|by exists coll].
    apply Forall_app. split; [done|]. by apply Forall_singleton.
  - assert (Hu : authorized user u).
    { unfold ie_collector_of in Hcoll'. rewrite Hcoll in Hcoll'.
      injection Hcoll' as <-. by eapply Hfilter. }
    unfold collect, deliver. rewrite Hcl. simpl.
    unfold interacting, run_in; simpl. rewrite !app_nil_r.
    split_and!; [| |done|by exists coll].
    + apply Forall_app. split; [done|]. by apply Forall_singleton.
    + apply Forall_app. split; [done|]. apply Forall_singleton.
      right. by exists reaction, u.
  - unfold deliver. rewrite Hel. cbn [foldl].
    destruct (InteractiveEmbed_end_run user (collector_message coll) (world c))
      as (Hrun & Hpending & Hcollect & Hend & Hsame).
    unfold interacting, run_in, close.
    cbn [world tasks collect_listeners end_listeners log].
    rewrite Hpending, Hcollect, Hend, Hcl, Hel, !app_nil_r, Hsame.
    split_and!; [|done|done|by exists coll].
    by apply Forall_app.
Qed.

(** The configurations that [send] can lead to: [send] is suspended at the
    post; or the post was rejected; or the collector is set up for [user]. *)
Lemma InteractiveEmbed_send_interacting (channel : Channel) (user : User)
    (w : IEWorld) (c : Config IEWorld) :
  ie_collector (ie_this w) = None →
  reachable ie_collector_of w (InteractiveEmbed_send channel user) c →
  c = started w (InteractiveEmbed_send channel user)
  ∨ c = settled (started w (InteractiveEmbed_send channel user)) 0
          (Rejected (ChannelSend channel
                       (content_of (ie_heap w) (ie_embed (ie_this w)))))
  ∨ interacting user c.
Proof.
  intros Hnone.
  destruct (InteractiveEmbed_send_resumed channel user w) as (k & Htasks & Hk).
  revert c. apply rtc_ind_r; [by left|].
  intros c c' _ Hstep [Hc|[Hc|Hc]].
  - destruct Hstep as [c i t r Hi|c i t Hi|c coll r u _ Hcoll _|c coll _ Hcoll];
      subst c.
    + rewrite Htasks in Hi. apply list_lookup_singleton_Some in Hi as [-> <-].
      right; right.
      destruct (Hk r w) as (Hlog & Hpending & Hworld & Hcollect & Hend).
      unfold interacting, run_in, settled.
      cbn [task_resume task_result task_reply task_request world tasks
           collect_listeners end_listeners log].
      change (world (started w (InteractiveEmbed_send channel user))) with w.
      change (log (started w (InteractiveEmbed_send channel user)))
        with [Requested (ChannelSend channel
                (content_of (ie_heap w) (ie_embed (ie_this w))))].
      change (collect_listeners (started w (InteractiveEmbed_send channel user)))
        with (@nil (MessageReaction → User → Async IEWorld unit)).
      change (end_listeners (started w (InteractiveEmbed_send channel user)))
        with (@nil (Async IEWorld unit)).
      rewrite Htasks, Hlog, Hpending, Hworld, Hcollect, Hend.
      split_and!.
      * apply Forall_app. split; [by repeat constructor|].
        apply Forall_fmap, Forall_true. by intros emoji.
      * apply Forall_fmap, Forall_true. intros emoji. left. by eexists _, _.
      * done.
      * eexists. split_and!; [done|done|]. intros reaction u. simpl.
        by intros ?%bool_decide_eq_true.
    + rewrite Htasks in Hi. apply list_lookup_singleton_Some in Hi as [-> <-].
      right; left. reflexivity.
    + change (ie_collector (ie_this w) = Some coll) in Hcoll. congruence.
    + change (ie_collector (ie_this w) = Some coll) in Hcoll. congruence.
  - right; left. subst c.
    apply (step_stuck ie_collector_of);
      [by eapply tasks_settled_singleton|exact Hnone|].
    by apply rtc_once.
  - right; right. by eapply interacting_step.
Qed.

(** X16: only the user that [send] was called for interacts with an
    InteractiveEmbed. In every configuration that [send] can lead to, every
    event emitted carries a user with the identifier of that user, and every
    reaction removed is a reaction of a user with that identifier. *)
Theorem InteractiveEmbed_interactions_authorized (channel : Channel) (user : User)
    (w : IEWorld) (c : Config IEWorld) :
  ie_collector (ie_this w) = None →
  reachable ie_collector_of w (InteractiveEmbed_send channel user) c →
  (∀ name reaction u, Emitted name reaction u ∈ log c → user_id u = user_id user)
  ∧ (∀ reaction u, Requested (UsersRemove reaction u) ∈ log c →
       user_id u = user_id user).
Proof.
  intros Hnone Hreach.
  assert (Hlog : Forall (authorized_entry user) (log c)).
  { destruct (InteractiveEmbed_send_interacting channel user w c Hnone Hreach)
      as [->|[->|(Hlog & _)]]; [by repeat constructor|by repeat constructor|done]. }
  rewrite Forall_forall in Hlog. split.
  - intros name reaction u Hin. apply (Hlog _ Hin).
  - intros reaction u Hin. apply (Hlog _ Hin).
Qed.

(** X18: an InteractiveEmbed handles every event of its collector once.
    Whatever has happened since [send] set the collector up, a reaction
    collected has exactly one request made, the removal of that reaction of
    that user, with the listener left suspended on it; and the end of the
    collector has the removal of all reactions requested once, on the message
    of the collector, followed by at most one edit of that message, and by
    none without a kill-patch. *)
Theorem InteractiveEmbed_events_handled_once (channel : Channel) (user : User)
    (w : IEWorld) (c : Config IEWorld) (coll : ReactionCollector) :
  ie_collector (ie_this w) = None →
  reachable ie_collector_of w (InteractiveEmbed_send channel user) c →
  ie_collector (ie_this (world c)) = Some coll →
  (∀ reaction u,
     log (collect reaction u c) = log c ++ [Requested (UsersRemove reaction u)]
     ∧ world (collect reaction u c) = world c
     ∧ tasks (collect reaction u c) = tasks c ++ [collect_task reaction u])
  ∧ (let c' := deliver (close c) (end_listeners c) in
     tasks c' = tasks c
     ∧ ∃ l, log c'
            = log c ++ Requested (ReactionsRemoveAll (collector_message coll)) :: l
         ∧ (l = [] ∨ ∃ content,
              l = [Requested (MessageEdit (collector_message coll) content)])
         ∧ (ie_killed (ie_this (world c)) = None → l = [])).
Proof.
  intros Hnone Hreach Hcoll.
  destruct (InteractiveEmbed_send_interacting channel user w c Hnone Hreach)
    as [->|[->|(_ & _ & Hcl & coll' & Hcoll' & Hel & _)]].
  - change (ie_collector (ie_this w) = Some coll) in Hcoll. congruence.
  - change (ie_collector (ie_this w) = Some coll) in Hcoll. congruence.
  - rewrite Hcoll in Hcoll'. injection Hcoll' as <-. split.
    + intros reaction u. unfold collect, deliver. rewrite Hcl. by cbn.
    + cbv zeta. unfold deliver. rewrite Hel. cbn [foldl]. unfold run_in, close.
      cbn [world tasks collect_listeners end_listeners log].
      destruct (InteractiveEmbed_end_run user (collector_message coll) (world c))
        as (_ & -> & _). rewrite app_nil_r. split; [done|].
      cbn. destruct (ie_killed (ie_this (world c))) as [patch|];
        [|by exists []; split_and!; [done|left|]].
      destruct (content_of _ _) as [content|];
        [|by exists []; split_and!; [done|left|]].
      destruct (MessageEmbed_new _ _) as [e h'|];
        [|by exists []; split_and!; [done|left|]].
      cbn. eexists. split_and!; [done|right; by eexists|done].
Qed.

Lemma PaginatedEmbed_collect_removes (message : Message) (user u : User)
    (max : Z) (reaction : MessageReaction) (w : PEWorld) (l : list Entry) :
  Forall (removes_reaction_of user) l →
  safe (λ _ l, Forall (removes_reaction_of user) l)
       (PaginatedEmbed_collect message user max reaction u) w l
       (λ _ l, Forall (removes_reaction_of user) l).
Proof.
  intros HI. cbn. split.
  { apply Forall_app. split; [done|]. by apply Forall_singleton. }
  intros _ w' l' _ _ HI'.
  assert (Hedit : ∀ i, safe (λ _ l, Forall (removes_reaction_of user) l)
            (Get (λ w0 : PEWorld,
               Await (MessageEdit message (pe_page w0 (pe_index w0)))
                 (λ _ : Message, mret ())))
            (pe_set_index i w') l' (λ _ l, Forall (removes_reaction_of user) l)).
  { intros i. cbn. split; [|by intros].
    apply Forall_app. split; [done|]. by apply Forall_singleton. }
  destruct (bool_decide (emoji_name reaction = "⬅")); [|
    destruct (bool_decide (emoji_name reaction = "➡"))]; cbn; apply Hedit.
Qed.

Lemma PaginatedEmbed_end_removes (user : User) (message : Message) (w : PEWorld)
    (l : list Entry) :
  Forall (removes_reaction_of user) l →
  safe (λ _ l, Forall (removes_reaction_of user) l) (PaginatedEmbed_end message) w l
       (λ _ l, Forall (removes_reaction_of user) l).
Proof.
  intros HI. cbn.
  assert (HI' : Forall (removes_reaction_of user)
                  (l ++ [Requested (ReactionsRemoveAll message)])).
  { apply Forall_app. split; [done|]. by apply Forall_singleton. }
  destruct (pe_killed (pe_this w)) as [patch|]; [|done].
  destruct (pe_page w (pe_index w)) as [c|]; [|done].
  destruct (MessageEmbed_new _ _) as [e h'|]; [|done]. cbn.
  apply Forall_app. split; [done|]. by apply Forall_singleton.
Qed.

(** X17: the listener of ['collect'] of a paginator ignores who reacted: the
    reaction it removes is always that of the very user that [send] was
    called for. *)
Theorem PaginatedEmbed_removes_reaction_of_user (channel : Channel) (user : User)
    (w : PEWorld) (c : Config PEWorld) :
  reachable pe_collector_of w (PaginatedEmbed_send channel user) c →
  ∀ reaction u, Requested (UsersRemove reaction u) ∈ log c → u = user.
Proof.
  intros Hreach.
  assert (Hsnoc : ∀ l e, removes_reaction_of user e →
            Forall (removes_reaction_of user) l →
            Forall (removes_reaction_of user) (l ++ [e])).
  { intros l e He Hl. apply Forall_app. split; [done|]. by apply Forall_singleton. }
  apply (reachable_safe (λ _ l, Forall (removes_reaction_of user) l)) in Hreach.
  - destruct Hreach as [Hlog _]. rewrite Forall_forall in Hlog.
    intros reaction u Hin. apply (Hlog _ Hin).
  - intros _ l e He Hl. apply Hsnoc; [|done]. by destruct e.
  - cbn. split; [by repeat constructor|].
    intros message w1 l1 _ _ H1. split; [by apply Hsnoc|].
    intros v2 w2 l2 _ _ H2. split; [by apply Hsnoc|].
    intros v3 w3 l3 _ _ H3. split_and!; [| |done].
    + intros r u w' l' _ HI.
      by apply (PaginatedEmbed_collect_removes message user u _ r w' l').
    + intros w' l' _ HI. by apply (PaginatedEmbed_end_removes user message w' l').
  - constructor.
Qed.

End Authorized.

(** * Concrete runs

    The theorems above applied on the small instance, and the inputs on which
    the claims that the code does not meet fail. *)

#[local] Existing Instance Demo.discord.

Lemma resolve_step {S : Type} (collector_of : S → option ReactionCollector)
    (reply : ∀ R, Request R → R) (i : nat) (c : Config S) :
  is_Some (tasks c !! i) → step collector_of c (resolve reply i c).
Proof.
  unfold resolve. intros [t Ht]. rewrite Ht. by apply step_resolve.
Qed.

Lemma Demo_armed_reachable :
  reachable pe_collector_of (Demo.page 7) (PaginatedEmbed_send tt "u1") Demo.armed.
Proof.
  unfold reachable, Demo.armed.
  eapply rtc_l; [apply (resolve_step _ Demo.reply 0); eexists; reflexivity|].
  eapply rtc_l; [apply (resolve_step _ Demo.reply 0); eexists; reflexivity|].
  eapply rtc_l; [apply (resolve_step _ Demo.reply 0); eexists; reflexivity|].
  apply rtc_refl.
Qed.

Lemma Demo_heap_well_formed : well_formed Demo.heap [1; 2]%positive.
Proof.
  intros r Hr. apply elem_of_cons in Hr as [->|Hr]; [eexists; reflexivity|].
  apply list_elem_of_singleton in Hr as ->. eexists; reflexivity.
Qed.

Lemma Demo_heap_unshared : footers_unshared Demo.heap [1; 2]%positive.
Proof.
  intros r r' f Hr Hr'.
  apply elem_of_cons in Hr as [->|Hr]; [intros Hf; discriminate Hf|].
  apply list_elem_of_singleton in Hr as ->.
  apply elem_of_cons in Hr' as [->|Hr']; [intros _ Hf; discriminate Hf|].
  by apply list_elem_of_singleton in Hr' as ->.
Qed.

Lemma Demo_paginator_constructed :
  PaginatedEmbed_new [1; 2]%positive (Some Demo.patch) Demo.heap
  = Normal Demo.paginator Demo.paginated_heap.
Proof. reflexivity. Qed.

(** C1, on the instance: a right arrow on the last of two pages. *)
Lemma PaginatedEmbed_collect_arrow_witness :
  pe_index (run_world (resume
    (advance (PaginatedEmbed_collect (H := Demo.discord) 5%nat "u1" (Z.of_nat 2 - 1)
                "➡" "u1") (Demo.page 1))
    Demo.reply (Demo.page 1))) = 0.
Proof.
  destruct (PaginatedEmbed_collect_arrow (H := Demo.discord) 5%nat "u1" "u1" "➡" 2
              (Demo.page 1)
              (Demo.page 1) Demo.reply) as (_ & _ & Hturn).
  destruct Hturn as (-> & _);
    [reflexivity|change (0 ≤ 1 ≤ 2 - 1); lia|right; reflexivity|reflexivity].
Defined.

(** C3, on the instance: the InteractiveEmbed over the second embed ends with
    its kill-patch. *)
Lemma collector_end_applies_patch_witness :
  ends_with_patch (H := Demo.discord) 5%nat (Some Demo.patch) Demo.interactive_shown
    (advance (InteractiveEmbed_end 5%nat) Demo.interactive_world).
Proof.
  destruct (collector_end_applies_patch (H := Demo.discord) 5%nat
              Demo.interactive_shown) as [Hie _].
  destruct (Hie Demo.interactive_world) as [_ Hpatch]; [reflexivity|].
  exact Hpatch.
Defined.

(** C4, as stated, fails when an embed object is passed twice: the one footer
    gets both labels, and at the first position it does not end with the
    label of that position. *)
Lemma PaginatedEmbed_new_same_embed_twice :
  ∃ h', PaginatedEmbed_new [1; 1]%positive None Demo.heap
        = Normal (mkPaginatedEmbed None [1; 1]%positive None) h'
    ∧ footer_text h' 1%positive = Some "Page 1/2 • Page 2/2"
    ∧ endsWith "Page 1/2 • Page 2/2" (page_label 0 2) = false
    ∧ ¬ footers_end_with_pages h' [1; 1]%positive.
Proof.
  eexists. split; [reflexivity|]. split; [reflexivity|]. split; [reflexivity|].
  intros Hall. destruct (Hall 0%nat 1%positive eq_refl) as (t & Ht & Hends).
  change (Some "Page 1/2 • Page 2/2" = Some t) in Ht. injection Ht as <-.
  change (false = true) in Hends. discriminate Hends.
Qed.

(** The same happens to two embeds that have one footer object: the
    constructor returns, and the one footer gets both labels. *)
Example PaginatedEmbed_new_shared_footer :
  ∃ h', PaginatedEmbed_new [1; 2]%positive None Demo.shared
        = Normal (mkPaginatedEmbed None [1; 2]%positive None) h'
    ∧ footer_text h' 1%positive = Some "hi • Page 1/2 • Page 2/2"
    ∧ endsWith "hi • Page 1/2 • Page 2/2" (page_label 0 2) = false.
Proof. eexists. split; [reflexivity|]. split; reflexivity. Qed.

(** C4, on the instance: the two embeds, each passed once. *)
Lemma PaginatedEmbed_new_pages_witness :
  ∃ h', PaginatedEmbed_new [1; 2]%positive (Some Demo.patch) Demo.heap
        = Normal (mkPaginatedEmbed None [1; 2]%positive (Some Demo.patch)) h'
    ∧ ∃ t, footer_text h' 2%positive = Some t
           ∧ endsWith t (page_label 1 2) = true.
Proof.
  destruct (PaginatedEmbed_new_pages [1; 2]%positive (Some Demo.patch) Demo.heap)
    as [_ Hnew].
  destruct Hnew as (h' & Hrun & Hpages);
    [simpl; lia|apply Demo_heap_well_formed|].
  exists h'. split; [exact Hrun|]. apply (Hpages 1%nat 2%positive); [reflexivity|].
  intros [|[|j]] r' Hj Hr'; [lia|lia|discriminate Hr'].
Defined.

(** C5, on the instance: the collector of the paginator, once [send] has set
    it up. *)
Lemma send_configures_collector_witness :
  ∃ coll, pe_collector (pe_this (world Demo.armed)) = Some coll
          ∧ configured_for "u1" coll.
Proof.
  eexists. split; [reflexivity|].
  destruct (send_configures_collector (H := Demo.discord) tt "u1" Demo.reply)
    as (_ & _ & _ & Hpe).
  apply (Hpe (Demo.page 7) Demo.armed);
    [reflexivity|apply Demo_armed_reachable|reflexivity].
Defined.



(** C7, as stated, fails: a reaction that is no arrow still has the message
    edited. *)
Lemma PaginatedEmbed_collect_other_edits :
  run_log (resume
    (advance (PaginatedEmbed_collect (H := Demo.discord) 5%nat "u1" 1 "👍" "u1")
             (Demo.page 0))
    Demo.reply (Demo.page 0))
  = [Requested (MessageEdit 5%nat (Some Demo.first_page))].
Proof. reflexivity. Qed.

(** C7, on the instance. *)
Lemma PaginatedEmbed_collect_other_witness :
  pe_index (run_world (resume
    (advance (PaginatedEmbed_collect (H := Demo.discord) 5%nat "u1" 1 "👍" "u1")
             (Demo.page 1))
    Demo.reply (Demo.page 1))) = 1
  ∧ run_log (resume
      (advance (PaginatedEmbed_collect (H := Demo.discord) 5%nat "u1" 1 "👍" "u1")
               (Demo.page 1))
      Demo.reply (Demo.page 1))
    = [Requested (MessageEdit 5%nat (pe_page (Demo.page 1) 1))].
Proof.
  destruct (PaginatedEmbed_collect_other (H := Demo.discord) 5%nat "u1" "u1" "👍" 1
              (Demo.page 1) (Demo.page 1) (Demo.page 1) Demo.reply)
    as (_ & (-> & -> & _) & _); [discriminate|discriminate|].
  split; reflexivity.
Defined.

(** C8, as stated, fails for the paginator: after the post [send] is
    suspended at the first [react], and there is no collector yet. *)
Lemma PaginatedEmbed_send_awaits_reactions :
  awaits (resume (advance (PaginatedEmbed_send (H := Demo.discord) tt "u1")
                          (Demo.page 7))
                 Demo.reply (Demo.page 7))
         (MessageReact (H := Demo.discord) 5%nat "⬅")
  ∧ pe_collector (pe_this (run_world
      (resume (advance (PaginatedEmbed_send (H := Demo.discord) tt "u1")
                       (Demo.page 7))
              Demo.reply (Demo.page 7)))) = None.
Proof. split; [eexists; reflexivity|reflexivity]. Qed.

(** C8, on the instance: the collector of the paginator is there, and both
    arrows have resolved. *)
Lemma send_attaches_reactions_witness :
  ∃ coll, pe_collector (pe_this (world Demo.armed)) = Some coll
          ∧ arrows_attached coll (log Demo.armed).
Proof.
  eexists. split; [reflexivity|].
  destruct (send_attaches_reactions (H := Demo.discord) tt "u1" Demo.reply)
    as (_ & _ & _ & Hpe).
  apply (Hpe (Demo.page 7) Demo.armed);
    [reflexivity|apply Demo_armed_reachable|reflexivity].
Defined.

(** C9, on the instance: [send] has set the collector up and no reaction has
    been collected. *)
Lemma PaginatedEmbed_index_in_range_witness :
  0 ≤ pe_index (world Demo.armed) ≤ Z.of_nat (length [1; 2]%positive) - 1.
Proof.
  apply (PaginatedEmbed_index_in_range [1; 2]%positive (Some Demo.patch) Demo.heap
           Demo.paginated_heap Demo.paginator 7 tt "u1" Demo.armed).
  - apply Demo_paginator_constructed.
  - apply Demo_armed_reachable.
  - eexists. reflexivity.
Defined.

(** C10, on the instance: the embed of the InteractiveEmbed is a new object
    that holds a copy of the second embed, and the two embeds of the caller
    are as they were. *)
Lemma InteractiveEmbed_copies_embed_witness :
  ∃ this h1,
    InteractiveEmbed_new ["✅"; "❌"] (inl 2%positive) (Some Demo.patch) Demo.heap
    = Normal this h1
    ∧ embed_objects Demo.heap !! ie_embed this = None
    ∧ heap_extends Demo.heap h1
    ∧ content_of h1 (ie_embed this) = Some Demo.interactive_shown.
Proof.
  destruct (InteractiveEmbed_copies_embed ["✅"; "❌"] (inl 2%positive)
              (Some Demo.patch) Demo.heap (inl Demo.interactive_shown))
    as (this & h1 & Hrun & _ & (Hfresh & Hext & Hcontent) & _).
  { exists Demo.interactive_shown. split; reflexivity. }
  exists this, h1. split; [exact Hrun|]. split; [exact Hfresh|].
  split; [exact Hext|exact Hcontent].
Defined.

(** The scenarios of the specification: three right arrows on a paginator of
    three embeds show the pages 0, 1, 2 and 0 again. *)
Example three_right_arrows :
  pe_index (world Demo.three_pages) = 0
  ∧ pe_index (world (Demo.click "➡" Demo.three_pages)) = 1
  ∧ pe_index (world (Demo.click "➡" (Demo.click "➡" Demo.three_pages))) = 2
  ∧ pe_index (world (Demo.click "➡" (Demo.click "➡"
                       (Demo.click "➡" Demo.three_pages)))) = 0.
Proof. split_and!; reflexivity. Qed.

(** The authorized user reacts with the first emoji of an InteractiveEmbed:
    the reaction is removed, then one event fires. *)
Example check_mark_fires_once :
  log (resolve Demo.reply 2 (collect "✅" "u1" Demo.interactive_sent))
  = log Demo.interactive_sent
    ++ [Requested (UsersRemove (H := Demo.discord) "✅" "u1");
        Resolved (UsersRemove (H := Demo.discord) "✅" "u1") "✅";
        Emitted "✅" "✅" "u1"].
Proof. reflexivity. Qed.

(** ** The further properties, on the instance *)

Lemma not_closing_existsb `{DiscordJS} (l : list Entry) :
  existsb closes l = false → ¬ closing l.
Proof.
  induction l as [|e l IH]; simpl.
  - by intros _ ?%Exists_nil.
  - intros [He Hl]%orb_false_iff [Hc|Hc]%Exists_cons; [congruence|by apply IH].
Qed.

Lemma Demo_embeds_NoDup : NoDup [1; 2]%positive.
Proof.
  apply NoDup_cons. split; [|apply NoDup_singleton].
  intros Hin. apply list_elem_of_singleton in Hin. discriminate Hin.
Qed.

Lemma Demo_interactive_sent_reachable :
  reachable ie_collector_of Demo.interactive_world (InteractiveEmbed_send tt "u1")
            Demo.interactive_sent.
Proof.
  unfold reachable, Demo.interactive_sent.
  eapply rtc_l; [apply (resolve_step _ Demo.reply 0); eexists; reflexivity|].
  apply rtc_refl.
Qed.

Lemma Demo_check_mark_reachable :
  reachable ie_collector_of Demo.interactive_world (InteractiveEmbed_send tt "u1")
            Demo.check_mark.
Proof.
  unfold reachable. etrans; [apply Demo_interactive_sent_reachable|].
  unfold Demo.check_mark.
  eapply rtc_l.
  { eapply (step_collect ie_collector_of Demo.interactive_sent _ "✅" "u1");
      reflexivity. }
  eapply rtc_l; [apply (resolve_step _ Demo.reply 2); eexists; reflexivity|].
  apply rtc_refl.
Qed.

(** X1, on the instance: the paginator, its collector set up, shows its
    first page. *)
Lemma PaginatedEmbed_shows_page_witness :
  shown (log Demo.armed)
  = Some (pe_page (world Demo.armed) (pe_index (world Demo.armed))).
Proof.
  apply (PaginatedEmbed_shows_page (H := Demo.discord) tt "u1" (Demo.page 7) Demo.armed).
  - reflexivity.
  - apply Demo_armed_reachable.
  - eexists. reflexivity.
  - apply not_closing_existsb. reflexivity.
Defined.

(** X2, on the instance: the InteractiveEmbed shows the copy of the second
    embed. *)
Lemma InteractiveEmbed_shows_embed_witness :
  Some Demo.interactive_shown
  = content_of (ie_heap (world Demo.interactive_sent))
               (ie_embed (ie_this (world Demo.interactive_sent))).
Proof.
  apply (InteractiveEmbed_shows_embed (H := Demo.discord) tt "u1" Demo.interactive_world
           Demo.interactive_sent (Some Demo.interactive_shown)).
  - apply Demo_interactive_sent_reachable.
  - reflexivity.
Defined.

(** X3, on the instance: the event of the check mark. *)
Lemma InteractiveEmbed_emits_configured_witness :
  "✅" = emoji_name (DiscordJS := Demo.discord) "✅"
  ∧ "✅" ∈ ie_emojis (ie_this Demo.interactive_world)
  ∧ ∃ v, Resolved (UsersRemove (H := Demo.discord) "✅" "u1") v ∈ log Demo.check_mark.
Proof.
  destruct (InteractiveEmbed_emits_configured (H := Demo.discord) tt "u1" Demo.interactive_world
              Demo.check_mark Demo_check_mark_reachable) as [_ Hevents].
  apply Hevents. apply (list_elem_of_lookup_2 _ 6). reflexivity.
Defined.

(** X4, on the instance: the paginator, its collector set up, has emitted
    nothing. *)
Lemma PaginatedEmbed_never_emits_witness :
  Forall (λ e, emits e = false) (log Demo.armed).
Proof.
  apply Forall_forall. intros e He.
  destruct e as [R q|R q r|R q|name reaction u]; try reflexivity.
  destruct (PaginatedEmbed_never_emits (H := Demo.discord) tt "u1" (Demo.page 7) Demo.armed
              Demo_armed_reachable name reaction u He).
Defined.

(** X5, on the instance: the InteractiveEmbed, its collector set up, has the
    embed it was built with. *)
Lemma InteractiveEmbed_edits_at_end_witness :
  ie_embed (ie_this (world Demo.interactive_sent)) = ie_embed Demo.interactive
  ∧ ie_heap (world Demo.interactive_sent) = Demo.interactive_heap.
Proof.
  destruct (InteractiveEmbed_edits_at_end (H := Demo.discord) tt "u1" Demo.interactive_world
              Demo.interactive_sent Demo_interactive_sent_reachable) as [_ Hkeeps].
  apply Hkeeps. right. apply not_closing_existsb. reflexivity.
Defined.

(** X6, on the instance: the left arrow of the paginator is on the message
    posted. *)
Lemma requests_on_posted_message_witness :
  posted (H := Demo.discord) (log Demo.armed) 5%nat.
Proof.
  destruct (requests_on_posted_message (H := Demo.discord) tt "u1") as [_ Hpe].
  apply (Hpe (Demo.page 7) Demo.armed Demo_armed_reachable
           (Requested (MessageReact (H := Demo.discord) 5%nat "⬅"))).
  - apply (list_elem_of_lookup_2 _ 2). reflexivity.
  - reflexivity.
Defined.

(** X7, on the instance: the post of the paginator is rejected. *)
Lemma PaginatedEmbed_send_rejected_witness :
  ∃ t, tasks Demo.sent !! 0%nat = Some t
       ∧ world (settled Demo.sent 0 (Rejected (task_request t))) = Demo.page 7
       ∧ tasks (settled Demo.sent 0 (Rejected (task_request t))) = [].
Proof.
  eexists. split; [reflexivity|].
  destruct (PaginatedEmbed_send_rejected (H := Demo.discord) tt "u1" (Demo.page 7) Demo.sent 0 _
              eq_refl (rtc_refl _ _) eq_refl eq_refl) as (_ & Hworld & Htasks & _).
  split; [exact Hworld|exact Htasks].
Defined.

(** X8, on the instance: the post of the InteractiveEmbed is rejected. *)
Lemma InteractiveEmbed_send_rejected_witness :
  tasks (settled (started Demo.interactive_world (InteractiveEmbed_send tt "u1")) 0
           (Rejected (ChannelSend (H := Demo.discord) tt (Some Demo.interactive_shown))))
  = [].
Proof.
  destruct (InteractiveEmbed_send_rejected (H := Demo.discord) tt "u1" Demo.interactive_world eq_refl)
    as (_ & _ & _ & Htasks & _).
  exact Htasks.
Defined.

(** X9, on the instance: the collector of the InteractiveEmbed listens on the
    message posted, its two reactions still pending. *)
Lemma InteractiveEmbed_collector_iff_posted_witness :
  posted (H := Demo.discord) (log Demo.interactive_sent) 5%nat.
Proof.
  destruct (InteractiveEmbed_collector_iff_posted (H := Demo.discord) tt "u1" Demo.interactive_world
              Demo.interactive_sent eq_refl Demo_interactive_sent_reachable)
    as [_ Hcoll].
  apply (Hcoll _ eq_refl).
Defined.

(** X10, on the instance: the two embeds paginated twice. *)
Lemma PaginatedEmbed_new_twice_witness :
  ∃ h1 h2,
    PaginatedEmbed_new [1; 2]%positive None Demo.heap
    = Normal (mkPaginatedEmbed None [1; 2]%positive None) h1
    ∧ PaginatedEmbed_new [1; 2]%positive None h1
      = Normal (mkPaginatedEmbed None [1; 2]%positive None) h2
    ∧ ∃ t, footer_text h1 2%positive = Some t
           ∧ footer_text h2 2%positive = Some (t +:+ " • " +:+ page_label 1 2).
Proof.
  destruct (PaginatedEmbed_new_twice [1; 2]%positive None None Demo.heap)
    as (h1 & h2 & Hrun1 & Hrun2 & Hlabels);
    [simpl; lia|apply Demo_embeds_NoDup|apply Demo_heap_well_formed
    |apply Demo_heap_unshared|].
  exists h1, h2. split; [exact Hrun1|]. split; [exact Hrun2|].
  apply (Hlabels 1%nat 2%positive). reflexivity.
Defined.

(** X11, on the instance: the footer object of the second embed keeps its
    icon. *)
Lemma PaginatedEmbed_new_footers_only_witness :
  ∃ fo', footer_objects Demo.paginated_heap !! 1%positive = Some fo'
         ∧ iconURL fo' = None.
Proof.
  destruct (PaginatedEmbed_new_footers_only [1; 2]%positive (Some Demo.patch)
              Demo.heap Demo.paginated_heap Demo.paginator
              Demo_paginator_constructed) as (_ & _ & Hfooters).
  apply (Hfooters 1%positive (mkFooter (Some "hi") None)). reflexivity.
Defined.

(** X12, on the instance: the paginator, its collector set up, has the embeds
    it was built with. *)
Lemma PaginatedEmbed_keeps_embeds_witness :
  pe_embeds (pe_this (world Demo.armed)) = pe_embeds (pe_this (Demo.page 7)).
Proof.
  destruct (PaginatedEmbed_keeps_embeds (H := Demo.discord) tt "u1" (Demo.page 7) Demo.armed
              Demo_armed_reachable) as [Hembeds _].
  exact Hembeds.
Defined.

(** X13, on the instance: the page that the paginator shows is labelled. *)
Lemma PaginatedEmbed_shows_labelled_page_witness :
  ∃ content t,
    shown (log Demo.armed) = Some (Some content)
    ∧ (content_footer content ≫= text) = Some t
    ∧ endsWith t (page_label (Z.to_nat (pe_index (world Demo.armed)))
                             (length [1; 2]%positive)) = true.
Proof.
  apply (PaginatedEmbed_shows_labelled_page [1; 2]%positive (Some Demo.patch)
           Demo.heap Demo.paginated_heap Demo.paginator 7 tt "u1" Demo.armed).
  - apply Demo_embeds_NoDup.
  - apply Demo_heap_well_formed.
  - apply Demo_heap_unshared.
  - apply Demo_paginator_constructed.
  - apply Demo_armed_reachable.
  - eexists. reflexivity.
  - apply not_closing_existsb. reflexivity.
Defined.

(** X14, on the instance: a left arrow on the first of two pages, then a
    right arrow. *)
Lemma PaginatedEmbed_arrows_round_trip_witness :
  turned (H := Demo.discord) 5%nat "u1" 1 Demo.reply "➡"
    (turned (H := Demo.discord) 5%nat "u1" 1 Demo.reply "⬅" (Demo.page 0))
  = Demo.page 0.
Proof.
  destruct (PaginatedEmbed_arrows_round_trip (H := Demo.discord) 5%nat "u1" 1
              Demo.reply "⬅" "➡" (Demo.page 0)) as (Hround & _);
    [reflexivity|reflexivity|change (0 ≤ 0 ≤ 1); lia|].
  exact Hround.
Defined.

(** X15, on the instance: an InteractiveEmbed with the kill-patch [{}]. *)
Lemma collector_end_empty_patch_witness :
  run_log (advance (InteractiveEmbed_end 5%nat) Demo.unpatched)
  = [Requested (ReactionsRemoveAll (H := Demo.discord) 5%nat);
     Requested (MessageEdit (H := Demo.discord) 5%nat
                  (Some (embed_setup (inr (embed_toJSON Demo.interactive_shown)))))].
Proof.
  destruct (collector_end_empty_patch (H := Demo.discord) 5%nat
              Demo.interactive_shown) as [Hie _].
  apply (Hie Demo.unpatched); reflexivity.
Defined.

Lemma Demo_turning_reachable :
  reachable pe_collector_of (Demo.page 7) (PaginatedEmbed_send tt "u1") Demo.turning.
Proof.
  unfold reachable. etrans; [apply Demo_armed_reachable|].
  apply rtc_once.
  eapply (step_collect pe_collector_of Demo.armed _ "➡" "u1"); reflexivity.
Qed.

(** X16, on the instance: the check mark of the authorized user. *)
Lemma InteractiveEmbed_interactions_authorized_witness :
  Forall (authorized_entry (H := Demo.discord) "u1") (log Demo.check_mark).
Proof.
  destruct (InteractiveEmbed_interactions_authorized (H := Demo.discord) tt "u1"
              Demo.interactive_world Demo.check_mark eq_refl
              Demo_check_mark_reachable) as [Hevents Hremovals].
  apply Forall_forall. intros e He.
  destruct e as [R q|R q r|R q|name reaction u]; try exact I.
  - destruct q; try exact I. by eapply Hremovals.
  - by eapply Hevents.
Defined.

(** X17, on the instance: the right arrow of the authorized user. *)
Lemma PaginatedEmbed_removes_reaction_of_user_witness :
  Forall (removes_reaction_of (H := Demo.discord) "u1") (log Demo.turning).
Proof.
  apply Forall_forall. intros e He.
  destruct e as [R q|R q r|R q|name reaction u]; try exact I.
  destruct q; try exact I.
  by eapply (PaginatedEmbed_removes_reaction_of_user (H := Demo.discord) tt "u1"
               (Demo.page 7) Demo.turning Demo_turning_reachable).
Defined.

(** X18, on the instance: the check mark of the authorized user, collected. *)
Lemma InteractiveEmbed_events_handled_once_witness :
  log (collect "✅" "u1" Demo.interactive_sent)
  = log Demo.interactive_sent ++ [Requested (UsersRemove (H := Demo.discord) "✅" "u1")].
Proof.
  destruct (InteractiveEmbed_events_handled_once (H := Demo.discord) tt "u1"
              Demo.interactive_world Demo.interactive_sent _ eq_refl
              Demo_interactive_sent_reachable eq_refl) as [Hcollect _].
  apply (Hcollect "✅" "u1").
Defined.
